(** * map_ts_dependencies: the lexer, the scan state machine, the
    aggregation and filter loops, the level calculator and the report of
    [main.py], embedded in Rocq, with the properties of its specification
    and further properties of the code.

    Modelling conventions.
    - File text is the [str] that [read] returns, as a [string] whose
      characters are its code points; the texts of the model are those over
      the code points below 256 (a character of a [string] is its own code
      point, not a byte of an encoding).  The regular expressions of
      [token_spec] are run by a backtracking matcher with Python's priorities
      (first alternative first, greedy repetition, capture groups), and the
      class [\w] is the one of a [str] pattern: the characters Unicode takes
      as alphanumeric, and the underscore ([is_word]).
    - Python sets of names are [gset string], dicts keyed by names are
      [gmap string _]; results that do not depend on the iteration order of a
      set are stated without it, and the report, which does, takes the order
      as a parameter.
    - [DEBUG] is [False] in the source, so [debug] prints nothing and is left
      out.
    - Exceptions are values of [exn]; recursion depth is a [nat] budget whose
      exhaustion is [RecursionError]. *)

From Stdlib Require Import Ascii String ZArith Lia.
From stdpp Require Import gmap strings list fin_maps fin_sets relations pretty
  sorting.

Set Warnings "-clear-no-such-hyp".

(** ** Regular expressions with Python's backtracking semantics *)

Module Re.

Inductive regex : Type :=
| Eps
| Chr (p : ascii → bool)
| Seq (r1 r2 : regex)
| Alt (r1 r2 : regex)
| Star (r : regex)
| Grp (name : option string) (r : regex).

(** [r?], greedy: the alternative with [r] is tried first. *)
Definition Opt (r : regex) : regex := Alt r Eps.

Fixpoint Lit (s : list ascii) : regex :=
  match s with
  | [] => Eps
  | c :: s' => Seq (Chr (Ascii.eqb c)) (Lit s')
  end.

Definition lit (s : string) : regex := Lit (list_ascii_of_string s).

Definition cat (rs : list regex) : regex := foldr Seq Eps rs.

(** The groups closed so far, most recent first: a group's name ([None] for
    an unnamed pair of parentheses) and the text it matched. *)
Definition groups : Type := list (option string * list ascii).

Fixpoint group (name : string) (g : groups) : option (list ascii) :=
  match g with
  | [] => None
  | (n, v) :: g' => if decide (n = Some name) then Some v else group name g'
  end.

(** [lastgroup]: the name of the group that closed last. *)
Definition lastgroup (g : groups) : option string :=
  match g with
  | [] => None
  | (n, _) :: _ => n
  end.

Section exec.
Context {A : Type}.

(** Greedy repetition of [step]: one more round is tried before the
    continuation; a round that consumes nothing ends the repetition. *)
Fixpoint star_loop
    (step : list ascii → groups → (list ascii → groups → option A) → option A)
    (k : list ascii → groups → option A)
    (n : nat) (s : list ascii) (g : groups) : option A :=
  match n with
  | 0 => k s g
  | S n' =>
      match step s g (λ s' g',
               if length s' <? length s then star_loop step k n' s' g' else None) with
      | Some a => Some a
      | None => k s g
      end
  end.

(** [exec r s g k]: match [r] at the head of [s], then continue with [k] on
    the rest; [None] makes the matcher backtrack to its last choice. *)
Fixpoint exec (r : regex) (s : list ascii) (g : groups)
    (k : list ascii → groups → option A) : option A :=
  match r with
  | Eps => k s g
  | Chr p =>
      match s with
      | c :: s' => if p c then k s' g else None
      | [] => None
      end
  | Seq r1 r2 => exec r1 s g (λ s' g', exec r2 s' g' k)
  | Alt r1 r2 =>
      match exec r1 s g k with
      | Some a => Some a
      | None => exec r2 s g k
      end
  | Star r1 => star_loop (exec r1) k (length s) s g
  | Grp name r1 =>
      exec r1 s g (λ s' g', k s' ((name, take (length s - length s') s) :: g'))
  end.
End exec.

(** A successful match at the head of [s]: the text left over and the groups. *)
Definition accept (s : list ascii) (g : groups) : option (list ascii * groups) :=
  Some (s, g).

Definition match_here (r : regex) (s : list ascii) : option (list ascii * groups) :=
  exec r s [] accept.

(** What the matcher can do, without priorities: [matches r v g g'] when
    [r] can consume exactly the text [v], taking the groups from [g] to
    [g']. *)
Inductive matches : regex → list ascii → groups → groups → Prop :=
| M_Eps g : matches Eps [] g g
| M_Chr p c g : p c = true → matches (Chr p) [c] g g
| M_Seq r1 r2 v1 v2 g g1 g2 :
    matches r1 v1 g g1 → matches r2 v2 g1 g2 → matches (Seq r1 r2) (v1 ++ v2) g g2
| M_AltL r1 r2 v g g' : matches r1 v g g' → matches (Alt r1 r2) v g g'
| M_AltR r1 r2 v g g' : matches r2 v g g' → matches (Alt r1 r2) v g g'
| M_Star0 r g : matches (Star r) [] g g
| M_StarS r v1 v2 g g1 g2 :
    matches r v1 g g1 → matches (Star r) v2 g1 g2 → matches (Star r) (v1 ++ v2) g g2
| M_Grp name r v g g' :
    matches r v g g' → matches (Grp name r) v g ((name, v) :: g').

(** A pattern without groups. *)
Fixpoint groupless (r : regex) : bool :=
  match r with
  | Eps | Chr _ => true
  | Seq r1 r2 | Alt r1 r2 => groupless r1 && groupless r2
  | Star r1 => groupless r1
  | Grp _ _ => false
  end.

(** Two results of the matcher, the first on a text [x ++ t] and the second on
    [x] alone: a match that ends exactly before [t] is found on [x] with the
    same groups, and a failure stays one. *)
Definition orel (t : list ascii) (o o' : option (list ascii * groups)) : Prop :=
  (∀ g1, o = Some (t, g1) → o' = Some ([], g1)) ∧ (o = None → o' = None).

(** A continuation that returns, as the text left over, no more than it was
    given. *)
Definition bounded (k : list ascii → groups → option (list ascii * groups)) : Prop :=
  ∀ u g y g1, k u g = Some (y, g1) → length y ≤ length u.

(** Two continuations that are related on every [x ++ t] and [x]. *)
Definition sim (t : list ascii)
    (k k' : list ascii → groups → option (list ascii * groups)) : Prop :=
  bounded k ∧ ∀ x g, orel t (k (x ++ t) g) (k' x g).

End Re.

(** ** The lexer: [token_spec], [TOKEN_REGEX] and [finditer] *)

Definition in_range (lo hi : ascii) (c : ascii) : bool :=
  (nat_of_ascii lo <=? nat_of_ascii c) && (nat_of_ascii c <=? nat_of_ascii hi).

Definition is_letter (c : ascii) : bool :=
  in_range "a" "z" c || in_range "A" "Z" c.

Definition is_digit (c : ascii) : bool := in_range "0" "9" c.

(** [[_a-zA-Z]] *)
Definition id_start (c : ascii) : bool := Ascii.eqb c "_" || is_letter c.

Definition in_codes (lo hi : nat) (c : ascii) : bool :=
  (lo <=? nat_of_ascii c) && (nat_of_ascii c <=? hi).

(** [\w] of a [str] pattern: the underscore and the characters that are
    alphanumeric for Unicode (a letter, or a character with a decimal, digit
    or numeric value).  Among the code points below 256 these are
    [A-Za-z0-9], the ordinal indicators 170 and 186, the micro sign 181, the
    superscript digits 178, 179 and 185, the fractions 188 to 190, and the
    letters 192 to 255 without the multiplication sign 215 and the division
    sign 247. *)
Definition is_word (c : ascii) : bool :=
  is_letter c || is_digit c || Ascii.eqb c "_"
  || existsb (Nat.eqb (nat_of_ascii c)) [170; 178; 179; 181; 185; 186; 188; 189; 190]
  || in_codes 192 214 c || in_codes 216 246 c || in_codes 248 255 c.

(** [[_\w]] *)
Definition id_char (c : ascii) : bool := Ascii.eqb c "_" || is_word c.

Definition newline : ascii := ascii_of_nat 10.

(** [[^...]]: any character outside the listed ones. *)
Definition none_of (cs : list ascii) (c : ascii) : bool :=
  negb (existsb (Ascii.eqb c) cs).

Import Re.

(** [IDENTIFIER_STR = r'[_a-zA-Z][_\w]*'] (line 15) *)
Definition IDENTIFIER_STR : regex := Seq (Chr id_start) (Star (Chr id_char)).

(** [r'//[^\n]r'] *)
Definition IGNORE_re : regex :=
  cat [lit "//"; Chr (none_of [newline]); lit "r"].

(** [(((export )?(async )?function)|((public|private)( async)?( static)?))
    (?P<funcname>IDENTIFIER_STR)[^);]*\)([^{;]*{)] *)
Definition FUNCSTART_re : regex :=
  cat [ Grp None (Alt
          (Grp None (cat [Opt (Grp None (lit "export "));
                          Opt (Grp None (lit "async "));
                          lit "function"]))
          (Grp None (cat [Grp None (Alt (lit "public") (lit "private"));
                          Opt (Grp None (lit " async"));
                          Opt (Grp None (lit " static"))])));
        lit " ";
        Grp (Some "funcname") IDENTIFIER_STR;
        Star (Chr (none_of [")"; ";"]%char));
        lit ")";
        Grp None (cat [Star (Chr (none_of ["{"; ";"]%char)); lit "{"]) ].

Definition token_spec : list (string * regex) :=
  [ ("IGNORE", IGNORE_re);
    ("FUNCSTART", FUNCSTART_re);
    ("IDENTIFIER", IDENTIFIER_STR);
    ("OPEN_PAREN", lit "{");
    ("CLOSE_PAREN", lit "}");
    ("NEWLINE", Chr (Ascii.eqb newline)) ].

(** ['|'.join('(?P<%s>%s)' % pair for pair in token_spec.items())] (line 25);
    every alternative consumes at least one character, so no match is
    empty. *)
Fixpoint join_alternatives (spec : list (string * regex)) : regex :=
  match spec with
  | [] => Chr (λ _, false)
  | [(n, r)] => Grp (Some n) r
  | (n, r) :: spec' => Alt (Grp (Some n) r) (join_alternatives spec')
  end.

Definition TOKEN_REGEX : regex := join_alternatives token_spec.

(** A match object of [finditer]: [start()], [end()], [group()] and
    [lastgroup]. *)
Record Match : Type := mkMatch {
  mo_start : nat;
  mo_end : nat;
  mo_group : string;
  mo_lastgroup : option string
}.

(** One search position of [finditer]: a match of [TOKEN_REGEX] at the head
    of [s], as the text it consumed and its [lastgroup]. *)
Definition match_at (s : list ascii) : option (list ascii * option string) :=
  match match_here TOKEN_REGEX s with
  | Some (rest, g) => Some (take (length s - length rest) s, lastgroup g)
  | None => None
  end.

(** [TOKEN_REGEX.finditer(data)] from offset [pos]: the matches from left to
    right, without overlap.  [skip] counts the characters still covered by
    the match found last; a position where nothing matches is passed over. *)
Fixpoint finditer_from (pos skip : nat) (s : list ascii) : list Match :=
  match s with
  | [] => []
  | _ :: s' =>
      match skip with
      | S n => finditer_from (S pos) n s'
      | 0 =>
          match match_at s with
          | Some (v, lg) =>
              mkMatch pos (pos + length v) (string_of_list_ascii v) lg
              :: finditer_from (S pos) (length v - 1) s'
          | None => finditer_from (S pos) 0 s'
          end
      end
  end.

Definition finditer (data : string) : list Match :=
  finditer_from 0 0 (list_ascii_of_string data).

(** [re.match(token_spec['FUNCSTART'], text)['funcname']]: [None] when the
    pattern does not match at the start of [text] (subscripting the missing
    match object is the [TypeError] of the callers). *)
Definition match_funcname (text : string) : option string :=
  match match_here FUNCSTART_re (list_ascii_of_string text) with
  | Some (_, g) =>
      match group "funcname" g with
      | Some v => Some (string_of_list_ascii v)
      | None => None
      end
  | None => None
  end.

(** ['{' in text] *)
Definition contains_open_brace (text : string) : bool :=
  existsb (Ascii.eqb "{") (list_ascii_of_string text).

Definition nl : string := String newline "".

(** ** The scan state machine *)

Inductive exn : Type :=
| StopIteration
| TypeError
| AttributeError
| KeyError
| OSError
| RecursionError
| ValueError
| RuntimeError.

Record Token : Type := mkToken {
  kind : option string;
  value : string;
  line : nat;
  column : Z
}.

(** The attributes of a [FileContext] (lines 63-69, and those the states
    set).  An attribute that [__init__] does not
    set is [None] until its first assignment; reading it earlier is an
    [AttributeError].  [printed] is what the scan has written to standard
    output, oldest line first. *)
Record FileContext : Type := mkCtx {
  path : string;
  funcs : gmap string (gset string);
  line_num : nat;
  line_start : nat;
  tok_itr : option (list Match);
  token : option Token;
  curr_func_name : option string;
  curr_func_ids : option (gset string);
  paren_level : option Z;
  printed : list string
}.

(** [FileContext(path)] *)
Definition new_FileContext (p : string) : FileContext :=
  mkCtx p ∅ 1 0 None None None None None [].

Definition set_funcs (v : gmap string (gset string)) (c : FileContext) :=
  mkCtx (path c) v (line_num c) (line_start c) (tok_itr c) (token c)
        (curr_func_name c) (curr_func_ids c) (paren_level c) (printed c).
Definition set_newline (ls : nat) (c : FileContext) :=
  mkCtx (path c) (funcs c) (line_num c + 1) ls (tok_itr c) (token c)
        (curr_func_name c) (curr_func_ids c) (paren_level c) (printed c).
Definition set_tok_itr (v : list Match) (c : FileContext) :=
  mkCtx (path c) (funcs c) (line_num c) (line_start c) (Some v) (token c)
        (curr_func_name c) (curr_func_ids c) (paren_level c) (printed c).
Definition set_token (v : Token) (c : FileContext) :=
  mkCtx (path c) (funcs c) (line_num c) (line_start c) (tok_itr c) (Some v)
        (curr_func_name c) (curr_func_ids c) (paren_level c) (printed c).
Definition set_curr_func (n : string) (ids : gset string) (lvl : Z) (c : FileContext) :=
  mkCtx (path c) (funcs c) (line_num c) (line_start c) (tok_itr c) (token c)
        (Some n) (Some ids) (Some lvl) (printed c).
Definition set_curr_func_ids (ids : gset string) (c : FileContext) :=
  mkCtx (path c) (funcs c) (line_num c) (line_start c) (tok_itr c) (token c)
        (curr_func_name c) (Some ids) (paren_level c) (printed c).
Definition set_paren_level (lvl : Z) (c : FileContext) :=
  mkCtx (path c) (funcs c) (line_num c) (line_start c) (tok_itr c) (token c)
        (curr_func_name c) (curr_func_ids c) (Some lvl) (printed c).
Definition print (msg : string) (c : FileContext) :=
  mkCtx (path c) (funcs c) (line_num c) (line_start c) (tok_itr c) (token c)
        (curr_func_name c) (curr_func_ids c) (paren_level c) (printed c ++ [msg]).

(** The subclasses of [State]. *)
Inductive State : Type :=
| Start
| ReadData
| GetNextToken
| FuncStartState
| ReadFunc
| EndFunc
| EndState
| ErrorState (err : exn).

(** What one call of [do] does: hands over the next state, returns [None]
    (the run is over), or raises. *)
Inductive step : Type :=
| Next (st : State) (c : FileContext)
| Halt (c : FileContext)
| Raise (e : exn) (c : FileContext).

(** [GetNextToken._get_next_token] (lines 113-133) *)
Definition get_next_token (c : FileContext) : exn + Token * FileContext :=
  match tok_itr c with
  | None => inl AttributeError
  | Some [] => inl StopIteration
  | Some (mo :: rest) =>
      let tok := mkToken (mo_lastgroup mo) (mo_group mo) (line_num c)
                         (Z.of_nat (mo_start mo) - Z.of_nat (line_start c)) in
      let c := set_tok_itr rest c in
      if decide (kind tok = Some "NEWLINE")
      then inr (tok, set_newline (mo_end mo) c)
      else inr (tok, c)
  end.

Definition nested_notice (name p : string) : string :=
  "Found nested function '" +:+ name +:+ "' in '" +:+ p
  +:+ "'. Determine dependencies manually".

(** The file system as the scan sees it: the text of a readable file. *)
Definition files : Type := string → option string.

Section machine.
Variable fs : files.

(** [State.do], by subclass (lines 79-188). *)
Definition do (st : State) (c : FileContext) : step :=
  match st with
  | Start => Next ReadData c
  | ReadData =>
      match fs (path c) with
      | Some data => Next GetNextToken (set_tok_itr (finditer data) c)
      | None => Raise OSError c
      end
  | GetNextToken =>
      match get_next_token c with
      | inr (tok, c) =>
          let c := set_token tok c in
          if decide (kind tok = Some "FUNCSTART")
          then Next FuncStartState c
          else Next GetNextToken c
      | inl StopIteration => Next EndState c
      | inl e => Raise e c
      end
  | FuncStartState =>
      match token c with
      | None => Raise AttributeError c
      | Some tok =>
          match match_funcname (value tok) with
          | None => Raise TypeError c
          | Some name =>
              Next ReadFunc
                (set_curr_func name ∅
                   (if contains_open_brace (value tok) then 1 else 0) c)
          end
      end
  | EndFunc =>
      match curr_func_name c, curr_func_ids c with
      | Some name, Some ids => Next GetNextToken (set_funcs (<[name := ids]> (funcs c)) c)
      | _, _ => Raise AttributeError c
      end
  | ReadFunc =>
      match get_next_token c with
      | inl e => Raise e c
      | inr (tok, c) =>
          let c := set_token tok c in
          if decide (kind tok = Some "FUNCSTART") then
            match match_funcname (value tok) with
            | None => Raise TypeError c
            | Some nested_func_name =>
                Next ReadFunc (print (nested_notice nested_func_name (path c)) c)
            end
          else if decide (kind tok = Some "IDENTIFIER") then
            match curr_func_ids c with
            | Some ids => Next ReadFunc (set_curr_func_ids (ids ∪ {[value tok]}) c)
            | None => Raise AttributeError c
            end
          else if decide (kind tok = Some "OPEN_PAREN") then
            match paren_level c with
            | Some l => Next ReadFunc (set_paren_level (l + 1) c)
            | None => Raise AttributeError c
            end
          else if decide (kind tok = Some "CLOSE_PAREN") then
            match paren_level c with
            | Some l =>
                let c := set_paren_level (l - 1) c in
                if decide (l - 1 = 0)%Z then Next EndFunc c else Next ReadFunc c
            | None => Raise AttributeError c
            end
          else Next ReadFunc c
      end
  | EndState => Halt c
  | ErrorState err => Raise err c
  end.

(** [n] calls of [do] in a row, stopping early when the run is over. *)
Fixpoint steps (n : nat) (st : State) (c : FileContext) : step :=
  match n with
  | 0 => Next st c
  | S n' =>
      match do st c with
      | Next st' c' => steps n' st' c'
      | r => r
      end
  end.

(** How a run ends; [None] below stands for a budget of calls that was too
    small, which the loop of [Context.run] does not have. *)
Inductive outcome : Type :=
| Returned (c : FileContext)
| Raised (e : exn) (c : FileContext).

(** [Context.run] (lines 57-60): [while self._run_once(): pass] *)
Fixpoint Context_run (fuel : nat) (st : State) (c : FileContext) : option outcome :=
  match fuel with
  | 0 => None
  | S n =>
      match do st c with
      | Next st' c' => Context_run n st' c'
      | Halt c' => Some (Returned c')
      | Raise e c' => Some (Raised e c')
      end
  end.

Definition error_message (p : string) (tok : Token) : string :=
  "Error found after " +:+ p +:+ ":" +:+ pretty (line tok) +:+ ":"
  +:+ pretty (column tok) +:+ ": '" +:+ value tok +:+ "'".

(** The outcome of [FileContext.run] (lines 71-76) with what it wrote to
    standard error.
    The handler formats [self.token]; when no token was read yet, that
    lookup raises in its turn and nothing is written. *)
Definition handle (r : outcome) : outcome * list string :=
  match r with
  | Returned c => (Returned c, [])
  | Raised e c =>
      match token c with
      | Some tok => (Raised e c, [error_message (path c) tok])
      | None => (Raised AttributeError c, [])
      end
  end.

(** Calls of [do] that surely end the scan of a text: two per token and
    four around them. *)
Definition run_budget (p : string) : nat :=
  match fs p with
  | Some data => 2 * String.length data + 4
  | None => 4
  end.

(** [ctx = FileContext(path); ctx.run(Start(ctx))] *)
Definition FileContext_run (p : string) : option (outcome * list string) :=
  handle <$> Context_run (run_budget p) Start (new_FileContext p).

End machine.

(** ** The module-level program: aggregation, filter and levels *)

(** The two global dicts [funcs] and [func_paths], and standard output. *)
Record tables : Type := mkTables {
  t_funcs : gmap string (gset string);
  t_func_paths : gmap string string;
  t_stdout : list string
}.

Definition no_tables : tables := mkTables ∅ ∅ [].

(** A part of the program either completes or the whole process ends on an
    uncaught exception, with what it had written on both streams. *)
Inductive result (A : Type) : Type :=
| Completed (a : A)
| Aborted (e : exn) (stdout stderr : list string).
Arguments Completed {A} a.
Arguments Aborted {A} e stdout stderr.

(** [funcs |= ctx.funcs; func_paths |= {f: path for f in ctx.funcs.keys()}]:
    on a name both sides have, the right-hand side of [|=] is kept. *)
Definition merge (p : string) (c : FileContext) (t : tables) : tables :=
  mkTables (funcs c ∪ t_funcs t)
           (gset_to_gmap p (dom (funcs c)) ∪ t_func_paths t)
           (t_stdout t ++ printed c).

(** [for path in list_files(path_root): ...] (lines 226-231), over the paths
    in the order the walk yields them. *)
Fixpoint scan_all (fs : files) (paths : list string) (t : tables)
    : option (result tables) :=
  match paths with
  | [] => Some (Completed t)
  | p :: ps =>
      match FileContext_run fs p with
      | None => None
      | Some (Returned c, _) => scan_all fs ps (merge p c t)
      | Some (Raised e c, err) => Some (Aborted e (t_stdout t ++ printed c) err)
      end
  end.

(** The body of [for d in deps]: the assignment to [funcs[fname]] is inside
    this loop. *)
Definition filter_step (fname d : string)
    (st : gset string * gmap string (gset string))
    : gset string * gmap string (gset string) :=
  let filtered_deps :=
    if decide (d ∈ dom st.2) then st.1 ∪ {[d]} else st.1 in
  (filtered_deps, <[fname := filtered_deps]> st.2).

(** The body of [for fname, deps in funcs.items()]. *)
Definition filter_one (fname : string) (deps : gset string)
    (funcs : gmap string (gset string)) : gmap string (gset string) :=
  (set_fold (filter_step fname) (∅, funcs) deps).2.

(** The dependency-filter loop (lines 233-240).  It assigns only to the key
    it is visiting, so each key is visited with the set the scan recorded for
    it. *)
Definition filter_deps (funcs : gmap string (gset string))
    : gmap string (gset string) :=
  map_fold filter_one funcs funcs.

(** The state of the [memoize_level] object: its [cache], keyed by
    [(tuple(sorted(base_dict.keys())), key)], here the key set and the key;
    and, for the statements about reuse, the keys [self.func] was called
    with, latest first. *)
Record memo : Type := mkMemo {
  cache : gmap (gset string * string) nat;
  calls : list string
}.

Definition new_memo : memo := mkMemo ∅ [].

Definition level_fn : Type :=
  gmap string (gset string) → string → memo → exn + nat * memo.

(** [memoize_level.__call__] (lines 205-213): [if val :=
    self.cache.get(cache_key)] takes the cached value when it is there and
    true, that is, not [0]. *)
Definition memoize_level (func : level_fn) : level_fn :=
  λ base_dict key m,
    let cache_key := (dom base_dict, key) in
    match cache m !! cache_key with
    | Some (S v) => inr (S v, m)
    | _ =>
        match func base_dict key (mkMemo (cache m) (key :: calls m)) with
        | inl e => inl e
        | inr (result, m') =>
            inr (result, mkMemo (<[cache_key := result]> (cache m')) (calls m'))
        end
    end.

(** [max] over the rest of an iterable whose greatest value so far is [acc]. *)
Fixpoint max_rest (f : string → memo → exn + nat * memo) (ks : list string)
    (acc : nat) (m : memo) : exn + nat * memo :=
  match ks with
  | [] => inr (acc, m)
  | k :: ks' =>
      match f k m with
      | inl e => inl e
      | inr (v, m') => max_rest f ks' (acc `max` v) m'
      end
  end.

(** [max(map(f, ks))]; of no value it is a [ValueError], which [get_level]
    rules out by its test on [len]. *)
Definition max_map (f : string → memo → exn + nat * memo) (ks : list string)
    (m : memo) : exn + nat * memo :=
  match ks with
  | [] => inl ValueError
  | k :: ks' =>
      match f k m with
      | inl e => inl e
      | inr (v, m') => max_rest f ks' v m'
      end
  end.

(** The function [get_level] decorates (lines 217-221), calling back into the
    decorated [get_level] ([self]). *)
Definition get_level_func (self : level_fn) : level_fn :=
  λ base_dict key m,
    match base_dict !! key with
    | None => inl KeyError
    | Some deps =>
        if decide (size deps = 0) then inr (0, m)
        else
          match max_map (self base_dict) (elements deps) m with
          | inl e => inl e
          | inr (v, m') => inr (1 + v, m')
          end
    end.

(** [get_level], with [depth] nested calls left before the interpreter's
    recursion limit. *)
Fixpoint get_level (depth : nat) : level_fn :=
  match depth with
  | 0 => λ _ _ _, inl RecursionError
  | S d => memoize_level (get_level_func (get_level d))
  end.

(** [levels.setdefault(l, set()).add(fname)] *)
Definition add_level (l : nat) (fname : string) (levels : gmap nat (gset string))
    : gmap nat (gset string) :=
  <[l := default ∅ (levels !! l) ∪ {[fname]}]> levels.

(** [for fname in funcs: l = get_level(funcs, fname); ...] (lines 243-246) *)
Fixpoint levels_loop (depth : nat) (funcs : gmap string (gset string))
    (names : list string) (levels : gmap nat (gset string)) (m : memo)
    : exn + gmap nat (gset string) * memo :=
  match names with
  | [] => inr (levels, m)
  | fname :: names' =>
      match get_level depth funcs fname m with
      | inl e => inl e
      | inr (l, m') => levels_loop depth funcs names' (add_level l fname levels) m'
      end
  end.

Definition compute_levels (depth : nat) (funcs : gmap string (gset string))
    : exn + gmap nat (gset string) * memo :=
  levels_loop depth funcs (map_to_list funcs).*1 ∅ new_memo.

(** The program up to the level map (the report comes after it, in
    [main]): scan every file, filter, assign levels. *)
Definition analyse (depth : nat) (fs : files) (paths : list string)
    : option (result (tables * gmap nat (gset string))) :=
  match scan_all fs paths no_tables with
  | None => None
  | Some (Aborted e out err) => Some (Aborted e out err)
  | Some (Completed t) =>
      let funcs := filter_deps (t_funcs t) in
      match compute_levels depth funcs with
      | inl e => Some (Aborted e (t_stdout t) [])
      | inr (levels, _) =>
          Some (Completed (mkTables funcs (t_func_paths t) (t_stdout t), levels))
      end
  end.

(** ** Reading a stretch of tokens inside a body

    What the tokens of a list do to the scan context when [ReadFunc] reads
    them one after the other: the identifiers they add, the change of the
    brace depth, the notices they cause. *)

Definition has_kind (k : string) (mo : Match) : Prop := mo_lastgroup mo = Some k.

#[global] Instance has_kind_dec k mo : Decision (has_kind k mo) :=
  decide (mo_lastgroup mo = Some k).

Definition ident_of (mo : Match) : gset string :=
  if decide (has_kind "IDENTIFIER" mo) then {[mo_group mo]} else ∅.

Definition idents (toks : list Match) : gset string := ⋃ (ident_of <$> toks).

Definition delta (mo : Match) : Z :=
  if decide (has_kind "OPEN_PAREN" mo) then 1
  else if decide (has_kind "CLOSE_PAREN" mo) then -1
  else 0.

Definition depth_after (d : Z) (toks : list Match) : Z :=
  foldl (λ d mo, d + delta mo)%Z d toks.

(** The closing brace that takes the depth [d] to [0]. *)
Definition closes (d : Z) (mo : Match) : Prop :=
  has_kind "CLOSE_PAREN" mo ∧ (d - 1 = 0)%Z.

#[global] Instance closes_dec d mo : Decision (closes d mo) :=
  decide (has_kind "CLOSE_PAREN" mo ∧ (d - 1 = 0)%Z).

(** No token of the list takes the depth, [d] at its start, to [0]: the body
    stays open throughout. *)
Fixpoint stays_open (d : Z) (toks : list Match) : bool :=
  match toks with
  | [] => true
  | mo :: toks' =>
      if decide (closes d mo) then false else stays_open (d + delta mo) toks'
  end.

Definition notice_of (p : string) (mo : Match) : list string :=
  if decide (has_kind "FUNCSTART" mo) then
    match match_funcname (mo_group mo) with
    | Some name => [nested_notice name p]
    | None => []
    end
  else [].

Definition notices (p : string) (toks : list Match) : list string :=
  mjoin (notice_of p <$> toks).

(** The token built from a match object. *)
Definition token_of (mo : Match) (tok : Token) : Prop :=
  kind tok = mo_lastgroup mo ∧ value tok = mo_group mo.

(** Every declaration head among the tokens yields a name when the pattern
    is applied to its text again. *)
Definition tokens_ok (toks : list Match) : Prop :=
  Forall (λ mo, has_kind "FUNCSTART" mo → is_Some (match_funcname (mo_group mo))) toks.

(** The token read last, after [toks] were read from a context whose
    current token was [old]. *)
Definition last_token (toks : list Match) (old new : option Token) : Prop :=
  match last toks with
  | Some mo => ∃ tok, new = Some tok ∧ token_of mo tok
  | None => new = old
  end.

(** Calls of [do] that surely end a scan that is in state [st]; two more
    for every token still to be read. *)
Definition weight (st : State) : nat :=
  match st with
  | Start => 4
  | ReadData => 3
  | GetNextToken | ReadFunc => 2
  | FuncStartState | EndFunc => 3
  | EndState | ErrorState _ => 1
  end.

(** What holds of the context in every state the scan of the text [data] of
    the file [p] goes through: the tokens still to be read are the end of
    [finditer data], the current token is the one before them, and inside a
    body the current function's attributes are set and the brace depth is at
    least 1. *)
Definition scan_inv (p data : string) (st : State) (c : FileContext) : Prop :=
  path c = p ∧
  match st with
  | Start | ReadData => token c = None
  | EndState | ErrorState _ => True
  | _ =>
      ∃ pre toks, finditer data = pre ++ toks ∧ tok_itr c = Some toks ∧
        last_token pre None (token c) ∧
        match st with
        | FuncStartState => ∃ mo, last pre = Some mo ∧ has_kind "FUNCSTART" mo
        | ReadFunc =>
            is_Some (curr_func_name c) ∧ is_Some (curr_func_ids c) ∧
            (∃ d, paren_level c = Some d ∧ (1 ≤ d)%Z) ∧ pre ≠ []
        | EndFunc =>
            is_Some (curr_func_name c) ∧ is_Some (curr_func_ids c) ∧
            is_Some (paren_level c) ∧ pre ≠ []
        | _ => True
        end
  end.

(** The tokens of a brace-balanced stretch: read from depth 1, no closing
    brace takes the depth to 0 and the depth is 1 again at the end. *)
Definition balanced (toks : list Match) : Prop :=
  stays_open 1 toks = true ∧ depth_after 1 toks = 1%Z.

(** No declaration head among the tokens. *)
Definition headless (toks : list Match) : Prop :=
  Forall (λ mo, ¬ has_kind "FUNCSTART" mo) toks.

(** The dependency graph of a function table. *)
Definition edge (g : gmap string (gset string)) (f d : string) : Prop :=
  ∃ deps, g !! f = Some deps ∧ d ∈ deps.

Definition acyclic (g : gmap string (gset string)) : Prop :=
  ∀ f, ¬ tc (edge g) f f.

Definition cyclic (g : gmap string (gset string)) : Prop :=
  ∃ f, tc (edge g) f f.

(** No dangling edges: every dependency is a key. *)
Definition closed (g : gmap string (gset string)) : Prop :=
  map_Forall (λ _ deps, deps ⊆ dom g) g.

(** [get_level(funcs, k)] for each [k] of [ks] in turn, on one memo: the
    levels returned, first call first. *)
Fixpoint call_each (depth : nat) (funcs : gmap string (gset string))
    (ks : list string) (m : memo) : exn + list nat * memo :=
  match ks with
  | [] => inr ([], m)
  | k :: ks' =>
      match get_level depth funcs k m with
      | inl e => inl e
      | inr (l, m') =>
          match call_each depth funcs ks' m' with
          | inl e => inl e
          | inr (ls, m'') => inr (l :: ls, m'')
          end
      end
  end.

(** What a sequence of calls returned, the keys the decorated function was
    entered with (latest first), and the cache entries of the keys [ks]. *)
Definition observed (funcs : gmap string (gset string)) (ks : list string)
    (r : exn + list nat * memo)
    : option (list nat * list string * list (option nat)) :=
  match r with
  | inl _ => None
  | inr (ls, m) => Some (ls, calls m, (λ k, cache m !! (dom funcs, k)) <$> ks)
  end.

(** The longest chain of dependencies below [f], followed for at most [n]
    edges: the level the specification assigns, once [n] is the number of
    functions. *)
Fixpoint height (n : nat) (g : gmap string (gset string)) (f : string) : nat :=
  match n with
  | 0 => 0
  | S n' =>
      match g !! f with
      | Some deps =>
          if decide (size deps = 0) then 0
          else S (max_list (height n' g <$> elements deps))
      | None => 0
      end
  end.

(** Every cached value for the key set of [g] is the level of its key. *)
Definition cache_ok (g : gmap string (gset string)) (level : string → nat)
    (m : memo) : Prop :=
  ∀ k v, cache m !! (dom g, k) = Some v → v = level k.

(** [f] can reach a cycle of the graph. *)
Definition reaches_cycle (g : gmap string (gset string)) (f : string) : Prop :=
  ∃ c, rtc (edge g) f c ∧ tc (edge g) c c.

(** No cached value that [memoize_level] would return belongs to a function
    that can reach a cycle. *)
Definition cache_sound (g : gmap string (gset string)) (m : memo) : Prop :=
  ∀ k v, cache m !! (dom g, k) = Some (S v) → ¬ reaches_cycle g k.

(** ** Sample inputs *)

(** A file system holding one file. *)
Definition one_file (p data : string) : files :=
  λ q, if decide (q = p) then Some data else None.

(** The context of a scan after [n] calls of [do]. *)
Definition ctx_after (fs : files) (p : string) (n : nat) : FileContext :=
  match steps fs n Start (new_FileContext p) with
  | Next _ c | Halt c | Raise _ c => c
  end.

(** Scenario C of the specification, in one file. *)
Definition nested_once : string :=
  "function outer(){ function inner(){ helper(); } after(); } function helper(){}".

(** A declaration nested in a nested declaration. *)
Definition nested_twice : string :=
  "function outer(){ function inner(){ function inner2(){ a(); } b(); } }".

(** The file system with that text as [a.ts]. *)
Definition nested_twice_fs : files := one_file "a.ts" nested_twice.

(** A body that is never closed. *)
Definition unbalanced : string :=
  "function f(){" +:+ nl +:+ "  g();" +:+ nl.

(** A comment inside a body. *)
Definition commented : string :=
  "function f(){" +:+ nl +:+ "// helper" +:+ nl +:+ "}" +:+ nl
  +:+ "function helper(){}".

(** Scenario A of the specification as a raw table: [foo] names [bar] and
    [print], which is no function of the tree. *)
Definition scenario_A : gmap string (gset string) :=
  {[ "foo" := {["bar"; "print"]}; "bar" := ∅ ]}.

(** Scenario B of the specification: two functions that call each other. *)
Definition scenario_B : string := "function a(){ b(); } function b(){ a(); }".

Definition scenario_B_table : gmap string (gset string) :=
  {[ "a" := {["b"]}; "b" := {["a"]} ]}.

(** Scenario D of the specification: two files that declare [dup]. *)
Definition scenario_D : files :=
  λ q, if decide (q = "one.ts") then Some "function dup(){ first(); }"
       else if decide (q = "two.ts") then Some "function dup(){ second(); }"
       else None.

(** Scenario A of the specification as two files. *)
Definition scenario_A_files : files :=
  λ q, if decide (q = "bar.ts") then Some "function bar(){}"
       else if decide (q = "foo.ts") then Some "function foo(){ bar(); print(); }"
       else None.

(** ** The token stream *)

(** [data[start:stop]] *)
Definition slice (start stop : nat) (data : string) : string :=
  string_of_list_ascii (take (stop - start) (drop start (list_ascii_of_string data))).

(** The keys of [token_spec]. *)
Definition token_kinds : list string := token_spec.*1.

(** A text of the shape [IDENTIFIER_STR]. *)
Definition is_identifier (v : list ascii) : Prop :=
  match v with
  | c :: v' => id_start c = true ∧ Forall (λ c, id_char c = true) v'
  | [] => False
  end.

(** The words a declaration head can start with, before the blank and the
    name. *)
Definition head_keywords : list string :=
  [ "export async function"; "export function"; "async function"; "function";
    "public async static"; "public async"; "public static"; "public";
    "private async static"; "private async"; "private static"; "private" ].

(** ** The declarations of a file

    What the scan makes of the tokens of a file, as the state machine reads
    them: at top level it passes over everything up to the next declaration
    head; the head opens a body at depth 1, which lasts up to the closing
    brace that takes the depth to 0 (heads inside it are only noticed); the
    function is then recorded with the identifiers of that body. *)

(** [scanned p toks f o f' o']: the tokens [toks], read at top level with
    the table [f] and the output [o], are a sequence of complete
    declarations and leave the table [f'] and the output [o']. *)
Inductive scanned (p : string) : list Match →
    gmap string (gset string) → list string →
    gmap string (gset string) → list string → Prop :=
| scanned_end junk f o :
    headless junk → scanned p junk f o f o
| scanned_decl junk head name body close rest f o f' o' :
    headless junk →
    has_kind "FUNCSTART" head → match_funcname (mo_group head) = Some name →
    balanced body → has_kind "CLOSE_PAREN" close →
    scanned p rest (<[name := idents body]> f) (o ++ notices p body) f' o' →
    scanned p (junk ++ head :: body ++ close :: rest) f o f' o'.

(** The tokens end inside the body of a declaration. *)
Inductive open_ended : list Match → Prop :=
| open_here junk head body :
    headless junk → has_kind "FUNCSTART" head → stays_open 1 body = true →
    open_ended (junk ++ head :: body)
| open_later junk head body close rest :
    headless junk → has_kind "FUNCSTART" head →
    balanced body → has_kind "CLOSE_PAREN" close →
    open_ended rest →
    open_ended (junk ++ head :: body ++ close :: rest).

(** What [FuncStartState.do] needs of the declaration heads among the
    tokens: the pattern yields a name on the text of each, and the text holds
    an opening brace. *)
Definition heads_ok (toks : list Match) : Prop :=
  Forall (λ mo, has_kind "FUNCSTART" mo →
            is_Some (match_funcname (mo_group mo)) ∧
            contains_open_brace (mo_group mo) = true) toks.

(** ** Line and column of a token *)

(** The [NEWLINE] tokens among [toks]. *)
Definition newlines (toks : list Match) : nat :=
  length (filter (has_kind "NEWLINE") toks).

(** The offset after the last [NEWLINE] token of [toks]; [0] when there is
    none. *)
Definition line_start_after (toks : list Match) : nat :=
  foldl (λ ls mo, if decide (has_kind "NEWLINE" mo) then mo_end mo else ls) 0 toks.

(** The token [_get_next_token] builds for the match [mo] when the matches
    [pre] were read before it. *)
Definition token_at (pre : list Match) (mo : Match) : Token :=
  mkToken (mo_lastgroup mo) (mo_group mo) (1 + newlines pre)
          (Z.of_nat (mo_start mo) - Z.of_nat (line_start_after pre)).

(** The context before the file is read. *)
Definition fresh (c : FileContext) : Prop :=
  tok_itr c = None ∧ token c = None ∧ line_num c = 1 ∧ line_start c = 0.

(** The context once the matches [pre] of the text [data] are read:
    [line_num] and [line_start] follow the [NEWLINE] tokens, and the current
    token is the one built for the last match of [pre]. *)
Definition reading (data : string) (c : FileContext) : Prop :=
  ∃ pre toks, finditer data = pre ++ toks ∧ tok_itr c = Some toks ∧
    line_num c = 1 + newlines pre ∧ line_start c = line_start_after pre ∧
    match token c with
    | None => pre = []
    | Some tok => ∃ pre' mo, pre = pre' ++ [mo] ∧ tok = token_at pre' mo
    end.

Definition pos_inv (data : string) (st : State) (c : FileContext) : Prop :=
  match st with
  | Start | ReadData => fresh c
  | _ => reading data c
  end.

(** The context a call of [do] leaves. *)
Definition ctx_of (r : step) : FileContext :=
  match r with
  | Next _ c | Halt c | Raise _ c => c
  end.

(** Two tables with the same names and different dependencies. *)
Definition chain_table : gmap string (gset string) :=
  {[ "a" := {["b"]}; "b" := ∅ ]}.
Definition flat_table : gmap string (gset string) :=
  {[ "a" := ∅; "b" := ∅ ]}.

(** ** The report (lines 248-254) and the whole program *)

Section report.

(** The order in which a [set] is iterated is not specified:
    [level_order l X] is the order in which the loop over [levels[l]] meets
    the members of [X], and [deps_order fname X] the order in which [join]
    meets the dependencies [X] of [fname]. *)
Variable level_order : nat → gset string → list string.
Variable deps_order : string → gset string → list string.

(** The body of [for fname in levels[level]], after the lines [out]: the
    lines printed so far, and the exception that ended it, if any. *)
Definition report_func (t : tables) (fname : string) (out : list string)
    : list string * option exn :=
  match t_func_paths t !! fname with
  | None => (out, Some KeyError)
  | Some path =>
      let out := out ++ [fname +:+ " ( " +:+ path +:+ " )"] in
      match t_funcs t !! fname with
      | None => (out, Some KeyError)
      | Some deps =>
          if decide (0 < size deps)
          then (out ++ [" - " +:+ String.concat ", " (deps_order fname deps)], None)
          else (out, None)
      end
  end.

Fixpoint report_funcs (t : tables) (names : list string) (out : list string)
    : list string * option exn :=
  match names with
  | [] => (out, None)
  | fname :: names' =>
      match report_func t fname out with
      | (out', None) => report_funcs t names' out'
      | r => r
      end
  end.

(** The body of [for level in sorted(levels.keys())], for the levels [ls]
    in turn. *)
Fixpoint report_levels (t : tables) (levels : gmap nat (gset string))
    (ls : list nat) (out : list string) : list string * option exn :=
  match ls with
  | [] => (out, None)
  | l :: ls' =>
      let out := out ++ [pretty l] in
      match levels !! l with
      | None => (out, Some KeyError)
      | Some X =>
          match report_funcs t (level_order l X) out with
          | (out', None) => report_levels t levels ls' (out' ++ [""])
          | r => r
          end
      end
  end.

(** [sorted(levels.keys())] *)
Definition sorted_keys (levels : gmap nat (gset string)) : list nat :=
  merge_sort (≤) (elements (dom levels)).

Definition report (t : tables) (levels : gmap nat (gset string))
    (out : list string) : list string * option exn :=
  report_levels t levels (sorted_keys levels) out.

(** The program: the scan of every file, the filter loop, the level loop and
    the report, with all it wrote to standard output. *)
Definition main (depth : nat) (fs : files) (paths : list string)
    : option (result (list string)) :=
  match analyse depth fs paths with
  | None => None
  | Some (Aborted e out err) => Some (Aborted e out err)
  | Some (Completed (t, levels)) =>
      match report t levels (t_stdout t) with
      | (out, None) => Some (Completed out)
      | (out, Some e) => Some (Aborted e out [])
      end
  end.

(** The lines the report has for one function, and for one level. *)
Definition func_lines (t : tables) (fname : string) : list string :=
  (fname +:+ " ( " +:+ default "" (t_func_paths t !! fname) +:+ " )")
  :: match t_funcs t !! fname with
     | Some deps =>
         if decide (0 < size deps)
         then [" - " +:+ String.concat ", " (deps_order fname deps)]
         else []
     | None => []
     end.

Definition level_lines (t : tables) (levels : gmap nat (gset string)) (l : nat)
    : list string :=
  [pretty l]
  ++ mjoin (func_lines t <$> level_order l (default ∅ (levels !! l)))
  ++ [""].

End report.

(** Some iteration order: the one of [elements]. *)
Definition some_order {A} (_ : A) (X : gset string) : list string := elements X.

(** A file without a declaration. *)
Definition no_declaration : string := "const x = f(1);".

(** The characters that start a token wherever they stand: a letter or an
    underscore, a brace, the newline. *)
Definition starts_token (c : ascii) : bool :=
  id_start c || Ascii.eqb c "{" || Ascii.eqb c "}" || Ascii.eqb c newline.

(** The brace depth in each state of a scan: at least 1 inside a body, 0
    when a body was just closed, and unset or 0 between declarations; the
    error state is no state of a scan. *)
Definition depth_inv (st : State) (c : FileContext) : Prop :=
  match st with
  | ErrorState _ => False
  | ReadFunc => ∃ d, paren_level c = Some d ∧ (1 ≤ d)%Z
  | EndFunc => paren_level c = Some 0%Z
  | _ => paren_level c = None ∨ paren_level c = Some 0%Z
  end.

(** The names the scan of the file [p] records; none when it does not
    return. *)
Definition declared (fs : files) (p : string) : gset string :=
  match FileContext_run fs p with
  | Some (Returned c, _) => dom (funcs c)
  | _ => ∅
  end.

(** Everything [f] can reach in the graph of [g] is a key of [g]. *)
Definition keys_below (g : gmap string (gset string)) (f : string) : Prop :=
  ∀ x, rtc (edge g) f x → x ∈ dom g.

(** Every cached value for the key set of [g] belongs to a function below
    which all names are keys. *)
Definition cache_keys (g : gmap string (gset string)) (m : memo) : Prop :=
  ∀ k v, cache m !! (dom g, k) = Some v → keys_below g k.

(** Texts with characters from 128 on: [e] with acute accent (233),
    superscript two (178), the multiplication sign (215). *)
Definition chr (n : nat) : string := String (ascii_of_nat n) "".
Definition cafe : string := "caf" +:+ chr 233.

(** A declaration nested in an inner block of a body. *)
Definition nested_in_block : string :=
  "function outer(){ if (x) { function inner(){ a(); } b(); } }".

Ltac invert H := inversion H; subst; clear H.

(** * Properties *)

(** ** The program on the scenarios of the specification *)

Example lexer_declaration_heads :
  finditer "export async function load(a, b): void { x; } private static get(k) {"
  = [ mkMatch 0 40 "export async function load(a, b): void {" (Some "FUNCSTART");
      mkMatch 41 42 "x" (Some "IDENTIFIER");
      mkMatch 44 45 "}" (Some "CLOSE_PAREN");
      mkMatch 46 69 "private static get(k) {" (Some "FUNCSTART") ] ∧
  match_funcname "private static get(k) {" = Some "get" ∧
  match_funcname "function (k) {" = None.
Proof. split_and!; vm_compute; reflexivity. Qed.

(** A declaration without a body is no declaration head: its words are
    plain identifiers. *)
Example lexer_no_body :
  finditer "function f(a); g"
  = [ mkMatch 0 8 "function" (Some "IDENTIFIER");
      mkMatch 9 10 "f" (Some "IDENTIFIER");
      mkMatch 11 12 "a" (Some "IDENTIFIER");
      mkMatch 15 16 "g" (Some "IDENTIFIER") ].
Proof. vm_compute; reflexivity. Qed.

(** The word characters, by code point. *)
Example word_characters :
  filter (λ n, is_word (ascii_of_nat n) = true) (seq 0 256)
  = seq 48 10 ++ seq 65 26 ++ [95] ++ seq 97 26
    ++ [170; 178; 179; 181; 185; 186; 188; 189; 190]
    ++ seq 192 23 ++ seq 216 31 ++ seq 248 8.
Proof. vm_compute; reflexivity. Qed.

(** Identifiers with letters from 128 on are one token, and a name with such
    letters is the name of its declaration. *)
Example lexer_non_ascii :
  finditer (cafe +:+ " x" +:+ chr 178 +:+ " a" +:+ chr 215 +:+ "b")
  = [ mkMatch 0 4 cafe (Some "IDENTIFIER");
      mkMatch 5 7 ("x" +:+ chr 178) (Some "IDENTIFIER");
      mkMatch 8 9 "a" (Some "IDENTIFIER");
      mkMatch 10 11 "b" (Some "IDENTIFIER") ] ∧
  finditer ("function " +:+ cafe +:+ "(){")
  = [ mkMatch 0 16 ("function " +:+ cafe +:+ "(){") (Some "FUNCSTART") ] ∧
  match_funcname ("function " +:+ cafe +:+ "(){") = Some cafe.
Proof. split_and!; vm_compute; reflexivity. Qed.

Example scenario_A_levels :
  analyse 1000 scenario_A_files ["bar.ts"; "foo.ts"]
  = Some (Completed
            (mkTables {["foo" := {["bar"]}; "bar" := ∅]}
                      {["foo" := "foo.ts"; "bar" := "bar.ts"]} [],
             {[0 := {["bar"]}; 1 := {["foo"]}]})).
Proof. vm_compute; reflexivity. Qed.

Example scenario_C_levels :
  analyse 1000 (one_file "a.ts" nested_once) ["a.ts"]
  = Some (Completed
            (mkTables {["outer" := {["helper"]}; "helper" := ∅]}
                      {["outer" := "a.ts"; "helper" := "a.ts"]}
                      [nested_notice "inner" "a.ts"],
             {[0 := {["helper"]}; 1 := {["outer"]}]})).
Proof. vm_compute; reflexivity. Qed.

Example unbalanced_aborts :
  analyse 1000 (one_file "a.ts" unbalanced) ["a.ts"; "b.ts"]
  = Some (Aborted StopIteration []
            ["Error found after a.ts:2:6: '" +:+ nl +:+ "'"]).
Proof. vm_compute; reflexivity. Qed.

(** A path that cannot be read: the handler of [FileContext.run] finds no
    token to report and raises in its turn. *)
Example unreadable_file :
  analyse 1000 (one_file "a.ts" unbalanced) ["missing.ts"]
  = Some (Aborted AttributeError [] []).
Proof. vm_compute; reflexivity. Qed.

(** *** The matcher and its continuation *)

Section exec_facts.
Context {A : Type}.
Implicit Types k : list ascii → groups → option A.

Lemma star_loop_ext step k1 k2 :
  (∀ s g k k', (∀ s' g', k s' g' = k' s' g') → step s g k = step s g k') →
  (∀ s g, k1 s g = k2 s g) →
  ∀ n s g, star_loop step k1 n s g = star_loop step k2 n s g.
Proof.
  intros Hstep Hk n. induction n as [|n IH]; intros s g; simpl; [apply Hk|].
  rewrite (Hstep s g _ (λ s' g',
    if length s' <? length s then star_loop step k2 n s' g' else None)).
  - by rewrite Hk.
  - intros s' g'. destruct (length s' <? length s); [apply IH|done].
Qed.

Lemma exec_ext r : ∀ s g k k',
  (∀ s' g', k s' g' = k' s' g') → exec r s g k = exec r s g k'.
Proof.
  induction r as [|p|r1 IH1 r2 IH2|r1 IH1 r2 IH2|r IH|name r IH];
    intros s g k k' Hk; simpl.
  - apply Hk.
  - destruct s as [|c s]; [done|]. destruct (p c); [apply Hk|done].
  - apply IH1. intros s' g'. by apply IH2.
  - rewrite (IH1 s g k k' Hk), (IH2 s g k k' Hk). done.
  - apply star_loop_ext; [|done]. intros. by apply IH.
  - apply IH. intros s' g'. apply Hk.
Qed.

Lemma star_loop_sound r k :
  (∀ s g k a, exec r s g k = Some a →
     ∃ v s' g', s = v ++ s' ∧ matches r v g g' ∧ k s' g' = Some a) →
  ∀ n s g a, star_loop (exec r) k n s g = Some a →
    ∃ v s' g', s = v ++ s' ∧ matches (Star r) v g g' ∧ k s' g' = Some a.
Proof.
  intros IHr n. induction n as [|n IH]; intros s g a; simpl.
  - intros Hk. exists [], s, g. split_and!; [done|constructor|done].
  - destruct (exec r s g _) as [a'|] eqn:He.
    + intros [= ->]. apply IHr in He as (v1 & s1 & g1 & -> & Hm1 & Hk).
      destruct (length s1 <? length (v1 ++ s1)); [|done].
      apply IH in Hk as (v2 & s2 & g2 & -> & Hm2 & Hk).
      exists (v1 ++ v2), s2, g2. split_and!; [by rewrite (assoc_L (++))| |done].
      by econstructor.
    + intros Hk. exists [], s, g. split_and!; [done|constructor|done].
Qed.

(** Whatever the matcher returns came from its continuation, called on
    what is left after a text the pattern can consume. *)
Lemma exec_sound r : ∀ s g k a,
  exec r s g k = Some a →
  ∃ v s' g', s = v ++ s' ∧ matches r v g g' ∧ k s' g' = Some a.
Proof.
  induction r as [|p|r1 IH1 r2 IH2|r1 IH1 r2 IH2|r IH|name r IH];
    intros s g k a; simpl.
  - intros Hk. exists [], s, g. split_and!; [done|constructor|done].
  - destruct s as [|c s]; [done|]. destruct (p c) eqn:Hp; [|done].
    intros Hk. exists [c], s, g. split_and!; [done|by constructor|done].
  - intros He. apply IH1 in He as (v1 & s1 & g1 & -> & Hm1 & He).
    apply IH2 in He as (v2 & s2 & g2 & -> & Hm2 & Hk).
    exists (v1 ++ v2), s2, g2. split_and!; [by rewrite (assoc_L (++))| |done].
    by econstructor.
  - destruct (exec r1 s g k) as [a'|] eqn:He1.
    + intros [= ->]. apply IH1 in He1 as (v & s' & g' & -> & Hm & Hk).
      exists v, s', g'. split_and!; [done|by apply M_AltL|done].
    + intros He2. apply IH2 in He2 as (v & s' & g' & -> & Hm & Hk).
      exists v, s', g'. split_and!; [done|by apply M_AltR|done].
  - by apply star_loop_sound.
  - intros He. apply IH in He as (v & s' & g' & -> & Hm & Hk).
    exists v, s', ((name, v) :: g'). split_and!; [done|by constructor|].
    rewrite length_app, Nat.add_sub, take_app_length in Hk. done.
Qed.
End exec_facts.

Lemma matches_Lit l : ∀ v g g', matches (Lit l) v g g' → v = l ∧ g' = g.
Proof.
  induction l as [|c l IH]; intros v g g' Hm; simpl in Hm.
  - by inversion Hm.
  - inversion Hm as [| |? ? v1 v2 ? g1 ? Hc Hl| | | | |]; subst.
    inversion Hc; subst. apply IH in Hl as [-> ->].
    split; [|done]. simpl. f_equal.
    symmetry. by apply Ascii.eqb_eq.
Qed.

Lemma matches_groupless r v g g' :
  matches r v g g' → groupless r = true → g' = g.
Proof.
  induction 1; simpl; intros Hg; try done.
  - apply andb_true_iff in Hg as [? ?]. rewrite IHmatches2, IHmatches1; done.
  - apply andb_true_iff in Hg as [? ?]. auto.
  - apply andb_true_iff in Hg as [? ?]. auto.
  - rewrite IHmatches2, IHmatches1; done.
Qed.

Lemma groupless_Lit l : groupless (Lit l) = true.
Proof. induction l; simpl; done. Qed.


Lemma exec_fmap {A B} (h : A → B) r : ∀ s g (k : list ascii → groups → option A),
  exec r s g (λ s' g', h <$> k s' g') = h <$> exec r s g k.
Proof.
  induction r as [|p|r1 IH1 r2 IH2|r1 IH1 r2 IH2|r IH|name r IH];
    intros s g k; simpl.
  - done.
  - destruct s as [|c s]; [done|]. by destruct (p c).
  - rewrite <- IH1. apply exec_ext. intros s' g'. apply IH2.
  - rewrite IH1, IH2. by destruct (exec r1 s g k).
  - generalize (length s). intros n. revert s g.
    induction n as [|n IHn]; intros s g; simpl; [done|].
    rewrite (exec_ext r s g _ (λ s' g', h <$>
      (if length s' <? length s then star_loop (exec r) k n s' g' else None))).
    + rewrite IH. by destruct (exec r s g _).
    + intros s' g'. destruct (length s' <? length s); [apply IHn|done].
  - apply (IH s g (λ s' g', k s' ((name, take (length s - length s') s) :: g'))).
Qed.

(** *** Matching a text and matching its matched prefix alone

    The patterns have no look-ahead: cutting the text off where a match ends
    removes no choice the matcher took on the way and adds none. *)

Section truncation.
Variable t : list ascii.
Local Abbreviation res := (option (list ascii * groups)).
Implicit Types k : list ascii → groups → res.

Lemma orel_first (o1 o1' o2 o2' : res) :
  orel t o1 o1' → orel t o2 o2' →
  orel t (match o1 with Some a => Some a | None => o2 end)
       (match o1' with Some a => Some a | None => o2' end).
Proof.
  intros [H1 H1n] [H2 H2n]. destruct o1 as [[y g]|].
  - split; [|done]. intros g1 [= ? ?]; subst. by rewrite (H1 g1).
  - rewrite H1n by done. by split.
Qed.

Lemma exec_bounded r k :
  bounded k → bounded (λ s g, exec r s g k).
Proof.
  intros Hk u g y g1 He.
  apply exec_sound in He as (v & s' & g' & -> & _ & He).
  apply Hk in He. rewrite length_app. lia.
Qed.

Lemma exec_no_progress r k s g :
  bounded k → ∀ g1,
  exec r s g (λ s' g', if length s' <? length s then k s' g' else None)
  ≠ Some (s, g1).
Proof.
  intros Hk g1 He.
  apply exec_sound in He as (v & s' & g' & -> & _ & He).
  destruct (length s' <? length (v ++ s')) eqn:Hlt; [|done].
  apply Nat.ltb_lt in Hlt. apply Hk in He. lia.
Qed.

Lemma star_loop_bounded r k n :
  bounded k → bounded (star_loop (exec r) k n).
Proof.
  intros Hk. induction n as [|n IH]; intros u g y g1; simpl; [apply Hk|].
  destruct (exec r u g _) as [a|] eqn:He; [|apply Hk].
  intros [= ->]. revert He. apply (exec_bounded r).
  intros u' g' y' g1'. destruct (length u' <? _); [apply IH|done].
Qed.

Lemma star_loop_sim r k k' :
  (∀ k k', sim t k k' → sim t (λ s g, exec r s g k) (λ s g, exec r s g k')) →
  sim t k k' →
  ∀ m n x g, length (x ++ t) ≤ n → length x ≤ m →
    orel t (star_loop (exec r) k n (x ++ t) g) (star_loop (exec r) k' m x g).
Proof.
  intros IHr [Hb Hk] m. induction m as [|m IHm]; intros n x g Hn Hm.
  - destruct x; [|simpl in Hm; lia]. simpl.
    destruct n as [|n]; simpl; [apply (Hk [])|].
    destruct (exec r t g _) as [[y g1]|] eqn:He; [|apply (Hk [])].
    split; [|done]. intros g2 [= -> ->]. exfalso.
    revert He. apply (exec_no_progress r (star_loop (exec r) k n)).
    by apply star_loop_bounded.
  - destruct n as [|n].
    + destruct x; [|simpl in Hn; lia]. simpl in *.
      destruct (exec r [] g _) as [a|] eqn:He; [|apply (Hk [])].
      apply exec_sound in He as (? & ? & ? & _ & _ & He). done.
    + simpl. apply orel_first; [|apply Hk].
      apply (IHr (λ s' g', if length s' <? length (x ++ t)
                           then star_loop (exec r) k n s' g' else None)
                 (λ s' g', if length s' <? length x
                           then star_loop (exec r) k' m s' g' else None)).
      split.
      * intros u g' y g1. destruct (length u <? _); [|done].
        by apply star_loop_bounded.
      * intros x2 g2. rewrite !length_app.
        destruct (length x2 <? length x) eqn:Hlt.
        -- apply Nat.ltb_lt in Hlt.
           replace (length x2 + length t <? length x + length t) with true
             by (symmetry; apply Nat.ltb_lt; lia).
           apply IHm; rewrite ?length_app in *; lia.
        -- apply Nat.ltb_ge in Hlt.
           replace (length x2 + length t <? length x + length t) with false
             by (symmetry; apply Nat.ltb_ge; lia).
           by split.
Qed.

Lemma exec_sim r : ∀ k k',
  sim t k k' → sim t (λ s g, exec r s g k) (λ s g, exec r s g k').
Proof.
  induction r as [|p|r1 IH1 r2 IH2|r1 IH1 r2 IH2|r IH|name r IH];
    intros k k' Hsim; (split; [apply exec_bounded, Hsim|]);
    destruct Hsim as [Hb Hk]; intros x g; simpl.
  - apply Hk.
  - destruct x as [|c x]; simpl.
    + split; [|done]. intros g1. destruct t as [|c t'] eqn:Ht; [done|].
      destruct (p c); [|done]. intros He. apply Hb in He. simpl in He. lia.
    + destruct (p c); [apply Hk|by split].
  - apply (IH1 (λ s' g', exec r2 s' g' k) (λ s' g', exec r2 s' g' k')).
    by apply IH2.
  - apply orel_first; [by apply IH1|by apply IH2].
  - apply star_loop_sim; [done..|lia].
  - apply (IH (λ s' g', k s' ((name, take (length (x ++ t) - length s') (x ++ t)) :: g'))
              (λ s' g', k' s' ((name, take (length x - length s') x) :: g'))).
    split.
    + intros u g' y g1. apply Hb.
    + intros x2 g2. rewrite !length_app.
      replace (length x + length t - (length x2 + length t))
        with (length x - length x2) by lia.
      rewrite take_app_le by lia. apply Hk.
Qed.

Lemma match_here_prefix r v g :
  match_here r (v ++ t) = Some (t, g) → match_here r v = Some ([], g).
Proof.
  unfold match_here. apply (exec_sim r accept accept). split.
  - intros u g0 y g1 [= -> ->]. done.
  - intros x g0. split; [|done]. intros g1 [= Hx ->].
    apply (f_equal length) in Hx. rewrite length_app in Hx.
    destruct x; [done|simpl in Hx; lia].
Qed.

End truncation.

(** *** The lexer *)

Lemma take_matched (v rest : list ascii) :
  take (length (v ++ rest) - length rest) (v ++ rest) = v.
Proof. by rewrite length_app, Nat.add_sub, take_app_length. Qed.

Lemma exec_Grp_accept name r s :
  exec (Grp name r) s [] accept
  = (λ a, (a.1, (name, take (length s - length a.1) s) :: a.2)) <$> match_here r s.
Proof. unfold match_here. rewrite <- exec_fmap. done. Qed.

(** A match of the joined pattern is the match of its first alternative that
    matches, closed by that alternative's named group. *)
Lemma join_alternatives_match spec : ∀ s rest g,
  match_here (join_alternatives spec) s = Some (rest, g) →
  ∃ n r g0, (n, r) ∈ spec ∧ match_here r s = Some (rest, g0) ∧
            g = (Some n, take (length s - length rest) s) :: g0.
Proof.
  induction spec as [|[n r] spec IH]; intros s rest g; [by destruct s|].
  assert (Hhead : exec (Grp (Some n) r) s [] accept = Some (rest, g) →
    ∃ n' r' g0, (n', r') ∈ (n, r) :: spec ∧ match_here r' s = Some (rest, g0) ∧
                g = (Some n', take (length s - length rest) s) :: g0).
  { intros Ha. rewrite exec_Grp_accept in Ha.
    destruct (match_here r s) as [[rest' g0]|] eqn:Hr; [|done].
    simpl in Ha. injection Ha as -> <-.
    exists n, r, g0. split_and!; [left|done..]. }
  destruct spec as [|p spec].
  - apply Hhead.
  - change (join_alternatives ((n, r) :: p :: spec))
      with (Alt (Grp (Some n) r) (join_alternatives (p :: spec))).
    unfold match_here.
    change (exec (Alt ?a ?b) s [] accept)
      with (match exec a s [] accept with
            | Some x => Some x
            | None => exec b s [] accept
            end).
    destruct (exec (Grp (Some n) r) s [] accept) as [a|] eqn:Ha.
    + intros Hm. by apply Hhead.
    + intros Hm. apply IH in Hm as (n' & r' & g0 & Hin & ? & ?).
      exists n', r', g0. split_and!; [by right|done..].
Qed.

Lemma match_at_kind s v n :
  match_at s = Some (v, Some n) →
  ∃ r g, (n, r) ∈ token_spec ∧ match_here r v = Some ([], g).
Proof.
  unfold match_at. destruct (match_here TOKEN_REGEX s) as [[rest g]|] eqn:Hm; [|done].
  intros [= <- Hlg].
  pose proof Hm as Hs. apply exec_sound in Hs as (v & ? & ? & -> & _ & [= <- <-]).
  rewrite take_matched.
  apply join_alternatives_match in Hm as (n' & r & g0 & Hin & Hr & ->).
  simpl in Hlg. injection Hlg as ->.
  exists r, g0. split; [done|]. by apply match_here_prefix in Hr.
Qed.

Lemma match_at_FUNCSTART s v :
  match_at s = Some (v, Some "FUNCSTART") →
  ∃ g, match_here FUNCSTART_re v = Some ([], g).
Proof.
  intros (r & g & Hin & Hr)%match_at_kind.
  assert (r = FUNCSTART_re) as ->; [|by exists g].
  unfold token_spec in Hin.
  repeat (apply elem_of_cons in Hin as [Heq|Hin]; [by simplify_eq|]).
  by apply elem_of_nil in Hin.
Qed.

Lemma length_string_of_list_ascii v :
  String.length (string_of_list_ascii v) = length v.
Proof. induction v; simpl; congruence. Qed.

Lemma finditer_from_elem mo : ∀ s pos skip,
  mo ∈ finditer_from pos skip s →
  ∃ s' v, match_at s' = Some (v, mo_lastgroup mo) ∧
          mo_group mo = string_of_list_ascii v.
Proof.
  induction s as [|c s IH]; intros pos skip; simpl; [by intros ?%elem_of_nil|].
  destruct skip as [|n]; [|apply IH].
  destruct (match_at (c :: s)) as [[v lg]|] eqn:Hm; [|apply IH].
  intros [->|Hin]%elem_of_cons; [|by apply IH in Hin].
  by exists (c :: s), v.
Qed.

(** The texts the lexer classifies as [IGNORE]: two slashes, one character
    that is not a newline, and the letter [r]. *)
Lemma IGNORE_four_characters data mo :
  mo ∈ finditer data → has_kind "IGNORE" mo → String.length (mo_group mo) = 4.
Proof.
  intros Hin Hk. apply finditer_from_elem in Hin as (s & v & Hm & ->).
  rewrite Hk in Hm. apply match_at_kind in Hm as (r & g & Hin & Hr).
  assert (r = IGNORE_re) as ->.
  { unfold token_spec in Hin.
    repeat (apply elem_of_cons in Hin as [Heq|Hin]; [by simplify_eq|]).
    by apply elem_of_nil in Hin. }
  apply exec_sound in Hr as (v' & ? & ? & Hv' & Hs & [= -> ->]).
  rewrite app_nil_r in Hv'. subst v'. rewrite length_string_of_list_ascii.
  unfold IGNORE_re in Hs. cbn [cat foldr] in Hs.
  repeat match goal with
  | H : matches (Seq _ _) _ _ _ |- _ => invert H
  | H : matches Eps _ _ _ |- _ => invert H
  | H : matches (Chr (none_of _)) _ _ _ |- _ => invert H
  | H : matches (lit _) _ _ _ |- _ => apply matches_Lit in H as [-> ->]
  end.
  done.
Qed.

(** The shape of a text the declaration-head pattern consumes: the name
    group holds at least one character, and the text has an opening brace. *)
Lemma matches_FUNCSTART v g :
  matches FUNCSTART_re v [] g →
  (∃ name, group "funcname" g = Some name ∧ name ≠ []) ∧ "{"%char ∈ v.
Proof.
  unfold FUNCSTART_re. cbn [cat foldr]. intros H.
  repeat match goal with
  | H : matches (Seq _ _) _ _ _ |- _ => invert H
  | H : matches Eps _ _ _ |- _ => invert H
  | H : matches (Grp (Some _) _) _ _ _ |- _ => invert H
  | H : matches (Grp None (Seq _ _)) _ _ _ |- _ => invert H
  | H : matches IDENTIFIER_STR _ _ _ |- _ => unfold IDENTIFIER_STR in H
  | H : matches (Chr id_start) _ _ _ |- _ => invert H
  | H : matches (lit _) _ _ _ |- _ => apply matches_Lit in H as [-> ->]
  | H : matches (Star (Chr _)) _ _ _ |- _ =>
      apply matches_groupless in H as ->; [|done]
  end.
  split.
  - exists ([c] ++ v8). done.
  - rewrite !elem_of_app. do 5 right. left. right. left. simpl. left.
Qed.

Lemma existsb_elem_of (c : ascii) (l : list ascii) :
  c ∈ l → existsb (Ascii.eqb c) l = true.
Proof.
  intros Hin. apply existsb_exists. exists c. split.
  - by apply list_elem_of_In.
  - apply Ascii.eqb_refl.
Qed.

(** What [FuncStartState.do] and [ReadFunc.do] rely on, for every match the
    lexer classifies as [FUNCSTART]. *)
Lemma FUNCSTART_rematch data mo :
  mo ∈ finditer data → mo_lastgroup mo = Some "FUNCSTART" →
  ∃ name, match_funcname (mo_group mo) = Some name ∧ name ≠ "" ∧
          contains_open_brace (mo_group mo) = true.
Proof.
  intros Hin Hlg. apply finditer_from_elem in Hin as (s & v & Hm & Hv).
  rewrite Hlg in Hm. apply match_at_FUNCSTART in Hm as [g Hm].
  pose proof Hm as Hs.
  apply exec_sound in Hs as (v' & ? & ? & Hv' & Hs & [= -> ->]).
  rewrite app_nil_r in Hv'. subst v'.
  apply matches_FUNCSTART in Hs as [(name & Hg & Hne) Hbrace].
  unfold match_funcname, contains_open_brace.
  rewrite Hv, list_ascii_of_string_of_list_ascii, Hm, Hg.
  exists (string_of_list_ascii name). split_and!; [done| |].
  - destruct name; [done|]. simpl. done.
  - by apply existsb_elem_of.
Qed.

(** *** Single calls of [do] *)

Section steps_facts.
Variable fs : files.

Lemma steps_S n st c :
  steps fs (S n) st c =
  match do fs st c with
  | Next st' c' => steps fs n st' c'
  | r => r
  end.
Proof. done. Qed.

Lemma steps_add n m st c :
  steps fs (n + m) st c =
  match steps fs n st c with
  | Next st' c' => steps fs m st' c'
  | r => r
  end.
Proof.
  revert st c. induction n as [|n IH]; intros st c; simpl; [done|].
  destruct (do fs st c); [apply IH|done..].
Qed.

Lemma steps_run n m st c st' c' :
  steps fs n st c = Next st' c' →
  Context_run fs (n + m) st c = Context_run fs m st' c'.
Proof.
  revert st c. induction n as [|n IH]; intros st c; simpl.
  - by intros [= -> ->].
  - destruct (do fs st c); [apply IH|done..].
Qed.

Lemma Context_run_mono n m st c r :
  Context_run fs n st c = Some r → n ≤ m → Context_run fs m st c = Some r.
Proof.
  revert m st c. induction n as [|n IH]; intros m st c; simpl; [done|].
  intros Hr Hm. destruct m as [|m]; [lia|]. simpl.
  destruct (do fs st c); [apply IH; [done|lia]|done..].
Qed.

Lemma get_next_token_cons c mo rest :
  tok_itr c = Some (mo :: rest) →
  ∃ tok c1, get_next_token c = inr (tok, c1) ∧ token_of mo tok ∧
    tok_itr c1 = Some rest ∧ path c1 = path c ∧ funcs c1 = funcs c ∧
    token c1 = token c ∧ curr_func_name c1 = curr_func_name c ∧
    curr_func_ids c1 = curr_func_ids c ∧ paren_level c1 = paren_level c ∧
    printed c1 = printed c.
Proof.
  intros Hit. unfold get_next_token. rewrite Hit. simpl.
  destruct (decide (mo_lastgroup mo = Some "NEWLINE"));
    eexists _, _; (split; [reflexivity|]); done.
Qed.

Lemma ReadFunc_step c mo rest ids d :
  tok_itr c = Some (mo :: rest) →
  curr_func_ids c = Some ids → paren_level c = Some d →
  (has_kind "FUNCSTART" mo → is_Some (match_funcname (mo_group mo))) →
  ∃ c', do fs ReadFunc c
        = Next (if decide (closes d mo) then EndFunc else ReadFunc) c' ∧
    tok_itr c' = Some rest ∧ path c' = path c ∧ funcs c' = funcs c ∧
    curr_func_name c' = curr_func_name c ∧
    curr_func_ids c' = Some (ids ∪ ident_of mo) ∧
    paren_level c' = Some (d + delta mo)%Z ∧
    printed c' = printed c ++ notice_of (path c) mo ∧
    (∃ tok, token c' = Some tok ∧ token_of mo tok).
Proof.
  intros Hit Hids Hd Hwf.
  destruct (get_next_token_cons c mo rest Hit)
    as (tok & c1 & Hg & [Hk Hv] & Hit1 & Hp1 & Hf1 & _ & Hn1 & Hi1 & Hl1 & Hpr1).
  unfold do. rewrite Hg. cbn beta iota zeta.
  unfold ident_of, delta, notice_of, closes, has_kind in *.
  rewrite Hk, Hv.
  destruct (decide (mo_lastgroup mo = Some "FUNCSTART")) as [HF|HF].
  { destruct (Hwf HF) as [name Hname]. rewrite Hname.
    rewrite decide_False by (intros [? _]; congruence).
    rewrite !decide_False by congruence.
    eexists. split; [reflexivity|]. simpl.
    rewrite Hit1, Hp1, Hf1, Hn1, Hi1, Hl1, Hpr1, Hids, Hd, Z.add_0_r.
    rewrite (right_id_L ∅ (∪)). split_and!; try done. by eexists. }
  destruct (decide (mo_lastgroup mo = Some "IDENTIFIER")) as [HI|HI].
  { rewrite decide_False by (intros [? _]; congruence).
    rewrite !decide_False by congruence.
    simpl. rewrite Hi1, Hids.
    eexists. split; [reflexivity|]. simpl.
    rewrite Hit1, Hp1, Hf1, Hn1, Hl1, Hpr1, Hd, Z.add_0_r, app_nil_r.
    split_and!; try done. by eexists. }
  destruct (decide (mo_lastgroup mo = Some "OPEN_PAREN")) as [HO|HO].
  { rewrite decide_False by (intros [? _]; congruence).
    simpl. rewrite Hl1, Hd.
    eexists. split; [reflexivity|]. simpl.
    rewrite Hit1, Hp1, Hf1, Hn1, Hi1, Hpr1, Hids, app_nil_r.
    rewrite (right_id_L ∅ (∪)). split_and!; try done. by eexists. }
  destruct (decide (mo_lastgroup mo = Some "CLOSE_PAREN")) as [HC|HC].
  { simpl. rewrite Hl1, Hd.
    destruct (decide (d - 1 = 0)%Z) as [Hz|Hz].
    - rewrite decide_True by done.
      eexists. split; [reflexivity|]. simpl.
      rewrite Hit1, Hp1, Hf1, Hn1, Hi1, Hpr1, Hids, app_nil_r.
      rewrite (right_id_L ∅ (∪)). split_and!; try done. by eexists.
    - rewrite decide_False by (intros [_ ?]; done).
      eexists. split; [reflexivity|]. simpl.
      rewrite Hit1, Hp1, Hf1, Hn1, Hi1, Hpr1, Hids, app_nil_r.
      rewrite (right_id_L ∅ (∪)). split_and!; try done. by eexists. }
  rewrite decide_False by (intros [? _]; done).
  eexists. split; [reflexivity|]. simpl.
  rewrite Hit1, Hp1, Hf1, Hn1, Hi1, Hl1, Hpr1, Hids, Hd, Z.add_0_r, app_nil_r.
  rewrite (right_id_L ∅ (∪)). split_and!; try done. by eexists.
Qed.

Lemma ReadFunc_steps toks : ∀ c rest ids d,
  tok_itr c = Some (toks ++ rest) →
  curr_func_ids c = Some ids → paren_level c = Some d →
  tokens_ok toks → stays_open d toks = true →
  ∃ c', steps fs (length toks) ReadFunc c = Next ReadFunc c' ∧
    tok_itr c' = Some rest ∧ path c' = path c ∧ funcs c' = funcs c ∧
    curr_func_name c' = curr_func_name c ∧
    curr_func_ids c' = Some (ids ∪ idents toks) ∧
    paren_level c' = Some (depth_after d toks) ∧
    printed c' = printed c ++ notices (path c) toks ∧
    last_token toks (token c) (token c').
Proof.
  induction toks as [|mo toks IH]; intros c rest ids d Hit Hids Hd Hok Hopen.
  - exists c. unfold idents, notices, last_token. simpl.
    rewrite (right_id_L ∅ (∪)), app_nil_r. done.
  - simpl in Hopen. destruct (decide (closes d mo)) as [|Hnc]; [done|].
    apply Forall_cons in Hok as [Hmo Hok].
    destruct (ReadFunc_step c mo (toks ++ rest) ids d Hit Hids Hd Hmo)
      as (c1 & Hdo & Hit1 & Hp1 & Hf1 & Hn1 & Hi1 & Hl1 & Hpr1 & tok & Ht1 & Htok).
    rewrite decide_False in Hdo by done.
    destruct (IH c1 rest _ _ Hit1 Hi1 Hl1 Hok Hopen)
      as (c' & Hst & Hit' & Hp' & Hf' & Hn' & Hi' & Hl' & Hpr' & Hlast).
    exists c'. cbn [length]. rewrite steps_S, Hdo, Hst.
    rewrite Hit', Hp', Hf', Hn', Hi', Hl', Hpr', Hp1, Hf1, Hn1, Hpr1.
    unfold idents, notices. simpl.
    rewrite (assoc_L (∪)), (assoc_L (++)). split_and!; try done.
    unfold last_token in *. rewrite last_cons.
    destruct (last toks); [done|]. exists tok. by rewrite Hlast.
Qed.

(** At top level every token but a declaration head is passed over. *)
Lemma GetNextToken_steps toks : ∀ c rest,
  tok_itr c = Some (toks ++ rest) →
  headless toks →
  ∃ c', steps fs (length toks) GetNextToken c = Next GetNextToken c' ∧
    tok_itr c' = Some rest ∧ path c' = path c ∧ funcs c' = funcs c ∧
    curr_func_name c' = curr_func_name c ∧
    curr_func_ids c' = curr_func_ids c ∧
    paren_level c' = paren_level c ∧
    printed c' = printed c ∧
    last_token toks (token c) (token c').
Proof.
  induction toks as [|mo toks IH]; intros c rest Hit Hno.
  - by exists c.
  - apply Forall_cons in Hno as [Hmo Hno].
    destruct (get_next_token_cons c mo (toks ++ rest) Hit)
      as (tok & c1 & Hg & [Hk Hv] & Hit1 & Hp1 & Hf1 & _ & Hn1 & Hi1 & Hl1 & Hpr1).
    destruct (IH (set_token tok c1) rest Hit1 Hno)
      as (c' & Hst & Hit' & Hp' & Hf' & Hn' & Hi' & Hl' & Hpr' & Hlast).
    exists c'. cbn [length]. rewrite steps_S. unfold do at 1.
    rewrite Hg. cbn beta iota zeta.
    rewrite decide_False by (unfold has_kind in Hmo; congruence).
    rewrite Hst, Hit', Hp', Hf', Hn', Hi', Hl', Hpr'. simpl.
    split_and!; try done.
    unfold last_token in *. rewrite last_cons.
    destruct (last toks); [done|]. exists tok. by rewrite Hlast.
Qed.

Lemma Context_run_det n m st c r r' :
  Context_run fs n st c = Some r → Context_run fs m st c = Some r' → r = r'.
Proof.
  intros Hn Hm.
  apply (Context_run_mono _ (n `max` m)) in Hn; [|lia].
  apply (Context_run_mono _ (n `max` m)) in Hm; [|lia].
  congruence.
Qed.

(** The loop of [Context.run] ends: within [weight] calls and two per
    token. *)
Lemma Context_run_total n : ∀ st c,
  st ≠ Start → st ≠ ReadData →
  2 * length (default [] (tok_itr c)) + weight st ≤ n →
  is_Some (Context_run fs n st c).
Proof.
  induction n as [|n IH]; intros st c H1 H2 Hn.
  { destruct st; simpl in Hn; lia. }
  destruct c as [p f ln ls it tk cn ci pl pr].
  assert (Hgo : ∀ st' c', st' ≠ Start → st' ≠ ReadData →
    2 * length (default [] (tok_itr c')) + weight st' ≤ n →
    is_Some (Context_run fs n st' c')) by (intros; by apply IH).
  clear IH.
  destruct st; try done; simpl in Hn |- *.
  - destruct it as [[|mo rest]|]; simpl in Hn |- *.
    + apply Hgo; simpl; try done; lia.
    + unfold get_next_token; simpl.
      repeat case_decide; simpl; apply Hgo; simpl; try done; lia.
    + by eexists.
  - destruct tk as [tok|]; simpl; [|by eexists].
    destruct (match_funcname _); [|by eexists].
    apply Hgo; simpl; try done; lia.
  - destruct it as [[|mo rest]|]; simpl in Hn |- *; [by eexists| |by eexists].
    unfold get_next_token; simpl.
    repeat case_decide; simpl; repeat case_match; simplify_eq/=;
      first [by eexists | apply Hgo; simpl; try done; lia].
  - destruct cn, ci; simpl; try by eexists.
    apply Hgo; simpl; try done; lia.
Qed.

Lemma length_finditer_from s : ∀ pos skip,
  length (finditer_from pos skip s) ≤ length s.
Proof.
  induction s as [|c s IH]; intros pos skip; simpl; [done|].
  destruct skip; [|specialize (IH (S pos) skip); lia].
  destruct (match_at _) as [[v lg]|]; simpl.
  - specialize (IH (S pos) (length v - 1)). lia.
  - specialize (IH (S pos) 0). lia.
Qed.

Lemma length_list_ascii_of_string s :
  length (list_ascii_of_string s) = String.length s.
Proof. induction s; simpl; congruence. Qed.

Lemma FileContext_run_total p : is_Some (FileContext_run fs p).
Proof.
  unfold FileContext_run, run_budget.
  destruct (fs p) as [data|] eqn:Hfs.
  - replace (2 * String.length data + 4) with (2 + (2 * String.length data + 2)) by lia.
    simpl Context_run. rewrite Hfs.
    apply fmap_is_Some, Context_run_total; [done..|]. simpl.
    unfold finditer.
    pose proof (length_finditer_from (list_ascii_of_string data) 0 0) as Hlen.
    rewrite length_list_ascii_of_string in Hlen. lia.
  - simpl. rewrite Hfs. by eexists.
Qed.

End steps_facts.

(** *** The states a scan goes through *)

Lemma tokens_ok_finditer data pre toks :
  finditer data = pre ++ toks → tokens_ok toks.
Proof.
  intros Hd. apply Forall_forall. intros mo Hin Hk.
  destruct (FUNCSTART_rematch data mo) as (name & -> & _); [|done|done].
  rewrite Hd. apply elem_of_app. by right.
Qed.

Lemma delta_open d mo : (1 ≤ d)%Z → ¬ closes d mo → (1 ≤ d + delta mo)%Z.
Proof.
  intros Hd Hnc. unfold closes, delta in *.
  destruct (decide (has_kind "OPEN_PAREN" mo)); [lia|].
  destruct (decide (has_kind "CLOSE_PAREN" mo)); [|lia].
  destruct (decide (d - 1 = 0)%Z); [by destruct Hnc|lia].
Qed.

Section scan_facts.
Variable fs : files.
Variables p data : string.
Hypothesis Hfs : fs p = Some data.

Lemma scan_inv_do st c st' c' :
  scan_inv p data st c → do fs st c = Next st' c' → scan_inv p data st' c'.
Proof.
  intros [Hp Hinv]. destruct st; simpl.
  - intros [= <- <-]. done.
  - rewrite Hp, Hfs. intros [= <- <-]. split; [done|].
    exists [], (finditer data). done.
  - destruct Hinv as (pre & toks & Hd & Hit & Hlast & _).
    destruct toks as [|mo rest].
    { unfold get_next_token. rewrite Hit. intros [= <- <-]. done. }
    destruct (get_next_token_cons c mo rest Hit)
      as (tok & c1 & -> & Htok & Hit1 & Hp1 & _).
    assert (Hnew : ∃ pre' toks', finditer data = pre' ++ toks' ∧
        tok_itr (set_token tok c1) = Some toks' ∧
        last_token pre' None (token (set_token tok c1)) ∧
        last pre' = Some mo).
    { exists (pre ++ [mo]), rest. rewrite <- (assoc_L (++)).
      unfold last_token. rewrite last_snoc. split_and!; try done.
      by exists tok. }
    destruct Hnew as (pre' & toks' & ? & ? & ? & ?).
    case_decide as Hk; intros [= <- <-]; (split; [simpl; by rewrite Hp1|]);
      exists pre', toks'; split_and!; try done.
    exists mo. split; [done|]. unfold has_kind. destruct Htok as [<- _]. done.
  - destruct Hinv as (pre & toks & Hd & Hit & Hlast & mo & Hmo & Hk).
    destruct (token c) as [tok|] eqn:Htok; [|done].
    destruct (match_funcname _); [|done]. intros [= <- <-].
    split; [done|]. exists pre, toks. simpl. rewrite Htok.
    split_and!; try done; [|by destruct pre].
    unfold last_token in Hlast. rewrite Hmo in Hlast.
    destruct Hlast as (tok' & [= <-] & _ & ->).
    destruct (FUNCSTART_rematch data mo) as (_ & _ & _ & ->); [|done|by exists 1%Z].
    rewrite Hd. apply elem_of_app. left.
    destruct pre as [|x pre _] using rev_ind; [done|].
    rewrite last_snoc in Hmo. injection Hmo as ->.
    apply elem_of_app. right. left.
  - destruct Hinv as (pre & toks & Hd & Hit & Hlast & Hn & [ids Hi] & (d & Hl & Hge) & Hpre).
    destruct toks as [|mo rest].
    { unfold get_next_token. rewrite Hit. done. }
    pose proof (tokens_ok_finditer _ _ _ Hd) as [Hmo _]%Forall_cons.
    destruct (ReadFunc_step fs c mo rest ids d Hit Hi Hl Hmo)
      as (c1 & Hdo & Hit1 & Hp1 & Hf1 & Hn1 & Hi1 & Hl1 & Hpr1 & tok & Ht1 & Htok).
    change (do fs ReadFunc c = Next st' c' → scan_inv p data st' c').
    rewrite Hdo. intros [= <- <-]. split; [by rewrite Hp1|].
    assert (∃ pre' toks', finditer data = pre' ++ toks' ∧
        tok_itr c1 = Some toks' ∧ last_token pre' None (token c1) ∧
        (is_Some (curr_func_name c1) ∧ is_Some (curr_func_ids c1) ∧
         is_Some (paren_level c1) ∧ pre' ≠ []) ∧
        (¬ closes d mo → ∃ d', paren_level c1 = Some d' ∧ (1 ≤ d')%Z))
      as (pre' & toks' & ? & ? & ? & (? & ? & ? & ?) & Hopen).
    { exists (pre ++ [mo]), rest. rewrite <- (assoc_L (++)).
      unfold last_token. rewrite last_snoc, Hn1, Hi1, Hl1.
      split_and!; try done; [by exists tok|by destruct pre|].
      intros Hnc. eexists. split; [done|]. by apply delta_open. }
    destruct (decide (closes d mo)); exists pre', toks'; split_and!; auto.
  - destruct Hinv as (pre & toks & Hd & Hit & Hlast & [n Hn] & [ids Hi] & _).
    rewrite Hn, Hi. intros [= <- <-]. split; [done|].
    exists pre, toks. done.
  - done.
  - done.
Qed.

Lemma scan_inv_steps n : ∀ st c st' c',
  scan_inv p data st c → steps fs n st c = Next st' c' → scan_inv p data st' c'.
Proof.
  induction n as [|n IH]; intros st c st' c' Hinv; simpl.
  - by intros [= <- <-].
  - destruct (do fs st c) as [st1 c1| |] eqn:Hdo; [|done..].
    apply IH. by apply (scan_inv_do st c).
Qed.

Lemma scan_inv_start : scan_inv p data Start (new_FileContext p).
Proof. done. Qed.

(** Every state [ReadFunc] of a scan: the current function has a name and an
    identifier set, the brace depth is at least 1, and every declaration
    head still to be read yields its name. *)
Lemma ReadFunc_state n c :
  steps fs n Start (new_FileContext p) = Next ReadFunc c →
  ∃ name ids d toks,
    curr_func_name c = Some name ∧ curr_func_ids c = Some ids ∧
    paren_level c = Some d ∧ (1 ≤ d)%Z ∧
    tok_itr c = Some toks ∧ tokens_ok toks.
Proof.
  intros Hsteps.
  pose proof (scan_inv_steps n _ _ _ _ scan_inv_start Hsteps)
    as (_ & pre & toks & Hdata & Hit & _ & [name ?] & [ids ?] & (d & ? & ?) & _).
  exists name, ids, d, toks. split_and!; try done.
  by eapply tokens_ok_finditer.
Qed.

End scan_facts.

(** ** The scan of one file *)


Lemma stays_open_shift toks : ∀ d0 d,
  (1 ≤ d0 ≤ d)%Z → stays_open d0 toks = true →
  stays_open d toks = true ∧
  depth_after d toks = (depth_after d0 toks + (d - d0))%Z.
Proof.
  induction toks as [|mo toks IH]; intros d0 d Hd; simpl.
  - intros _. split; [done|]. unfold depth_after. simpl. lia.
  - destruct (decide (closes d0 mo)) as [|Hn0]; [done|]. intros Hopen.
    assert (1 ≤ d0 + delta mo)%Z as Hge by (apply delta_open; [lia|done]).
    destruct (IH (d0 + delta mo)%Z (d + delta mo)%Z) as [Ho Hd']; [lia|done|].
    rewrite decide_False.
    + split; [done|]. unfold depth_after in *. simpl. rewrite Hd'. lia.
    + intros [Hc Hz]. apply Hn0. split; [done|].
      unfold delta in Hge. rewrite decide_False, decide_True in Hge; [lia|done|].
      unfold has_kind in *. congruence.
Qed.

Lemma headless_tokens_ok toks : headless toks → tokens_ok toks.
Proof. intros H. eapply Forall_impl; [exact H|]. intros mo Hno Hk. done. Qed.

Lemma headless_notices p toks : headless toks → notices p toks = [].
Proof.
  induction 1 as [|mo toks Hmo _ IH]; [done|].
  change (notices p (mo :: toks)) with (notice_of p mo ++ notices p toks).
  unfold notice_of. by rewrite decide_False, IH.
Qed.

(** The nested declaration: its head, a body without further heads, its
    closing brace; read inside a body at depth [d]. *)
Lemma nested_function_steps fs c head body close rest inner ids d :
  tok_itr c = Some (head :: body ++ close :: rest) →
  curr_func_ids c = Some ids → paren_level c = Some d → (1 ≤ d)%Z →
  has_kind "FUNCSTART" head → match_funcname (mo_group head) = Some inner →
  headless body → balanced body → has_kind "CLOSE_PAREN" close →
  (∃ c1, do fs ReadFunc c = Next ReadFunc c1 ∧ paren_level c1 = Some d) ∧
  ∃ c', steps fs (length body + 2) ReadFunc c
        = Next (if decide (d = 1)%Z then EndFunc else ReadFunc) c' ∧
    tok_itr c' = Some rest ∧ path c' = path c ∧ funcs c' = funcs c ∧
    curr_func_name c' = curr_func_name c ∧
    curr_func_ids c' = Some (ids ∪ idents body) ∧
    paren_level c' = Some (d - 1)%Z ∧
    printed c' = printed c ++ [nested_notice inner (path c)].
Proof.
  intros Hit Hids Hd Hge Hhead Hinner Hbody [Hopen Hbal] Hclose.
  assert (Hnc : ∀ d', ¬ closes d' head).
  { intros d' [Hc _]. unfold has_kind in *. congruence. }
  assert (Hδ : delta head = 0%Z).
  { unfold delta, has_kind in *. rewrite !decide_False; [done|congruence..]. }
  assert (Hi0 : ident_of head = ∅).
  { unfold ident_of, has_kind in *. rewrite decide_False; [done|congruence]. }
  destruct (ReadFunc_step fs c head (body ++ close :: rest) ids d Hit Hids Hd)
    as (c1 & Hdo & Hit1 & Hp1 & Hf1 & Hn1 & Hi1 & Hl1 & Hpr1 & _);
    [by rewrite Hinner|].
  rewrite decide_False, ?Hδ, ?Hi0, ?Z.add_0_r in * by done.
  rewrite (right_id_L ∅ (∪)) in Hi1.
  unfold notice_of in Hpr1. rewrite decide_True, Hinner in Hpr1 by done.
  split; [by exists c1|].
  destruct (stays_open_shift body 1 d) as [Hopen' Hdepth]; [lia|done|].
  destruct (ReadFunc_steps fs body c1 (close :: rest) ids d)
    as (c2 & Hst & Hit2 & Hp2 & Hf2 & Hn2 & Hi2 & Hl2 & Hpr2 & _);
    [done|done|done|by apply headless_tokens_ok|done|].
  rewrite Hdepth, Hbal, headless_notices, app_nil_r in * by done.
  replace (1 + (d - 1))%Z with d in Hl2 by lia.
  destruct (ReadFunc_step fs c2 close rest (ids ∪ idents body) d Hit2 Hi2 Hl2)
    as (c3 & Hdo3 & Hit3 & Hp3 & Hf3 & Hn3 & Hi3 & Hl3 & Hpr3 & _).
  { intros Hk. unfold has_kind in *. congruence. }
  assert (delta close = (-1)%Z) as Hδc.
  { unfold delta, has_kind in *. rewrite decide_False, decide_True; [done..|congruence]. }
  assert (ident_of close = ∅) as Hic.
  { unfold ident_of, has_kind in *. rewrite decide_False; [done|congruence]. }
  assert (notice_of (path c2) close = []) as Hnc3.
  { unfold notice_of, has_kind in *. rewrite decide_False; [done|congruence]. }
  exists c3.
  replace (length body + 2) with (1 + (length body + 1)) by lia.
  rewrite (steps_add fs 1), steps_S, Hdo. cbn [steps].
  rewrite steps_add, Hst, steps_S, Hdo3. cbn [steps].
  rewrite Hit3, Hp3, Hf3, Hn3, Hi3, Hl3, Hpr3, Hδc, Hic, Hnc3, app_nil_r.
  rewrite (right_id_L ∅ (∪)), Hp2, Hf2, Hn2, Hpr2, Hp1, Hf1, Hn1, Hpr1.
  split_and!; try done.
  unfold closes. destruct (decide (d = 1)%Z) as [->|].
  - by rewrite decide_True.
  - rewrite decide_False; [done|]. intros [_ ?]. lia.
Qed.

Lemma elem_of_idents x toks :
  x ∈ idents toks ↔ ∃ mo, mo ∈ toks ∧ has_kind "IDENTIFIER" mo ∧ mo_group mo = x.
Proof.
  unfold idents. rewrite elem_of_union_list. split.
  - intros (X & (mo & -> & Hin)%list_elem_of_fmap & Hx).
    unfold ident_of in Hx. case_decide; [|set_solver].
    exists mo. set_solver.
  - intros (mo & Hin & Hk & <-). exists (ident_of mo). split.
    + apply list_elem_of_fmap. by exists mo.
    + unfold ident_of. rewrite decide_True by done. set_solver.
Qed.

(** A declaration nested once.  When [ReadFunc] reads a declaration head
    inside a body, one notice naming the nested function and the file is
    printed, the file's table gets no entry while the nested declaration is
    read, and, provided the nested body holds no further declaration head,
    every identifier token of the nested body is in the identifier set of
    the enclosing function once the nested closing brace is read; what is
    committed then, if that brace ends the scan of the body, is the record
    of the enclosing function alone.  (The assumptions on the context hold
    in every state [ReadFunc] of a scan, see [ReadFunc_state].) *)
Theorem nested_declaration_attributed fs c head body close rest inner name ids d :
  tok_itr c = Some (head :: body ++ close :: rest) →
  curr_func_name c = Some name →
  curr_func_ids c = Some ids → paren_level c = Some d → (1 ≤ d)%Z →
  has_kind "FUNCSTART" head → match_funcname (mo_group head) = Some inner →
  headless body → balanced body → has_kind "CLOSE_PAREN" close →
  ∃ c' ids',
    steps fs (length body + 2) ReadFunc c
    = Next (if decide (d = 1)%Z then EndFunc else ReadFunc) c' ∧
    printed c' = printed c ++ [nested_notice inner (path c)] ∧
    funcs c' = funcs c ∧
    curr_func_name c' = Some name ∧
    curr_func_ids c' = Some ids' ∧ ids' = ids ∪ idents body ∧
    (∀ mo, mo ∈ body → has_kind "IDENTIFIER" mo → mo_group mo ∈ ids') ∧
    (d = 1%Z → ∃ c'', do fs EndFunc c' = Next GetNextToken c'' ∧
                      funcs c'' = <[name := ids']> (funcs c)).
Proof.
  intros Hit Hname Hids Hd Hge Hhead Hinner Hbody Hbal Hclose.
  destruct (nested_function_steps fs c head body close rest inner ids d)
    as [_ (c' & Hst & Hit' & Hp' & Hf' & Hn' & Hi' & Hl' & Hpr')]; try done.
  exists c', (ids ∪ idents body). split_and!; try done.
  - by rewrite Hn'.
  - intros mo Hin Hk. apply elem_of_union. right.
    apply elem_of_idents. by exists mo.
  - intros _. simpl. rewrite Hn', Hname, Hi'. eexists. split; [done|].
    simpl. by rewrite Hf'.
Qed.

(** C9, amended.  In every state [ReadFunc] of a scan, a declaration head
    read there leaves the brace depth [d] as it is, although its text holds
    the opening brace of the nested body, and changes neither the table nor
    the current function.  When the nested body is brace-balanced and holds
    no further head: at depth 1 (the nested declaration stands directly in
    the enclosing body) its closing brace takes the depth to 0 and the
    enclosing function is committed there, with the identifiers read so far,
    and the tokens after that brace up to the next declaration head are
    read at top level and change no record; at a depth above 1 (the nested
    declaration stands in an inner block) its closing brace takes the depth
    to [d - 1], nothing is committed, and the identifiers that follow while
    the body stays open are recorded for the enclosing function. *)
Theorem nested_head_brace_uncounted fs p data n c head toks :
  fs p = Some data →
  steps fs n Start (new_FileContext p) = Next ReadFunc c →
  tok_itr c = Some (head :: toks) → has_kind "FUNCSTART" head →
  ∃ name ids d inner c1,
    curr_func_name c = Some name ∧ curr_func_ids c = Some ids ∧
    paren_level c = Some d ∧ (1 ≤ d)%Z ∧
    match_funcname (mo_group head) = Some inner ∧
    do fs ReadFunc c = Next ReadFunc c1 ∧
    paren_level c1 = Some d ∧ tok_itr c1 = Some toks ∧ funcs c1 = funcs c ∧
    curr_func_name c1 = Some name ∧ curr_func_ids c1 = Some ids ∧
    ∀ body close tail rest,
      toks = body ++ close :: tail ++ rest →
      headless body → balanced body → has_kind "CLOSE_PAREN" close →
      (d = 1%Z → headless tail →
         ∃ c2 c3,
           steps fs (length body + 3) ReadFunc c = Next GetNextToken c2 ∧
           funcs c2 = <[name := ids ∪ idents body]> (funcs c) ∧
           tok_itr c2 = Some (tail ++ rest) ∧
           steps fs (length tail) GetNextToken c2 = Next GetNextToken c3 ∧
           funcs c3 = funcs c2 ∧ tok_itr c3 = Some rest) ∧
      ((1 < d)%Z → stays_open (d - 1) tail = true →
         ∃ c2 c3,
           steps fs (length body + 2) ReadFunc c = Next ReadFunc c2 ∧
           paren_level c2 = Some (d - 1)%Z ∧ funcs c2 = funcs c ∧
           curr_func_name c2 = Some name ∧
           curr_func_ids c2 = Some (ids ∪ idents body) ∧
           tok_itr c2 = Some (tail ++ rest) ∧
           steps fs (length tail) ReadFunc c2 = Next ReadFunc c3 ∧
           funcs c3 = funcs c ∧ curr_func_name c3 = Some name ∧
           curr_func_ids c3 = Some (ids ∪ idents body ∪ idents tail) ∧
           tok_itr c3 = Some rest).
Proof.
  intros Hfs Hsteps Hit Hhead.
  destruct (ReadFunc_state fs p data Hfs n c Hsteps)
    as (name & ids & d & toks0 & Hname & Hids & Hd & Hge & Hit0 & Hok).
  rewrite Hit in Hit0. injection Hit0 as <-.
  apply Forall_cons in Hok as [Hmo Hok]. destruct (Hmo Hhead) as [inner Hinner].
  destruct (ReadFunc_step fs c head toks ids d Hit Hids Hd Hmo)
    as (c1 & Hdo & Hit1 & _ & Hf1 & Hn1 & Hi1 & Hl1 & _).
  assert (delta head = 0%Z) as Hδ.
  { unfold delta, has_kind in *. rewrite !decide_False; [done|congruence..]. }
  assert (ident_of head = ∅) as Hi0.
  { unfold ident_of, has_kind in *. rewrite decide_False; [done|congruence]. }
  rewrite decide_False in Hdo
    by (intros [Hc _]; unfold has_kind in *; congruence).
  rewrite Hδ, Z.add_0_r in Hl1. rewrite Hi0, (right_id_L ∅ (∪)) in Hi1.
  exists name, ids, d, inner, c1. split_and!; try done; [congruence|].
  intros body close tail rest -> Hbody Hbal Hclose.
  destruct (nested_function_steps fs c head body close (tail ++ rest) inner ids d)
    as [_ (c' & Hst & Hit' & Hp' & Hf' & Hn' & Hi' & Hl' & Hpr')]; try done.
  split.
  - intros -> Htail. rewrite decide_True in Hst by done.
    set (c2 := set_funcs (<[name := ids ∪ idents body]> (funcs c')) c').
    destruct (GetNextToken_steps fs tail c2 rest)
      as (c3 & Hst3 & Hit3 & _ & Hf3 & _); [done|done|].
    exists c2, c3. split_and!; try done.
    + replace (length body + 3) with (length body + 2 + 1) by lia.
      rewrite steps_add, Hst. simpl. by rewrite Hn', Hname, Hi'.
    + simpl. by rewrite Hf'.
  - intros Hlt Hopen. rewrite decide_False in Hst by lia.
    apply Forall_app in Hok as [_ [_ Hok]%Forall_cons].
    apply Forall_app in Hok as [Hok _].
    destruct (ReadFunc_steps fs tail c' rest (ids ∪ idents body) (d - 1))
      as (c3 & Hst3 & Hit3 & _ & Hf3 & Hn3 & Hi3 & _); try done.
    exists c', c3. split_and!; try done; congruence.
Qed.

(** C10.  Every match the lexer classifies as [FUNCSTART] is matched again
    by the declaration-head pattern applied to its text alone, with a name
    of at least one character, and its text holds an opening brace: on such
    a token [FuncStartState] raises nothing and goes to [ReadFunc] with the
    brace depth 1, the captured name as the current function, an empty
    identifier set, and everything else in the context as it was. *)
Theorem funcstart_rematch_never_fails fs data mo c tok :
  mo ∈ finditer data → has_kind "FUNCSTART" mo →
  token c = Some tok → token_of mo tok →
  ∃ name c',
    match_funcname (value tok) = Some name ∧ name ≠ "" ∧
    contains_open_brace (value tok) = true ∧
    do fs FuncStartState c = Next ReadFunc c' ∧
    c' = set_curr_func name ∅ 1 c ∧
    paren_level c' = Some 1%Z ∧
    curr_func_name c' = Some name ∧
    curr_func_ids c' = Some ∅ ∧
    path c' = path c ∧ funcs c' = funcs c ∧
    line_num c' = line_num c ∧ line_start c' = line_start c ∧
    tok_itr c' = tok_itr c ∧ token c' = Some tok ∧ printed c' = printed c.
Proof.
  intros Hin Hk Htok [_ Hv].
  destruct (FUNCSTART_rematch data mo Hin Hk) as (name & Hname & Hne & Hb).
  exists name, (set_curr_func name ∅ 1 c). rewrite Hv. split_and!; try done.
  simpl. by rewrite Htok, Hv, Hname, Hb.
Qed.

(** *** The theorems on the sample inputs *)

Lemma nested_declaration_attributed_witness :
  ∃ c' ids',
    steps (one_file "a.ts" nested_once) 3 ReadFunc
      (ctx_after (one_file "a.ts" nested_once) "a.ts" 4)
    = Next EndFunc c' ∧
    printed c' = [nested_notice "inner" "a.ts"] ∧
    funcs c' = ∅ ∧
    curr_func_name c' = Some "outer" ∧
    curr_func_ids c' = Some ids' ∧ "helper" ∈ ids'.
Proof.
  destruct (nested_declaration_attributed (one_file "a.ts" nested_once)
              (ctx_after (one_file "a.ts" nested_once) "a.ts" 4)
              (mkMatch 18 35 "function inner(){" (Some "FUNCSTART"))
              [mkMatch 36 42 "helper" (Some "IDENTIFIER")]
              (mkMatch 46 47 "}" (Some "CLOSE_PAREN"))
              [ mkMatch 48 53 "after" (Some "IDENTIFIER");
                mkMatch 57 58 "}" (Some "CLOSE_PAREN");
                mkMatch 59 77 "function helper(){" (Some "FUNCSTART");
                mkMatch 77 78 "}" (Some "CLOSE_PAREN") ]
              "inner" "outer" ∅ 1%Z)
    as (c' & ids' & Hst & Hpr & Hf & Hn & Hi & _ & Hin & _).
  - vm_compute; reflexivity.
  - vm_compute; reflexivity.
  - vm_compute; reflexivity.
  - vm_compute; reflexivity.
  - lia.
  - vm_compute; reflexivity.
  - vm_compute; reflexivity.
  - repeat constructor. vm_compute. congruence.
  - split; vm_compute; reflexivity.
  - vm_compute; reflexivity.
  - exists c', ids'. split_and!; try done.
    apply (Hin (mkMatch 36 42 "helper" (Some "IDENTIFIER"))).
    + left.
    + vm_compute; reflexivity.
Defined.

Lemma nested_head_brace_uncounted_witness :
  ∃ c2 c3,
    steps (one_file "a.ts" nested_once) 4 ReadFunc
      (ctx_after (one_file "a.ts" nested_once) "a.ts" 4)
    = Next GetNextToken c2 ∧
    funcs c2 = {["outer" := {["helper"]}]} ∧
    steps (one_file "a.ts" nested_once) 2 GetNextToken c2 = Next GetNextToken c3 ∧
    funcs c3 = funcs c2 ∧
    tok_itr c3 = Some [ mkMatch 59 77 "function helper(){" (Some "FUNCSTART");
                        mkMatch 77 78 "}" (Some "CLOSE_PAREN") ].
Proof.
  destruct (nested_head_brace_uncounted (one_file "a.ts" nested_once) "a.ts"
              nested_once 4
              (ctx_after (one_file "a.ts" nested_once) "a.ts" 4)
              (mkMatch 18 35 "function inner(){" (Some "FUNCSTART"))
              [ mkMatch 36 42 "helper" (Some "IDENTIFIER");
                mkMatch 46 47 "}" (Some "CLOSE_PAREN");
                mkMatch 48 53 "after" (Some "IDENTIFIER");
                mkMatch 57 58 "}" (Some "CLOSE_PAREN");
                mkMatch 59 77 "function helper(){" (Some "FUNCSTART");
                mkMatch 77 78 "}" (Some "CLOSE_PAREN") ])
    as (name & ids & d & inner & c1 & Hname & Hids & Hd & _ & _ & _ & _ & _ & _
        & _ & _ & Hbody).
  - reflexivity.
  - vm_compute; reflexivity.
  - vm_compute; reflexivity.
  - vm_compute; reflexivity.
  - vm_compute in Hname, Hids, Hd.
    injection Hname as <-. injection Hids as <-. injection Hd as <-.
    destruct (Hbody [mkMatch 36 42 "helper" (Some "IDENTIFIER")]
                (mkMatch 46 47 "}" (Some "CLOSE_PAREN"))
                [ mkMatch 48 53 "after" (Some "IDENTIFIER");
                  mkMatch 57 58 "}" (Some "CLOSE_PAREN") ]
                [ mkMatch 59 77 "function helper(){" (Some "FUNCSTART");
                  mkMatch 77 78 "}" (Some "CLOSE_PAREN") ])
      as [H1 _].
    + reflexivity.
    + repeat constructor. vm_compute. congruence.
    + split; vm_compute; reflexivity.
    + vm_compute; reflexivity.
    + destruct H1 as (c2 & c3 & Hst & Hf & Hit & Hst3 & Hf3 & Hit3); [done| |].
      { repeat constructor; vm_compute; congruence. }
      exists c2, c3. split_and!; done.
Defined.

(** C9, as stated, fails for a declaration nested in an inner block: the
    closing brace of [inner] takes the depth from 2 to 1, nothing is
    committed there, and [b], which stands after the body of [inner] and
    before the closing brace of [outer], is recorded for [outer]. *)
Lemma nested_in_block_recorded :
  finditer nested_in_block
  = [ mkMatch 0 17 "function outer(){" (Some "FUNCSTART");
      mkMatch 18 20 "if" (Some "IDENTIFIER");
      mkMatch 22 23 "x" (Some "IDENTIFIER");
      mkMatch 25 26 "{" (Some "OPEN_PAREN");
      mkMatch 27 44 "function inner(){" (Some "FUNCSTART");
      mkMatch 45 46 "a" (Some "IDENTIFIER");
      mkMatch 50 51 "}" (Some "CLOSE_PAREN");
      mkMatch 52 53 "b" (Some "IDENTIFIER");
      mkMatch 57 58 "}" (Some "CLOSE_PAREN");
      mkMatch 59 60 "}" (Some "CLOSE_PAREN") ] ∧
  (∃ c, steps (one_file "a.ts" nested_in_block) 10 Start (new_FileContext "a.ts")
        = Next ReadFunc c ∧
        paren_level c = Some 1%Z ∧ funcs c = ∅ ∧
        tok_itr c = Some [ mkMatch 52 53 "b" (Some "IDENTIFIER");
                           mkMatch 57 58 "}" (Some "CLOSE_PAREN");
                           mkMatch 59 60 "}" (Some "CLOSE_PAREN") ]) ∧
  ∃ c, FileContext_run (one_file "a.ts" nested_in_block) "a.ts"
       = Some (Returned c, []) ∧
       funcs c = {["outer" := {["if"; "x"; "a"; "b"]}]} ∧
       "b" ∈ default ∅ (funcs c !! "outer").
Proof.
  split_and!.
  - vm_compute; reflexivity.
  - eexists. split; [vm_compute; reflexivity|]. split_and!; vm_compute; reflexivity.
  - eexists. split; [vm_compute; reflexivity|]. split.
    + vm_compute; reflexivity.
    + apply (bool_decide_unpack _). vm_compute. reflexivity.
Defined.

Lemma funcstart_rematch_never_fails_witness :
  ∃ name c',
    match_funcname "function helper(){" = Some name ∧ name ≠ "" ∧
    contains_open_brace "function helper(){" = true ∧
    do (one_file "a.ts" nested_once) FuncStartState
       (set_token (mkToken (Some "FUNCSTART") "function helper(){" 1 59)
                  (new_FileContext "a.ts"))
    = Next ReadFunc c' ∧
    c' = set_curr_func name ∅ 1
           (set_token (mkToken (Some "FUNCSTART") "function helper(){" 1 59)
                      (new_FileContext "a.ts")) ∧
    paren_level c' = Some 1%Z ∧
    curr_func_name c' = Some name ∧
    curr_func_ids c' = Some ∅ ∧
    path c' = "a.ts" ∧ funcs c' = ∅ ∧
    line_num c' = 1 ∧ line_start c' = 0 ∧
    tok_itr c' = None ∧
    token c' = Some (mkToken (Some "FUNCSTART") "function helper(){" 1 59) ∧
    printed c' = [].
Proof.
  apply (funcstart_rematch_never_fails (one_file "a.ts" nested_once) nested_once
           (mkMatch 59 77 "function helper(){" (Some "FUNCSTART"))
           (set_token (mkToken (Some "FUNCSTART") "function helper(){" 1 59)
                      (new_FileContext "a.ts"))
           (mkToken (Some "FUNCSTART") "function helper(){" 1 59)).
  - vm_compute. do 6 right. left.
  - vm_compute; reflexivity.
  - reflexivity.
  - split; reflexivity.
Defined.

(** C4.  The code does not do what the claim says on a declaration nested
    twice.  The head of a function at top level opens its body at depth 1
    ([FuncStartState]), but a head read inside a body leaves the depth as it
    is ([ReadFunc]), although its text holds the opening brace of the nested
    body.  So after [function inner(){] and [function inner2(){] the depth
    is still 1, the closing brace of [inner2] takes it to 0 and [outer] is
    committed there: [b], an identifier token inside the body of the nested
    function [inner], between its head and its closing brace, is read at top
    level and is not in the identifier set recorded for the enclosing
    function [outer].  The two notices are printed and neither nested
    function gets a record. *)
Theorem nested_twice_not_attributed :
  finditer nested_twice
  = [ mkMatch 0 17 "function outer(){" (Some "FUNCSTART");
      mkMatch 18 35 "function inner(){" (Some "FUNCSTART");
      mkMatch 36 54 "function inner2(){" (Some "FUNCSTART");
      mkMatch 55 56 "a" (Some "IDENTIFIER");
      mkMatch 60 61 "}" (Some "CLOSE_PAREN");
      mkMatch 62 63 "b" (Some "IDENTIFIER");
      mkMatch 67 68 "}" (Some "CLOSE_PAREN");
      mkMatch 69 70 "}" (Some "CLOSE_PAREN") ] ∧
  (steps nested_twice_fs 4 Start (new_FileContext "a.ts")
   = Next ReadFunc (ctx_after nested_twice_fs "a.ts" 4) ∧
   curr_func_name (ctx_after nested_twice_fs "a.ts" 4) = Some "outer" ∧
   paren_level (ctx_after nested_twice_fs "a.ts" 4) = Some 1%Z ∧
   do nested_twice_fs ReadFunc (ctx_after nested_twice_fs "a.ts" 4)
   = Next ReadFunc (ctx_after nested_twice_fs "a.ts" 5) ∧
   paren_level (ctx_after nested_twice_fs "a.ts" 5) = Some 1%Z ∧
   do nested_twice_fs ReadFunc (ctx_after nested_twice_fs "a.ts" 5)
   = Next ReadFunc (ctx_after nested_twice_fs "a.ts" 6) ∧
   paren_level (ctx_after nested_twice_fs "a.ts" 6) = Some 1%Z ∧
   steps nested_twice_fs 2 ReadFunc (ctx_after nested_twice_fs "a.ts" 6)
   = Next EndFunc (ctx_after nested_twice_fs "a.ts" 8) ∧
   paren_level (ctx_after nested_twice_fs "a.ts" 8) = Some 0%Z ∧
   tok_itr (ctx_after nested_twice_fs "a.ts" 8)
   = Some [ mkMatch 62 63 "b" (Some "IDENTIFIER");
            mkMatch 67 68 "}" (Some "CLOSE_PAREN");
            mkMatch 69 70 "}" (Some "CLOSE_PAREN") ] ∧
   do nested_twice_fs EndFunc (ctx_after nested_twice_fs "a.ts" 8)
   = Next GetNextToken (ctx_after nested_twice_fs "a.ts" 9) ∧
   funcs (ctx_after nested_twice_fs "a.ts" 9) = {["outer" := {["a"]}]}) ∧
  ∃ c, FileContext_run nested_twice_fs "a.ts" = Some (Returned c, []) ∧
       funcs c = {["outer" := {["a"]}]} ∧
       printed c
       = [ "Found nested function 'inner' in 'a.ts'. Determine dependencies manually";
           "Found nested function 'inner2' in 'a.ts'. Determine dependencies manually" ] ∧
       "b" ∉ default ∅ (funcs c !! "outer").
Proof.
  split; [vm_compute; reflexivity|]. split.
  - split_and!; vm_compute; reflexivity.
  - eexists. split; [vm_compute; reflexivity|].
    split; [vm_compute; reflexivity|]. split; [vm_compute; reflexivity|].
    vm_compute. intros H. inversion H.
Qed.

(** ** The dependency filter *)

Lemma filter_one_spec fname deps (m : gmap string (gset string)) :
  fname ∈ dom m →
  filter_one fname deps m
  = if decide (deps = ∅) then m else <[fname := filter (λ d, d ∈ dom m) deps]> m.
Proof.
  intros Hin. unfold filter_one.
  assert (Hfold :
    (set_fold (filter_step fname) (∅, m) deps).1 = filter (λ d, d ∈ dom m) deps ∧
    (set_fold (filter_step fname) (∅, m) deps).2
    = if decide (deps = ∅) then m
      else <[fname := (set_fold (filter_step fname) (∅, m) deps).1]> m);
    [|destruct Hfold as [H1 H2]; rewrite H2; case_decide; [done|]; by rewrite H1].
  pose (P := λ (st : gset string * gmap string (gset string)) (X : gset string),
       st.1 = filter (λ d, d ∈ dom m) X ∧
       st.2 = if decide (X = ∅) then m else <[fname := st.1]> m).
  apply (set_fold_ind_L P); unfold P; clear P.
  - split; [|done]. cbn [fst]. apply set_eq. intros x. rewrite elem_of_filter.
    split; [intros []%not_elem_of_empty|intros [_ []%not_elem_of_empty]].
  - intros d X [flt fs] Hd [Hflt Hfs]. unfold filter_step. cbn [fst snd] in *.
    assert (dom fs = dom m) as Hdom.
    { rewrite Hfs. case_decide; [done|]. rewrite dom_insert_L.
      apply set_eq. intros x. rewrite elem_of_union, elem_of_singleton.
      split; [intros [->|?]|]; auto. }
    assert ({[d]} ∪ X ≠ ∅) as Hne.
    { intros He. apply (not_elem_of_empty (C:=gset string) d).
      rewrite <- He. apply elem_of_union. left. by apply elem_of_singleton. }
    rewrite Hdom. rewrite (decide_False (P := {[d]} ∪ X = ∅)) by done.
    assert ((if decide (d ∈ dom m) then flt ∪ {[d]} else flt)
            = filter (λ d, d ∈ dom m) ({[d]} ∪ X)) as ->.
    { rewrite Hflt. apply set_eq. intros x.
      destruct (decide (d ∈ dom m)) as [Hdm|Hdm];
        rewrite ?elem_of_union, !elem_of_filter, ?elem_of_union,
          ?elem_of_singleton.
      - split; [intros [[? ?]| ->]|intros [? [->|?]]]; auto.
      - split; [intros [? ?]|intros [? [->|?]]]; auto. done. }
    split; [done|]. rewrite Hfs. case_decide; [done|].
    by rewrite insert_insert_eq.
Qed.

Lemma filter_deps_fold (b : gmap string (gset string)) :
  ∀ m : gmap string (gset string), dom m ⊆ dom b →
    dom (map_fold filter_one b m) = dom b ∧
    ∀ k, map_fold filter_one b m !! k =
         match m !! k with
         | Some deps =>
             if decide (deps = ∅) then b !! k
             else Some (filter (λ d, d ∈ dom b) deps)
         | None => b !! k
         end.
Proof.
  apply (map_fold_weak_ind (λ r (m : gmap string (gset string)),
    dom m ⊆ dom b →
    dom r = dom b ∧
    ∀ k, r !! k = match m !! k with
                  | Some deps =>
                      if decide (deps = ∅) then b !! k
                      else Some (filter (λ d, d ∈ dom b) deps)
                  | None => b !! k
                  end)).
  - intros _. split; [done|]. intros k. by rewrite lookup_empty.
  - intros i x m r Hi IH Hdom. rewrite dom_insert_L in Hdom.
    destruct IH as [Hr Hlook]; [set_solver|].
    rewrite filter_one_spec by set_solver. rewrite Hr.
    split.
    + case_decide; [done|]. rewrite dom_insert_L. set_solver.
    + intros k. destruct (decide (i = k)) as [->|Hne].
      * rewrite lookup_insert_eq. case_decide.
        -- by rewrite Hlook, Hi.
        -- by rewrite lookup_insert_eq.
      * rewrite (lookup_insert_ne m) by done.
        case_decide; [done|]. by rewrite lookup_insert_ne.
Qed.

Lemma filter_deps_lookup (funcs : gmap string (gset string)) fname :
  filter_deps funcs !! fname
  = (λ deps, filter (λ d, d ∈ dom funcs) deps) <$> funcs !! fname.
Proof.
  destruct (filter_deps_fold funcs funcs) as [_ Hlook]; [done|].
  unfold filter_deps. rewrite Hlook.
  destruct (funcs !! fname) as [deps|] eqn:Hk; [|done]. simpl.
  case_decide as He; [|done]. by subst.
Qed.

Lemma filter_deps_dom (funcs : gmap string (gset string)) :
  dom (filter_deps funcs) = dom funcs.
Proof. by destruct (filter_deps_fold funcs funcs) as [Hdom _]. Qed.

Lemma filter_deps_closed (funcs : gmap string (gset string)) :
  closed (filter_deps funcs).
Proof.
  intros f deps. rewrite filter_deps_lookup, filter_deps_dom.
  destruct (funcs !! f); [|done]. intros [= <-] d.
  rewrite elem_of_filter. tauto.
Qed.

(** C2.  After the filter loop every function's set is the part of its raw
    set that names a key of the table: the key set is unchanged, no edge
    dangles, and a function that names itself keeps itself as a
    dependency. *)
Theorem filter_deps_spec (funcs : gmap string (gset string)) :
  (∀ fname, filter_deps funcs !! fname
            = (λ deps, filter (λ d, d ∈ dom funcs) deps) <$> funcs !! fname) ∧
  dom (filter_deps funcs) = dom funcs ∧
  closed (filter_deps funcs) ∧
  (∀ fname deps, funcs !! fname = Some deps → fname ∈ deps →
     ∃ deps', filter_deps funcs !! fname = Some deps' ∧ fname ∈ deps').
Proof.
  split_and!.
  - apply filter_deps_lookup.
  - apply filter_deps_dom.
  - apply filter_deps_closed.
  - intros f deps Hf Hin. rewrite filter_deps_lookup, Hf. eexists. split; [done|].
    apply elem_of_filter. split; [|done]. apply elem_of_dom. by eexists.
Qed.

(** ** The aggregation loop *)

Lemma scan_all_app fs ps1 : ∀ ps2 t,
  scan_all fs (ps1 ++ ps2) t =
  match scan_all fs ps1 t with
  | Some (Completed t1) => scan_all fs ps2 t1
  | r => r
  end.
Proof.
  induction ps1 as [|p ps1 IH]; intros ps2 t; simpl; [done|].
  destruct (FileContext_run fs p) as [[[c|e c] err]|]; [apply IH|done..].
Qed.

Lemma scan_all_keeps fs name ps : ∀ t t',
  (∀ q c err, q ∈ ps → FileContext_run fs q = Some (Returned c, err) →
     funcs c !! name = None) →
  scan_all fs ps t = Some (Completed t') →
  t_funcs t' !! name = t_funcs t !! name ∧
  t_func_paths t' !! name = t_func_paths t !! name.
Proof.
  induction ps as [|p ps IH]; intros t t' Hno; simpl.
  - by intros [= <-].
  - destruct (FileContext_run fs p) as [[[c|e c] err]|] eqn:Hp; [|done..].
    intros Hrest. apply IH in Hrest as [-> ->].
    + assert (funcs c !! name = None) as Hnone by (eapply Hno; [left|done]).
      simpl. rewrite !lookup_union_r; [done| |done].
      apply lookup_gset_to_gmap_None. by apply not_elem_of_dom.
    + intros q c' err' Hq. apply Hno. by right.
Qed.

(** C8.  When several files declare a function of one name, the two global
    tables hold, for that name, the identifier set and the path of the file
    scanned last among them; no error is raised for the collision. *)
Theorem duplicate_name_last_wins fs ps1 p ps2 t t' c err name ids :
  FileContext_run fs p = Some (Returned c, err) →
  funcs c !! name = Some ids →
  (∀ q c' err', q ∈ ps2 → FileContext_run fs q = Some (Returned c', err') →
     funcs c' !! name = None) →
  scan_all fs (ps1 ++ p :: ps2) t = Some (Completed t') →
  t_funcs t' !! name = Some ids ∧ t_func_paths t' !! name = Some p.
Proof.
  intros Hp Hname Hlater. rewrite scan_all_app.
  destruct (scan_all fs ps1 t) as [[t1|]|]; [|done..].
  simpl. rewrite Hp. intros Hrest.
  apply (scan_all_keeps fs name) in Hrest as [-> ->]; [|done].
  simpl. split.
  - by apply lookup_union_Some_l.
  - apply lookup_union_Some_l, lookup_gset_to_gmap_Some.
    split; [|done]. apply elem_of_dom. by eexists.
Qed.

(** ** The level calculator *)

Section level_facts.
Variable g : gmap string (gset string).
Hypothesis Hclosed : closed g.

Lemma edge_dom f d : edge g f d → f ∈ dom g ∧ d ∈ dom g.
Proof.
  intros (deps & Hf & Hd). split.
  - apply elem_of_dom. by eexists.
  - by apply (Hclosed f deps Hf).
Qed.

Lemma rtc_edge_dom f x : rtc (edge g) f x → f ∈ dom g → x ∈ dom g.
Proof. induction 1 as [|f d x He _ IH]; [done|]. intros _. apply IH, (edge_dom f d He). Qed.

Lemma nonempty_elements (deps : gset string) :
  size deps ≠ 0 → ∃ d ds, elements deps = d :: ds.
Proof.
  intros Hsz. destruct (elements deps) as [|d ds] eqn:He; [|by eauto].
  apply elements_empty_inv, leibniz_equiv in He. subst.
  by rewrite size_empty in Hsz.
Qed.

(** The set [S] holds everything [f] can reach; below a dependency of [f] it
    can do without [f], when the graph has no cycle. *)
Lemma reach_dependency (S : gset string) f deps d :
  acyclic g → g !! f = Some deps → d ∈ deps →
  (∀ x, rtc (edge g) f x → x ∈ S) →
  size (S ∖ {[f]}) < size S ∧ ∀ x, rtc (edge g) d x → x ∈ S ∖ {[f]}.
Proof.
  intros Hacyc Hf Hd HS.
  assert (Hfd : edge g f d) by by exists deps.
  split.
  - rewrite size_difference by (apply singleton_subseteq_l, HS, rtc_refl).
    rewrite size_singleton.
    assert (size S ≠ 0); [|lia].
    intros Hz%size_empty_inv%leibniz_equiv. specialize (HS f (rtc_refl _ _)).
    rewrite Hz in HS. by apply not_elem_of_empty in HS.
  - intros x Hx. apply elem_of_difference. split.
    + apply HS. by eapply rtc_l.
    + intros ->%elem_of_singleton. apply (Hacyc f).
      eapply tc_rtc_r; [by apply tc_once|done].
Qed.

Lemma height_stable : acyclic g → ∀ n n' (S : gset string) f,
  size S ≤ n → size S ≤ n' → (∀ x, rtc (edge g) f x → x ∈ S) →
  height n g f = height n' g f.
Proof.
  intros Hacyc n. induction n as [|n IH]; intros n' S f Hn Hn' HS.
  { assert (size S = 0) as Hz%size_empty_inv%leibniz_equiv by lia.
    specialize (HS f (rtc_refl _ _)). rewrite Hz in HS.
    by apply not_elem_of_empty in HS. }
  destruct n' as [|n'].
  { assert (size S = 0) as Hz%size_empty_inv%leibniz_equiv by lia.
    specialize (HS f (rtc_refl _ _)). rewrite Hz in HS.
    by apply not_elem_of_empty in HS. }
  simpl. destruct (g !! f) as [deps|] eqn:Hf; [|done].
  case_decide; [done|]. do 2 f_equal. apply list_fmap_ext. intros i d Hi.
  assert (d ∈ deps) as Hd by (apply elem_of_elements; by eapply list_elem_of_lookup_2).
  destruct (reach_dependency S f deps d Hacyc Hf Hd HS) as [Hlt HS'].
  apply (IH n' (S ∖ {[f]})); [lia..|done].
Qed.

(** The level of the specification satisfies its defining equation. *)
Lemma height_unfold f deps :
  acyclic g → g !! f = Some deps →
  height (size g) g f
  = if decide (size deps = 0) then 0
    else S (max_list (height (size g) g <$> elements deps)).
Proof.
  intros Hacyc Hf.
  rewrite (height_stable Hacyc (size g) (S (size g)) (dom g) f).
  - simpl. by rewrite Hf.
  - by rewrite size_dom.
  - rewrite size_dom. lia.
  - intros x Hx. apply (rtc_edge_dom f x Hx). apply elem_of_dom. by eexists.
Qed.

End level_facts.

(** [max] over the values [f] returns, when every call succeeds with the
    value [lvl] gives and keeps the invariant [I] of the memo. *)
Lemma max_rest_ok (f : string → memo → exn + nat * memo)
    (lvl : string → nat) (I : memo → Prop) ks :
  (∀ k m, k ∈ ks → I m → ∃ m', f k m = inr (lvl k, m') ∧ I m') →
  ∀ acc m, I m →
    ∃ m', max_rest f ks acc m = inr (acc `max` max_list (lvl <$> ks), m') ∧ I m'.
Proof.
  induction ks as [|k ks IH]; intros Hf acc m Hm; simpl.
  - exists m. by rewrite Nat.max_0_r.
  - destruct (Hf k m) as (m1 & -> & Hm1); [left|done|].
    destruct (IH (λ k' m' Hk', Hf k' m' (list_elem_of_further _ _ _ Hk'))
                 (acc `max` lvl k) m1 Hm1) as (m2 & -> & Hm2).
    exists m2. split; [|done]. do 2 f_equal. symmetry. apply Nat.max_assoc.
Qed.

Lemma max_map_ok (f : string → memo → exn + nat * memo)
    (lvl : string → nat) (I : memo → Prop) ks :
  ks ≠ [] →
  (∀ k m, k ∈ ks → I m → ∃ m', f k m = inr (lvl k, m') ∧ I m') →
  ∀ m, I m → ∃ m', max_map f ks m = inr (max_list (lvl <$> ks), m') ∧ I m'.
Proof.
  destruct ks as [|k ks]; [done|]. intros _ Hf m Hm. simpl.
  destruct (Hf k m) as (m1 & -> & Hm1); [left|done|].
  apply (max_rest_ok f lvl I ks); [|done].
  intros k' m' Hk'. apply Hf. by right.
Qed.

Section get_level_facts.
Variable g : gmap string (gset string).
Hypothesis Hclosed : closed g.
Hypothesis Hacyc : acyclic g.

(** On a graph without cycles [get_level] returns the level of the
    specification, from any cache that holds only such levels, as soon as
    the recursion limit allows as many nested calls as there are
    functions. *)
Lemma get_level_height : ∀ depth (R : gset string) f m,
  size R ≤ depth → (∀ x, rtc (edge g) f x → x ∈ R) → f ∈ dom g →
  cache_ok g (height (size g) g) m →
  ∃ m', get_level depth g f m = inr (height (size g) g f, m') ∧
        cache_ok g (height (size g) g) m'.
Proof.
  induction depth as [|depth IH]; intros R f m Hsz HS Hf Hm.
  { assert (size R = 0) as Hz%size_empty_inv%leibniz_equiv by lia.
    specialize (HS f (rtc_refl _ _)). rewrite Hz in HS.
    by apply not_elem_of_empty in HS. }
  apply elem_of_dom in Hf as [deps Hf].
  assert (Hins : ∀ v c l, v = height (size g) g f →
    cache_ok g (height (size g) g) (mkMemo c l) →
    cache_ok g (height (size g) g) (mkMemo (<[(dom g, f) := v]> c) l)).
  { intros v c l -> Hc k v'. simpl. destruct (decide (k = f)) as [->|Hne].
    - rewrite lookup_insert_eq. congruence.
    - rewrite lookup_insert_ne by congruence. apply Hc. }
  simpl. unfold memoize_level.
  assert (Hmiss : ∃ m',
    match get_level_func (get_level depth) g f (mkMemo (cache m) (f :: calls m)) with
    | inl e => inl e
    | inr (result, m') =>
        inr (result, mkMemo (<[(dom g, f) := result]> (cache m')) (calls m'))
    end = inr (height (size g) g f, m') ∧ cache_ok g (height (size g) g) m').
  { unfold get_level_func. rewrite Hf, (height_unfold g Hclosed f deps Hacyc Hf).
    case_decide as Hsize.
    - eexists. split; [done|]. apply Hins; [|exact Hm].
      rewrite (height_unfold g Hclosed f deps) by done. by rewrite decide_True.
    - destruct (nonempty_elements deps Hsize) as (d0 & ds & Hel).
      assert (Hdeps : ∀ d m0, d ∈ elements deps →
        cache_ok g (height (size g) g) m0 →
        ∃ m', get_level depth g d m0 = inr (height (size g) g d, m') ∧
              cache_ok g (height (size g) g) m').
      { intros d m0 Hd%elem_of_elements Hm0.
        destruct (reach_dependency g R f deps d Hacyc Hf Hd HS) as [Hlt HS'].
        apply (IH (R ∖ {[f]})); [lia|done| |done].
        by apply (Hclosed f deps Hf). }
      assert (elements deps ≠ []) as Hne by by rewrite Hel.
      destruct (max_map_ok _ _ _ (elements deps) Hne Hdeps
                  (mkMemo (cache m) (f :: calls m)) Hm) as (m1 & -> & Hm1).
      eexists. split; [done|]. destruct m1. apply Hins; [|done].
      rewrite (height_unfold g Hclosed f deps) by done.
      by rewrite decide_False. }
  destruct (cache m !! (dom g, f)) as [[|v]|] eqn:Hc; [done| |done].
  exists m. split; [|done]. by rewrite <- (Hm f (S v) Hc).
Qed.

End get_level_facts.

Lemma elem_of_keys (g : gmap string (gset string)) f :
  f ∈ (map_to_list g).*1 ↔ f ∈ dom g.
Proof.
  rewrite list_elem_of_fmap, elem_of_dom. split.
  - intros ([k deps] & -> & Hin%elem_of_map_to_list). by eexists.
  - intros [deps Hf]. exists (f, deps). split; [done|]. by apply elem_of_map_to_list.
Qed.

Lemma elem_of_add_level l' f' levels f l :
  f ∈ default ∅ (add_level l' f' levels !! l)
  ↔ f ∈ default ∅ (levels !! l) ∨ (f = f' ∧ l' = l).
Proof.
  unfold add_level. destruct (decide (l' = l)) as [->|Hne].
  - rewrite lookup_insert_eq. simpl. rewrite elem_of_union, elem_of_singleton.
    naive_solver.
  - rewrite lookup_insert_ne by done. naive_solver.
Qed.

Lemma elem_of_foldl_add_level (lvl : string → nat) names : ∀ levels f l,
  f ∈ default ∅ (foldl (λ acc f, add_level (lvl f) f acc) levels names !! l)
  ↔ f ∈ default ∅ (levels !! l) ∨ (f ∈ names ∧ lvl f = l).
Proof.
  induction names as [|n names IH]; intros levels f l; simpl.
  - rewrite elem_of_nil. tauto.
  - rewrite IH, elem_of_add_level, elem_of_cons. naive_solver.
Qed.

Lemma levels_loop_ok depth (g : gmap string (gset string))
    (lvl : string → nat) (I : memo → Prop) names :
  (∀ f m, f ∈ names → I m → ∃ m', get_level depth g f m = inr (lvl f, m') ∧ I m') →
  ∀ levels m, I m →
    ∃ m', levels_loop depth g names levels m
          = inr (foldl (λ acc f, add_level (lvl f) f acc) levels names, m') ∧ I m'.
Proof.
  induction names as [|n names IH]; intros Hf levels m Hm; simpl.
  - by exists m.
  - destruct (Hf n m) as (m1 & -> & Hm1); [left|done|].
    apply IH; [|done]. intros f m0 Hin. apply Hf. by right.
Qed.

(** C1.  On the filtered graph, when it has no cycle, [get_level] computes
    a function [level] with [level f = 0] for a function without
    dependencies and [level f = 1 + max (level d)] over the dependencies
    [d] of [f] otherwise, so that [level f > level d] for each of them: a
    call returns [level f] from every cache that holds such levels, within
    a recursion limit of as many calls as there are functions, and the level
    map of the program puts [f] at [level f]. *)
Theorem get_level_recurrence (funcs g : gmap string (gset string)) :
  g = filter_deps funcs → acyclic g →
  ∃ level : string → nat,
    (∀ f deps, g !! f = Some deps →
       (deps = ∅ → level f = 0) ∧
       (deps ≠ ∅ → level f = 1 + max_list (level <$> elements deps)) ∧
       (∀ d, d ∈ deps → level d < level f)) ∧
    (∀ depth f m, size g ≤ depth → f ∈ dom g → cache_ok g level m →
       ∃ m', get_level depth g f m = inr (level f, m') ∧ cache_ok g level m') ∧
    (∀ depth, size g ≤ depth →
       ∃ levels m, compute_levels depth g = inr (levels, m) ∧
         ∀ f l, f ∈ default ∅ (levels !! l) ↔ f ∈ dom g ∧ level f = l).
Proof.
  intros -> Hacyc. set (g := filter_deps funcs) in *.
  pose proof (filter_deps_closed funcs : closed g) as Hclosed.
  exists (height (size g) g).
  assert (Hcall : ∀ depth f m, size g ≤ depth → f ∈ dom g →
    cache_ok g (height (size g) g) m →
    ∃ m', get_level depth g f m = inr (height (size g) g f, m') ∧
          cache_ok g (height (size g) g) m').
  { intros depth f m Hd Hf Hm.
    apply (get_level_height g Hclosed Hacyc depth (dom g)); try done.
    - by rewrite size_dom.
    - intros x Hx. by apply (rtc_edge_dom g Hclosed f). }
  split_and!; [|done|].
  - intros f deps Hf. rewrite (height_unfold g Hclosed f deps Hacyc Hf).
    assert (size deps = 0 ↔ deps = ∅) as Hsz.
    { rewrite size_empty_iff. split; [apply leibniz_equiv|by intros ->]. }
    split_and!.
    + intros He. by rewrite decide_True by by apply Hsz.
    + intros Hne. by rewrite decide_False by by rewrite Hsz.
    + intros d Hd. rewrite decide_False.
      * apply Nat.lt_succ_r, max_list_elem_of_le, list_elem_of_fmap.
        exists d. split; [done|]. by apply elem_of_elements.
      * rewrite Hsz. intros ->. by apply not_elem_of_empty in Hd.
  - intros depth Hd. unfold compute_levels.
    destruct (levels_loop_ok depth g (height (size g) g)
                (cache_ok g (height (size g) g)) (map_to_list g).*1)
      with (levels := (∅ : gmap nat (gset string))) (m := new_memo)
      as (m' & Hloop & _).
    + intros f m Hin%elem_of_keys Hm. by apply Hcall.
    + intros k v. simpl. by rewrite lookup_empty.
    + eexists _, m'. split; [exact Hloop|]. intros f l.
      rewrite elem_of_foldl_add_level, lookup_empty, elem_of_keys. simpl.
      rewrite elem_of_empty. tauto.
Qed.

(** *** Graphs with a cycle *)

(** [max] over calls each of which either overflows the recursion limit or
    returns for a key with the property [P], keeping the invariant [I]. *)
Lemma max_rest_overflow (f : string → memo → exn + nat * memo)
    (P : string → Prop) (I : memo → Prop) ks :
  (∀ k m, k ∈ ks → I m →
     match f k m with
     | inl e => e = RecursionError
     | inr (_, m') => P k ∧ I m'
     end) →
  ∀ acc m, I m →
    match max_rest f ks acc m with
    | inl e => e = RecursionError
    | inr (_, m') => (∀ k, k ∈ ks → P k) ∧ I m'
    end.
Proof.
  induction ks as [|k ks IH]; intros Hf acc m Hm; simpl.
  - split; [by intros k ?%elem_of_nil|done].
  - specialize (Hf k m (list_elem_of_here _ _) Hm) as Hk.
    destruct (f k m) as [e|[v m1]]; [done|]. destruct Hk as [Hk Hm1].
    specialize (IH (λ k' m' Hk', Hf k' m' (list_elem_of_further _ _ _ Hk'))
                   (acc `max` v) m1 Hm1).
    destruct (max_rest f ks (acc `max` v) m1) as [e|[w m2]]; [done|].
    destruct IH as [Hks Hm2]. split; [|done].
    intros k' [->|Hin]%elem_of_cons; auto.
Qed.

Section cycle_facts.
Variable g : gmap string (gset string).
Hypothesis Hclosed : closed g.

Lemma reaches_cycle_dependency f deps :
  g !! f = Some deps → reaches_cycle g f → ∃ d, d ∈ deps ∧ reaches_cycle g d.
Proof.
  intros Hf (c & Hfc & Hc).
  assert (tc (edge g) f c) as Htc.
  { apply rtc_tc in Hfc as [->|]; done. }
  inversion Htc as [? ? (deps' & Hf' & Hd)|? d ? (deps' & Hf' & Hd) Hdc]; subst;
    rewrite Hf in Hf'; injection Hf' as <-.
  - exists c. split; [done|]. exists c. split; [apply rtc_refl|done].
  - exists d. split; [done|]. exists c. split; [by apply tc_rtc|done].
Qed.

(** A call for a function that can reach a cycle never returns: whatever
    the recursion limit, it ends on [RecursionError]; and a call that
    returns leaves no usable cache entry for such a function. *)
Lemma get_level_overflow : ∀ depth f m,
  f ∈ dom g → cache_sound g m →
  match get_level depth g f m with
  | inl e => e = RecursionError
  | inr (_, m') => ¬ reaches_cycle g f ∧ cache_sound g m'
  end.
Proof.
  induction depth as [|depth IH]; intros f m Hf Hm; [done|].
  apply elem_of_dom in Hf as [deps Hf].
  assert (Hins : ∀ v c l, ¬ reaches_cycle g f →
    cache_sound g (mkMemo c l) →
    cache_sound g (mkMemo (<[(dom g, f) := v]> c) l)).
  { intros v c l Hnc Hc k v'. simpl. destruct (decide (k = f)) as [->|Hne].
    - done.
    - rewrite lookup_insert_ne by congruence. apply Hc. }
  simpl. unfold memoize_level.
  assert (Hmiss :
    match
      match get_level_func (get_level depth) g f (mkMemo (cache m) (f :: calls m)) with
      | inl e => inl e
      | inr (result, m') =>
          inr (result, mkMemo (<[(dom g, f) := result]> (cache m')) (calls m'))
      end
    with
    | inl e => e = RecursionError
    | inr (_, m') => ¬ reaches_cycle g f ∧ cache_sound g m'
    end).
  { unfold get_level_func. rewrite Hf. case_decide as Hsize.
    - assert (¬ reaches_cycle g f) as Hnc.
      { intros (d & Hd & _)%(reaches_cycle_dependency f deps Hf).
        apply size_empty_inv, leibniz_equiv in Hsize. subst.
        by apply not_elem_of_empty in Hd. }
      split; [done|]. by apply Hins.
    - destruct (elements deps) as [|d0 ds] eqn:Hel.
      { apply elements_empty_inv, leibniz_equiv in Hel. subst.
        by rewrite size_empty in Hsize. }
      assert (Hdeps : ∀ d m0, d ∈ d0 :: ds → cache_sound g m0 →
        match get_level depth g d m0 with
        | inl e => e = RecursionError
        | inr (_, m') => ¬ reaches_cycle g d ∧ cache_sound g m'
        end).
      { intros d m0 Hd Hm0. apply IH; [|done].
        apply (Hclosed f deps Hf). apply elem_of_elements. by rewrite Hel. }
      simpl.
      specialize (Hdeps d0 (mkMemo (cache m) (f :: calls m))
                    (list_elem_of_here _ _) Hm) as H0.
      destruct (get_level depth g d0 _) as [e|[v m1]]; [done|].
      destruct H0 as [Hd0 Hm1].
      pose proof (max_rest_overflow (get_level depth g)
                    (λ d, ¬ reaches_cycle g d) (cache_sound g) ds
                    (λ d m0 Hd, Hdeps d m0 (list_elem_of_further _ _ _ Hd))
                    v m1 Hm1) as Hrest.
      destruct (max_rest _ ds v m1) as [e|[w m2]]; [done|].
      destruct Hrest as [Hds Hm2].
      assert (¬ reaches_cycle g f) as Hnc.
      { intros (d & Hd & Hbad)%(reaches_cycle_dependency f deps Hf).
        apply elem_of_elements in Hd. rewrite Hel in Hd.
        apply elem_of_cons in Hd as [->|Hd]; [done|]. by apply (Hds d). }
      split; [done|]. destruct m2. by apply Hins. }
  destruct (cache m !! (dom g, f)) as [[|v]|] eqn:Hc; [done| |done].
  split; [|done]. by apply (Hm f v).
Qed.

Lemma levels_loop_overflow depth names : ∀ levels m,
  (∀ f, f ∈ names → f ∈ dom g) → cache_sound g m →
  match levels_loop depth g names levels m with
  | inl e => e = RecursionError
  | inr (_, m') => (∀ f, f ∈ names → ¬ reaches_cycle g f) ∧ cache_sound g m'
  end.
Proof.
  induction names as [|n names IH]; intros levels m Hdom Hm; simpl.
  - split; [by intros f ?%elem_of_nil|done].
  - pose proof (get_level_overflow depth n m (Hdom n (list_elem_of_here _ _)) Hm) as Hn.
    destruct (get_level depth g n m) as [e|[l m1]]; [done|].
    destruct Hn as [Hn Hm1].
    specialize (IH (add_level l n levels) m1
                   (λ f Hf, Hdom f (list_elem_of_further _ _ _ Hf)) Hm1).
    destruct (levels_loop depth g names _ m1) as [e|[lv m2]]; [done|].
    destruct IH as [Hns Hm2]. split; [|done].
    intros f [->|Hin]%elem_of_cons; auto.
Qed.

Lemma compute_levels_overflow depth :
  cyclic g → compute_levels depth g = inl RecursionError.
Proof.
  intros [c Hc]. unfold compute_levels.
  pose proof (levels_loop_overflow depth (map_to_list g).*1 ∅ new_memo) as Hloop.
  destruct (levels_loop depth g _ ∅ new_memo) as [e|[lv m]].
  - rewrite Hloop; [done| |].
    + intros f. apply elem_of_keys.
    + intros k v. simpl. by rewrite lookup_empty.
  - destruct Hloop as [Hno _].
    + intros f. apply elem_of_keys.
    + intros k v. simpl. by rewrite lookup_empty.
    + exfalso. apply (Hno c).
      * apply elem_of_keys.
        inversion Hc as [? ? He|? ? ? He _]; subst;
          apply (edge_dom g Hclosed) in He as [? _]; done.
      * exists c. split; [apply rtc_refl|done].
Qed.

End cycle_facts.

(** C3, amended.  When the scan completes and the filtered graph has a
    cycle, the level computation of the program returns no level map,
    whatever the recursion limit: the recursion of [get_level] goes on until
    the limit is hit and the run ends on the interpreter's
    [RecursionError].  No error that names the cycle is raised, and the
    program writes nothing more than the scan had printed. *)
Theorem cyclic_graph_overflows fs paths t :
  scan_all fs paths no_tables = Some (Completed t) →
  cyclic (filter_deps (t_funcs t)) →
  ∀ depth,
    compute_levels depth (filter_deps (t_funcs t)) = inl RecursionError ∧
    analyse depth fs paths = Some (Aborted RecursionError (t_stdout t) []).
Proof.
  intros Hscan Hcyc depth.
  assert (compute_levels depth (filter_deps (t_funcs t)) = inl RecursionError)
    as Hlevels by (apply compute_levels_overflow; [apply filter_deps_closed|done]).
  split; [done|]. unfold analyse. by rewrite Hscan, Hlevels.
Qed.

(** A numbering of the functions that decreases along every edge rules out
    cycles. *)
Lemma ranked_acyclic (g : gmap string (gset string)) (rank : string → nat) :
  map_Forall (λ f deps, set_Forall (λ d, rank d < rank f) deps) g → acyclic g.
Proof.
  intros Hrank.
  assert (∀ f d, tc (edge g) f d → rank d < rank f) as Htc.
  { induction 1 as [f d (deps & Hf & Hd)|f d x (deps & Hf & Hd) _ IH].
    - by apply (Hrank f deps Hf d).
    - pose proof (Hrank f deps Hf d Hd) as Hlt. simpl in Hlt. lia. }
  intros f Hf%Htc. lia.
Qed.

Lemma get_level_recurrence_witness :
  ∃ level : string → nat,
    (∀ f deps, filter_deps scenario_A !! f = Some deps →
       (deps = ∅ → level f = 0) ∧
       (deps ≠ ∅ → level f = 1 + max_list (level <$> elements deps)) ∧
       (∀ d, d ∈ deps → level d < level f)) ∧
    (∀ depth f m, size (filter_deps scenario_A) ≤ depth →
       f ∈ dom (filter_deps scenario_A) →
       cache_ok (filter_deps scenario_A) level m →
       ∃ m', get_level depth (filter_deps scenario_A) f m = inr (level f, m') ∧
             cache_ok (filter_deps scenario_A) level m') ∧
    (∀ depth, size (filter_deps scenario_A) ≤ depth →
       ∃ levels m, compute_levels depth (filter_deps scenario_A) = inr (levels, m) ∧
         ∀ f l, f ∈ default ∅ (levels !! l)
                ↔ f ∈ dom (filter_deps scenario_A) ∧ level f = l).
Proof.
  apply (get_level_recurrence scenario_A (filter_deps scenario_A)).
  - reflexivity.
  - apply (ranked_acyclic _ (λ f, if decide (f = "foo") then 1 else 0)).
    apply (bool_decide_unpack _). vm_compute. exact I.
Defined.

Lemma cyclic_graph_overflows_witness :
  compute_levels 1000 (filter_deps scenario_B_table) = inl RecursionError ∧
  analyse 1000 (one_file "a.ts" scenario_B) ["a.ts"]
  = Some (Aborted RecursionError [] []).
Proof.
  apply (cyclic_graph_overflows (one_file "a.ts" scenario_B) ["a.ts"]
           (mkTables scenario_B_table {["a" := "a.ts"; "b" := "a.ts"]} [])).
  - vm_compute; reflexivity.
  - assert (filter_deps scenario_B_table = scenario_B_table) as Hfilter
      by (vm_compute; reflexivity).
    cbn [t_funcs]. rewrite Hfilter.
    exists "a". apply (tc_l _ _ "b"); [|apply tc_once].
    + exists {["b"]}. split; [reflexivity|]. by apply elem_of_singleton.
    + exists {["a"]}. split; [reflexivity|]. by apply elem_of_singleton.
Defined.

(** C3, as stated, fails on Scenario B.  The scan and the filter give the
    two-function cycle, and then, at every recursion limit, the program ends
    on [RecursionError], having written nothing: no cyclic-dependency error
    and no cycle is reported. *)
Lemma mutual_recursion_overflows :
  scan_all (one_file "a.ts" scenario_B) ["a.ts"] no_tables
  = Some (Completed (mkTables scenario_B_table
                       {["a" := "a.ts"; "b" := "a.ts"]} [])) ∧
  filter_deps scenario_B_table = scenario_B_table ∧
  ∀ depth, analyse depth (one_file "a.ts" scenario_B) ["a.ts"]
           = Some (Aborted RecursionError [] []).
Proof.
  assert (Hscan : scan_all (one_file "a.ts" scenario_B) ["a.ts"] no_tables
    = Some (Completed (mkTables scenario_B_table
                         {["a" := "a.ts"; "b" := "a.ts"]} [])))
    by (vm_compute; reflexivity).
  assert (Hfilter : filter_deps scenario_B_table = scenario_B_table)
    by (vm_compute; reflexivity).
  split_and!; [done..|].
  intros depth. unfold analyse. rewrite Hscan. cbn [t_funcs t_stdout].
  rewrite compute_levels_overflow; [done|apply filter_deps_closed|].
  rewrite Hfilter.
  exists "a". apply (tc_l _ _ "b"); [|apply tc_once].
  - exists {["b"]}. split; [reflexivity|]. by apply elem_of_singleton.
  - exists {["a"]}. split; [reflexivity|]. by apply elem_of_singleton.
Qed.

Lemma duplicate_name_last_wins_witness :
  ∃ t', scan_all scenario_D ["one.ts"; "two.ts"] no_tables = Some (Completed t') ∧
        t_funcs t' !! "dup" = Some {["second"]} ∧
        t_func_paths t' !! "dup" = Some "two.ts".
Proof.
  destruct (scan_all scenario_D ["one.ts"; "two.ts"] no_tables)
    as [[t'|]|] eqn:Hscan; [|by vm_compute in Hscan..].
  exists t'. split; [done|].
  apply (duplicate_name_last_wins scenario_D ["one.ts"] "two.ts" [] no_tables t'
           (ctx_after scenario_D "two.ts" 11) []).
  - vm_compute; reflexivity.
  - vm_compute; reflexivity.
  - intros q c' err' Hq. by apply elem_of_nil in Hq.
  - exact Hscan.
Defined.

(** ** What the code does where the specification says otherwise *)

(** [memoize_level] returns a cached value only when it is not [0]. *)
Lemma memoize_level_hit func (g : gmap string (gset string)) k m v :
  cache m !! (dom g, k) = Some (S v) → memoize_level func g k m = inr (S v, m).
Proof. intros Hc. unfold memoize_level. by rewrite Hc. Qed.

Lemma memoize_level_zero func (g : gmap string (gset string)) k m :
  cache m !! (dom g, k) = Some 0 →
  memoize_level func g k m
  = match func g k (mkMemo (cache m) (k :: calls m)) with
    | inl e => inl e
    | inr (result, m') =>
        inr (result, mkMemo (<[(dom g, k) := result]> (cache m')) (calls m'))
    end.
Proof. intros Hc. unfold memoize_level. by rewrite Hc. Qed.

(** C6 on the filtered table of Scenario A.  The first call for [foo]
    computes [foo] and, inside, [bar]; a second call for [foo] takes level 1
    from the cache and calls nothing; but a call for [bar], whose level 0
    is in the cache, calls the decorated function again. *)
Theorem level_zero_recomputed depth :
  observed (filter_deps scenario_A) ["foo"; "bar"]
    (call_each (2 + depth) (filter_deps scenario_A) ["foo"] new_memo)
  = Some ([1], ["bar"; "foo"], [Some 1; Some 0]) ∧
  observed (filter_deps scenario_A) ["foo"; "bar"]
    (call_each (2 + depth) (filter_deps scenario_A) ["foo"; "foo"] new_memo)
  = Some ([1; 1], ["bar"; "foo"], [Some 1; Some 0]) ∧
  observed (filter_deps scenario_A) ["foo"; "bar"]
    (call_each (2 + depth) (filter_deps scenario_A) ["foo"; "foo"; "bar"] new_memo)
  = Some ([1; 1; 0], ["bar"; "bar"; "foo"], [Some 1; Some 0]).
Proof. split_and!; vm_compute; reflexivity. Qed.

(** C7 on a body with a comment.  The only texts classified as [IGNORE]
    have four characters; the comment [// helper] is none, its word is an
    [IDENTIFIER] token, and the scan records it for the function [f]. *)
Theorem comment_identifier_recorded :
  (∀ data mo, mo ∈ finditer data → has_kind "IGNORE" mo →
     String.length (mo_group mo) = 4) ∧
  finditer commented
  = [ mkMatch 0 13 "function f(){" (Some "FUNCSTART");
      mkMatch 13 14 nl (Some "NEWLINE");
      mkMatch 17 23 "helper" (Some "IDENTIFIER");
      mkMatch 23 24 nl (Some "NEWLINE");
      mkMatch 24 25 "}" (Some "CLOSE_PAREN");
      mkMatch 25 26 nl (Some "NEWLINE");
      mkMatch 26 44 "function helper(){" (Some "FUNCSTART");
      mkMatch 44 45 "}" (Some "CLOSE_PAREN") ] ∧
  ∃ c, FileContext_run (one_file "a.ts" commented) "a.ts" = Some (Returned c, []) ∧
       funcs c = {["f" := {["helper"]}; "helper" := ∅]}.
Proof.
  split_and!.
  - apply IGNORE_four_characters.
  - vm_compute; reflexivity.
  - eexists. split; vm_compute; reflexivity.
Qed.

(** * More of the program *)

(** ** The token stream of the lexer *)

Lemma token_spec_nonempty n r v g :
  (n, r) ∈ token_spec → matches r v [] g → v ≠ [].
Proof.
  unfold token_spec. intros Hin Hm.
  repeat (apply elem_of_cons in Hin as [Heq|Hin];
          [injection Heq as -> ->|]); [..|by apply elem_of_nil in Hin].
  - unfold IGNORE_re in Hm. cbn [cat foldr] in Hm.
    invert Hm. match goal with H : matches (lit _) _ _ _ |- _ =>
      apply matches_Lit in H as [-> ->] end. done.
  - apply matches_FUNCSTART in Hm as [_ Hin]. intros ->. by apply elem_of_nil in Hin.
  - unfold IDENTIFIER_STR in Hm. invert Hm.
    match goal with H : matches (Chr _) _ _ _ |- _ => invert H end. done.
  - by apply matches_Lit in Hm as [-> _].
  - by apply matches_Lit in Hm as [-> _].
  - by invert Hm.
Qed.

(** A match at the head of [s]: the text is a prefix of [s] of at least one
    character, found by the alternative of [token_spec] that names it. *)
Lemma match_at_prefix s v lg :
  match_at s = Some (v, lg) →
  ∃ rest n r g, s = v ++ rest ∧ v ≠ [] ∧ lg = Some n ∧ (n, r) ∈ token_spec ∧
                match_here r s = Some (rest, g).
Proof.
  unfold match_at. destruct (match_here TOKEN_REGEX s) as [[rest g]|] eqn:Hm; [|done].
  intros [= <- <-].
  apply join_alternatives_match in Hm as (n & r & g0 & Hin & Hr & ->).
  pose proof Hr as Hs.
  apply exec_sound in Hs as (v & ? & ? & -> & Hs & [= -> ->]).
  rewrite take_matched. exists rest, n, r, g0. split_and!; try done.
  by eapply token_spec_nonempty.
Qed.

Lemma finditer_from_elem_at mo : ∀ s pos skip,
  mo ∈ finditer_from pos skip s →
  ∃ i v, mo_start mo = pos + i ∧ skip ≤ i ∧ i < length s ∧
         match_at (drop i s) = Some (v, mo_lastgroup mo) ∧
         mo_group mo = string_of_list_ascii v ∧
         mo_end mo = mo_start mo + length v.
Proof.
  induction s as [|c s IH]; intros pos skip; simpl; [by intros ?%elem_of_nil|].
  assert (Htail : ∀ n, mo ∈ finditer_from (S pos) n s →
    ∃ i v, mo_start mo = pos + i ∧ n < i ∧ i < S (length s) ∧
           match_at (drop i (c :: s)) = Some (v, mo_lastgroup mo) ∧
           mo_group mo = string_of_list_ascii v ∧
           mo_end mo = mo_start mo + length v).
  { intros n (i & v & Hst & Hn & Hi & Hm & Hg & He)%IH.
    exists (S i), v. split_and!; try done; lia. }
  destruct skip as [|n].
  - destruct (match_at (c :: s)) as [[v lg]|] eqn:Hm.
    + intros [->|Hin]%elem_of_cons.
      * exists 0, v. simpl. split_and!; try done; lia.
      * apply Htail in Hin as (i & v' & ? & ? & ? & ? & ? & ?).
        exists i, v'. split_and!; try done; lia.
    + intros (i & v' & ? & ? & ? & ? & ? & ?)%Htail.
      exists i, v'. split_and!; try done; lia.
  - intros (i & v' & ? & ? & ? & ? & ? & ?)%Htail.
    exists i, v'. split_and!; try done; lia.
Qed.

Lemma finditer_from_sorted s : ∀ pos skip,
  StronglySorted (λ a b, mo_end a ≤ mo_start b) (finditer_from pos skip s).
Proof.
  induction s as [|c s IH]; intros pos skip; simpl; [constructor|].
  destruct skip as [|n]; [|apply IH].
  destruct (match_at (c :: s)) as [[v lg]|] eqn:Hm; [|apply IH].
  constructor; [apply IH|]. apply Forall_forall. intros mo Hin.
  apply finditer_from_elem_at in Hin as (i & _ & -> & Hi & _).
  apply match_at_prefix in Hm as (_ & _ & _ & _ & _ & Hne & _).
  destruct v; [done|]. simpl in *. lia.
Qed.

(** X1.  The matches of [finditer] are spans of the text, from left to
    right: each has at least one character, lies inside the text, holds the
    text between its offsets, and starts no earlier than the one before it
    ended. *)
Theorem finditer_spans data :
  (∀ mo, mo ∈ finditer data →
     mo_start mo < mo_end mo ≤ String.length data ∧
     mo_group mo = slice (mo_start mo) (mo_end mo) data) ∧
  StronglySorted (λ a b, mo_end a ≤ mo_start b) (finditer data).
Proof.
  split; [|apply finditer_from_sorted].
  intros mo (i & v & Hst & _ & Hi & Hm & Hg & He)%finditer_from_elem_at.
  simpl in Hst. subst i.
  apply match_at_prefix in Hm as (rest & _ & _ & _ & Hs & Hne & _).
  rewrite <- length_list_ascii_of_string.
  pose proof (f_equal length Hs) as Hlen.
  rewrite length_drop, length_app in Hlen.
  split.
  - destruct v; [done|]. simpl in *. lia.
  - unfold slice. rewrite Hs, He, Hg. f_equal.
    replace (mo_start mo + length v - mo_start mo) with (length v) by lia.
    by rewrite take_app_length.
Qed.

(** X2.  Every match carries the name of one alternative of [token_spec] as
    its [lastgroup], never [None]; a newline token is the newline character
    and a brace token is the one brace. *)
Theorem finditer_kinds data mo :
  mo ∈ finditer data →
  ∃ k, mo_lastgroup mo = Some k ∧ k ∈ token_kinds ∧
       (k = "NEWLINE" → mo_group mo = nl) ∧
       (k = "OPEN_PAREN" → mo_group mo = "{") ∧
       (k = "CLOSE_PAREN" → mo_group mo = "}").
Proof.
  intros (i & v & _ & _ & _ & Hm & -> & _)%finditer_from_elem_at.
  apply match_at_prefix in Hm as (rest & n & r & g & Hs & _ & -> & Hin & Hr).
  exists n. split; [done|]. split.
  { apply list_elem_of_fmap. by exists (n, r). }
  apply exec_sound in Hr as (v' & ? & ? & Hv' & Hmatch & [= -> ->]).
  rewrite Hs in Hv'. apply app_inv_tail in Hv'. subst v'.
  unfold token_spec in Hin.
  repeat (apply elem_of_cons in Hin as [Heq|Hin];
          [injection Heq as -> ->|]); [..|by apply elem_of_nil in Hin];
    (split_and!; intros Hk; try discriminate Hk).
  - by apply matches_Lit in Hmatch as [-> _].
  - by apply matches_Lit in Hmatch as [-> _].
  - invert Hmatch.
    match goal with H : Ascii.eqb newline _ = true |- _ =>
      apply Ascii.eqb_eq in H as <- end. done.
Qed.

(** A greedy repetition of a character class that nothing follows takes
    every character of the class there is. *)
Lemma star_chr_accept (p : ascii → bool) : ∀ n s g,
  ∃ v rest, s = v ++ rest ∧ Forall (λ c, p c = true) v ∧
    (∀ c, head rest = Some c → length v < n → p c = false) ∧
    star_loop (exec (Chr p)) accept n s g = Some (rest, g).
Proof.
  set (step := exec (Chr p)).
  induction n as [|n IH]; intros s g.
  { exists [], s. split_and!; try done. simpl. lia. }
  cbn [star_loop]. destruct s as [|c s].
  { exists [], []. by split_and!. }
  change (step (c :: s) g ?K) with (if p c then K s g else None).
  destruct (p c) eqn:Hp.
  - replace (length s <? length (c :: s)) with true
      by (symmetry; apply Nat.ltb_lt; simpl; lia).
    destruct (IH s g) as (v & rest & -> & Hv & Hrest & ->).
    exists (c :: v), rest. split_and!; try done.
    + by constructor.
    + intros c' Hc' Hlen. apply Hrest; [done|]. simpl in Hlen. lia.
  - exists [], (c :: s). split_and!; try done.
    intros c' [= <-] _. done.
Qed.

Lemma match_here_IDENTIFIER s rest g :
  match_here IDENTIFIER_STR s = Some (rest, g) →
  ∃ v, s = v ++ rest ∧ is_identifier v ∧
       ∀ c, head rest = Some c → id_char c = false.
Proof.
  unfold match_here. destruct s as [|c s]; [done|].
  change (exec IDENTIFIER_STR (c :: s) [] accept)
    with (if id_start c
          then star_loop (exec (Chr id_char)) accept (length s) s []
          else None).
  destruct (id_start c) eqn:Hc; [|done].
  destruct (star_chr_accept id_char (length s) s []) as (v & rest' & -> & Hv & Hrest & ->).
  intros [= <- <-]. exists (c :: v). split_and!; try done.
  intros c' Hc'. destruct (decide (length v < length (v ++ rest'))) as [Hlt|Hge].
  - by apply Hrest.
  - rewrite length_app in Hge. destruct rest'; [done|simpl in Hge; lia].
Qed.

(** X3.  An [IDENTIFIER] match is a letter of [A-Za-z] or an underscore
    followed by word characters ([\w] of a [str] pattern, letters and digits
    from 128 on included), and it is as long as it can be: the character of
    the text after it, if there is one, is no word character. *)
Theorem identifier_tokens_maximal data mo :
  mo ∈ finditer data → has_kind "IDENTIFIER" mo →
  is_identifier (list_ascii_of_string (mo_group mo)) ∧
  ∀ c, list_ascii_of_string data !! mo_end mo = Some c → id_char c = false.
Proof.
  intros (i & v & Hst & _ & Hi & Hm & -> & He)%finditer_from_elem_at Hk.
  simpl in Hst. subst i. rewrite Hk in Hm.
  apply match_at_prefix in Hm as (rest & n & r & g & Hs & _ & [= <-] & Hin & Hr).
  assert (r = IDENTIFIER_STR) as ->.
  { unfold token_spec in Hin.
    repeat (apply elem_of_cons in Hin as [Heq|Hin]; [by simplify_eq|]).
    by apply elem_of_nil in Hin. }
  apply match_here_IDENTIFIER in Hr as (v' & Hv' & Hid & Hnext).
  rewrite Hs in Hv'. apply app_inv_tail in Hv'. subst v'.
  rewrite list_ascii_of_string_of_list_ascii. split; [done|].
  intros c Hc. apply Hnext. rewrite He in Hc.
  rewrite <- (lookup_drop _ (mo_start mo)), Hs in Hc.
  rewrite lookup_app_r, Nat.sub_diag in Hc by lia. by destruct rest.
Qed.

Lemma matches_star_chr p v g g' :
  matches (Star (Chr p)) v g g' → Forall (λ c, p c = true) v ∧ g' = g.
Proof.
  remember (Star (Chr p)) as r eqn:Hr. induction 1; try done.
  injection Hr as ->. destruct (IHmatches2 eq_refl) as [Hv ->].
  match goal with H : matches (Chr _) _ _ _ |- _ => invert H end.
  split; [|done]. by constructor.
Qed.

Lemma none_of_ne (cs : list ascii) (c : ascii) :
  none_of cs c = true → Forall (λ x, c ≠ x) cs.
Proof.
  unfold none_of. intros Hn. apply Forall_forall. intros x Hx ->.
  apply negb_true_iff in Hn. by rewrite existsb_elem_of in Hn.
Qed.

Lemma matches_head_keywords v g g' :
  matches
    (Grp None (Alt
       (Grp None (cat [Opt (Grp None (lit "export "));
                       Opt (Grp None (lit "async "));
                       lit "function"]))
       (Grp None (cat [Grp None (Alt (lit "public") (lit "private"));
                       Opt (Grp None (lit " async"));
                       Opt (Grp None (lit " static"))])))) v g g' →
  string_of_list_ascii v ∈ head_keywords.
Proof.
  unfold Opt. cbn [cat foldr]. intros H.
  repeat match goal with
  | H : matches (Seq _ _) _ _ _ |- _ => invert H
  | H : matches (Alt _ _) _ _ _ |- _ => invert H
  | H : matches (Grp _ _) _ _ _ |- _ => invert H
  | H : matches Eps _ _ _ |- _ => invert H
  | H : matches (lit _) _ _ _ |- _ => apply matches_Lit in H as [-> ->]
  end.
  all: simpl; unfold head_keywords; rewrite !elem_of_cons; auto 20.
Qed.


Lemma matches_FUNCSTART_shape v g :
  matches FUNCSTART_re v [] g →
  ∃ kw name params ret,
    v = list_ascii_of_string kw ++ " "%char :: name ++ params
        ++ ")"%char :: ret ++ ["{"%char] ∧
    kw ∈ head_keywords ∧ is_identifier name ∧
    group "funcname" g = Some name ∧
    Forall (λ c, c ≠ ")"%char ∧ c ≠ ";"%char) params ∧
    Forall (λ c, c ≠ "{"%char ∧ c ≠ ";"%char) ret.
Proof.
  unfold FUNCSTART_re. cbn [cat foldr]. intros H.
  invert H. match goal with H : matches (Grp None (Alt _ _)) _ _ _ |- _ =>
    apply matches_head_keywords in H as Hkw end.
  repeat match goal with
  | H : matches (Seq _ _) _ _ _ |- _ => invert H
  | H : matches Eps _ _ _ |- _ => invert H
  | H : matches (Grp (Some _) _) _ _ _ |- _ => invert H
  | H : matches (Grp None (Seq _ _)) _ _ _ |- _ => invert H
  | H : matches IDENTIFIER_STR _ _ _ |- _ => unfold IDENTIFIER_STR in H
  | H : matches (Chr id_start) _ _ _ |- _ => invert H
  | H : matches (lit _) _ _ _ |- _ => apply matches_Lit in H as [-> ->]
  | H : matches (Star (Chr _)) _ _ _ |- _ =>
      apply matches_star_chr in H as [? ->]
  end.
  exists (string_of_list_ascii v1), (c :: v8), v3, v6.
  rewrite list_ascii_of_string_of_list_ascii.
  split_and!; [|done| | | |].
  - simpl. by rewrite ?app_nil_r, <- ?(assoc_L (++)).
  - split; [done|]. done.
  - done.
  - eapply Forall_impl; [done|]. intros x Hx%none_of_ne.
    split; [by apply (Forall_inv Hx)|by apply (Forall_inv (Forall_inv_tail Hx))].
  - eapply Forall_impl; [done|]. intros x Hx%none_of_ne.
    split; [by apply (Forall_inv Hx)|by apply (Forall_inv (Forall_inv_tail Hx))].
Qed.

(** X4.  The text of a [FUNCSTART] match: one of twelve keyword prefixes, a
    blank, the name (a letter of [A-Za-z] or an underscore followed by word
    characters; it is what the pattern captures as [funcname]), a
    stretch without closing parenthesis or semicolon, a closing parenthesis,
    a stretch without opening brace or semicolon, and the opening brace as
    its last character. *)
Theorem funcstart_shape data mo :
  mo ∈ finditer data → has_kind "FUNCSTART" mo →
  ∃ kw name params ret,
    list_ascii_of_string (mo_group mo)
    = list_ascii_of_string kw ++ " "%char :: name ++ params
      ++ ")"%char :: ret ++ ["{"%char] ∧
    kw ∈ head_keywords ∧
    is_identifier name ∧
    match_funcname (mo_group mo) = Some (string_of_list_ascii name) ∧
    Forall (λ c, c ≠ ")"%char ∧ c ≠ ";"%char) params ∧
    Forall (λ c, c ≠ "{"%char ∧ c ≠ ";"%char) ret.
Proof.
  intros Hin Hk. apply finditer_from_elem in Hin as (s & v & Hm & Hv).
  rewrite Hk in Hm. apply match_at_FUNCSTART in Hm as [g Hm].
  pose proof Hm as Hs.
  apply exec_sound in Hs as (v' & ? & ? & Hv' & Hs & [= -> ->]).
  rewrite app_nil_r in Hv'. subst v'.
  apply matches_FUNCSTART_shape in Hs
    as (kw & name & params & ret & -> & Hkw & Hname & Hg & Hparams & Hret).
  exists kw, name, params, ret.
  unfold match_funcname.
  rewrite Hv, list_ascii_of_string_of_list_ascii, Hm, Hg. done.
Qed.


Lemma finditer_kinds_witness :
  ∃ k, mo_lastgroup (mkMatch 13 14 nl (Some "NEWLINE")) = Some k ∧
       k ∈ token_kinds ∧
       (k = "NEWLINE" → mo_group (mkMatch 13 14 nl (Some "NEWLINE")) = nl) ∧
       (k = "OPEN_PAREN" → mo_group (mkMatch 13 14 nl (Some "NEWLINE")) = "{") ∧
       (k = "CLOSE_PAREN" → mo_group (mkMatch 13 14 nl (Some "NEWLINE")) = "}").
Proof.
  apply (finditer_kinds commented (mkMatch 13 14 nl (Some "NEWLINE"))).
  apply (list_elem_of_lookup_2 _ 1). vm_compute. reflexivity.
Defined.

Lemma identifier_tokens_maximal_witness :
  is_identifier (list_ascii_of_string cafe) ∧
  ∀ c, list_ascii_of_string (cafe +:+ chr 215 +:+ "b") !! 4 = Some c →
       id_char c = false.
Proof.
  apply (identifier_tokens_maximal (cafe +:+ chr 215 +:+ "b")
           (mkMatch 0 4 cafe (Some "IDENTIFIER"))).
  - apply (list_elem_of_lookup_2 _ 0). vm_compute. reflexivity.
  - reflexivity.
Defined.

Lemma funcstart_shape_witness :
  ∃ kw name params ret,
    list_ascii_of_string ("function " +:+ cafe +:+ "(){")
    = list_ascii_of_string kw ++ " "%char :: name ++ params
      ++ ")"%char :: ret ++ ["{"%char] ∧
    kw ∈ head_keywords ∧
    is_identifier name ∧
    match_funcname ("function " +:+ cafe +:+ "(){")
    = Some (string_of_list_ascii name) ∧
    Forall (λ c, c ≠ ")"%char ∧ c ≠ ";"%char) params ∧
    Forall (λ c, c ≠ "{"%char ∧ c ≠ ";"%char) ret.
Proof.
  apply (funcstart_shape ("function " +:+ cafe +:+ "(){")
           (mkMatch 0 16 ("function " +:+ cafe +:+ "(){") (Some "FUNCSTART"))).
  - apply (list_elem_of_lookup_2 _ 0). vm_compute. reflexivity.
  - reflexivity.
Defined.

(** ** The scan as a sequence of declarations *)

Lemma heads_ok_finditer data pre toks :
  finditer data = pre ++ toks → heads_ok toks.
Proof.
  intros Hd. apply Forall_forall. intros mo Hin Hk.
  destruct (FUNCSTART_rematch data mo) as (name & -> & _ & ->); [|done|done].
  rewrite Hd. apply elem_of_app. by right.
Qed.

Lemma heads_ok_tokens_ok toks : heads_ok toks → tokens_ok toks.
Proof. intros H. eapply Forall_impl; [exact H|]. naive_solver. Qed.

Lemma heads_ok_app toks1 toks2 :
  heads_ok (toks1 ++ toks2) ↔ heads_ok toks1 ∧ heads_ok toks2.
Proof. apply Forall_app. Qed.

(** The tokens up to the first declaration head. *)
Lemma split_head toks :
  headless toks ∨
  ∃ junk head rest, toks = junk ++ head :: rest ∧ headless junk ∧
                    has_kind "FUNCSTART" head.
Proof.
  induction toks as [|mo toks IH]; [left; constructor|].
  destruct (decide (has_kind "FUNCSTART" mo)) as [Hk|Hk].
  { right. exists [], mo, toks. split_and!; [done|constructor|done]. }
  destruct IH as [Hno|(junk & head & rest & -> & Hno & Hk')].
  - left. by constructor.
  - right. exists (mo :: junk), head, rest. split_and!; [done| |done].
    by constructor.
Qed.

(** The tokens up to the closing brace that takes the depth to 0. *)
Lemma split_body toks : ∀ d,
  stays_open d toks = true ∨
  ∃ body close rest, toks = body ++ close :: rest ∧
    stays_open d body = true ∧ closes (depth_after d body) close.
Proof.
  induction toks as [|mo toks IH]; intros d; [by left|].
  simpl. destruct (decide (closes d mo)) as [Hc|Hc].
  { right. by exists [], mo, toks. }
  destruct (IH (d + delta mo)%Z) as [Ho|(body & close & rest & -> & Ho & Hc')].
  - by left.
  - right. exists (mo :: body), close, rest. split_and!; [done| |done].
    simpl. by rewrite decide_False.
Qed.

Lemma closes_balanced body close :
  stays_open 1 body = true → closes (depth_after 1 body) close →
  balanced body ∧ has_kind "CLOSE_PAREN" close.
Proof. intros Ho [Hk Hd]. split; [split; [done|lia]|done]. Qed.

(** Every token sequence is a sequence of complete declarations or ends
    inside a body. *)
Lemma scanned_or_open_ended p toks f o :
  heads_ok toks → (∃ f' o', scanned p toks f o f' o') ∨ open_ended toks.
Proof.
  remember (length toks) as n eqn:Hn. revert toks f o Hn.
  induction n as [n IH] using lt_wf_ind. intros toks f o -> Hok.
  destruct (split_head toks) as [Hno|(junk & head & rest & -> & Hno & Hk)].
  { left. exists f, o. by constructor. }
  destruct (split_body rest 1) as [Ho|(body & close & rest' & -> & Ho & Hc)].
  { right. by constructor. }
  apply closes_balanced in Hc as [Hbal Hcl]; [|done].
  apply heads_ok_app in Hok as [_ [Hhead Hok]%Forall_cons].
  destruct (Hhead Hk) as [[name Hname] _].
  apply heads_ok_app in Hok as [_ [_ Hok]%Forall_cons].
  destruct (IH (length rest')) with (toks := rest')
    (f := <[name := idents body]> f) (o := o ++ notices p body)
    as [(f' & o' & Hs)|Hopen]; [|done|done| |].
  - rewrite !length_app. simpl. rewrite length_app. simpl. lia.
  - left. exists f', o'. by eapply scanned_decl.
  - right. by apply open_later.
Qed.

Section declaration_facts.
Variable fs : files.

Lemma steps_then n m st c st1 c1 :
  steps fs n st c = Next st1 c1 → steps fs (n + m) st c = steps fs m st1 c1.
Proof. intros H. by rewrite steps_add, H. Qed.

(** A run that ends within [n] calls of [do] is the run of the loop. *)
Lemma steps_Context_run n : ∀ st c,
  match steps fs n st c with
  | Next _ _ => True
  | Halt c' => Context_run fs n st c = Some (Returned c')
  | Raise e c' => Context_run fs n st c = Some (Raised e c')
  end.
Proof.
  induction n as [|n IH]; intros st c; [done|].
  rewrite steps_S. simpl. destruct (do fs st c) as [st1 c1| |]; [apply IH|done..].
Qed.

Lemma close_paren_facts p close :
  has_kind "CLOSE_PAREN" close →
  delta close = (-1)%Z ∧ ident_of close = ∅ ∧ notice_of p close = [] ∧
  ¬ has_kind "FUNCSTART" close.
Proof.
  unfold delta, ident_of, notice_of, has_kind. intros Hk.
  rewrite !decide_False, decide_True by congruence.
  rewrite !decide_False by congruence. split_and!; [done..|congruence].
Qed.

(** One declaration at top level: the tokens before its head are passed
    over, the head opens the body, the closing brace of the body records the
    function. *)
Lemma declaration_steps c junk head name body close rest :
  tok_itr c = Some (junk ++ head :: body ++ close :: rest) →
  headless junk → has_kind "FUNCSTART" head →
  match_funcname (mo_group head) = Some name →
  contains_open_brace (mo_group head) = true →
  tokens_ok body → balanced body → has_kind "CLOSE_PAREN" close →
  ∃ c', steps fs (length junk + (2 + (length body + 2))) GetNextToken c
        = Next GetNextToken c' ∧
    tok_itr c' = Some rest ∧ path c' = path c ∧
    funcs c' = <[name := idents body]> (funcs c) ∧
    printed c' = printed c ++ notices (path c) body ∧
    ∃ tok, token c' = Some tok ∧ token_of close tok.
Proof.
  intros Hit Hjunk Hhead Hname Hbrace Hok [Hopen Hbal] Hclose.
  destruct (GetNextToken_steps fs junk c _ Hit Hjunk)
    as (c1 & Hst1 & Hit1 & Hp1 & Hf1 & _ & _ & _ & Hpr1 & _).
  destruct (get_next_token_cons c1 head _ Hit1)
    as (tok & c2 & Hg & [Hk Hv] & Hit2 & Hp2 & Hf2 & _ & _ & _ & _ & Hpr2).
  set (c3 := set_curr_func name ∅ 1 (set_token tok c2)).
  assert (Hst3 : steps fs 2 GetNextToken c1 = Next ReadFunc c3).
  { rewrite steps_S. unfold do at 1. rewrite Hg. cbn beta iota zeta.
    rewrite decide_True by (unfold has_kind in Hhead; congruence).
    rewrite steps_S. unfold do at 1. cbn [token set_token].
    by rewrite Hv, Hname, Hbrace. }
  destruct (ReadFunc_steps fs body c3 (close :: rest) ∅ 1)
    as (c4 & Hst4 & Hit4 & Hp4 & Hf4 & Hn4 & Hi4 & Hl4 & Hpr4 & _);
    [done..|].
  destruct (close_paren_facts (path c4) close Hclose) as (Hδ & Hic & Hnc & HnF).
  destruct (ReadFunc_step fs c4 close rest _ _ Hit4 Hi4 Hl4)
    as (c5 & Hdo5 & Hit5 & Hp5 & Hf5 & Hn5 & Hi5 & Hl5 & Hpr5 & Htok5); [done|].
  rewrite decide_True in Hdo5 by (split; [done|lia]).
  eexists.
  rewrite (steps_then _ _ _ _ _ _ Hst1), (steps_then 2 _ _ _ _ _ Hst3).
  rewrite (steps_then _ _ _ _ _ _ Hst4), steps_S, Hdo5, steps_S.
  unfold do at 1. rewrite Hn5, Hi5, Hn4. cbn [curr_func_name c3 set_curr_func].
  split; [reflexivity|]. cbn [tok_itr path funcs printed token set_funcs].
  rewrite Hit5, Hp5, Hf5, Hpr5, Hnc, Hic, Hp4, Hf4, Hpr4, app_nil_r.
  rewrite !(right_id_L ∅ (∪)), (left_id_L ∅ (∪)).
  subst c3. cbn [path funcs printed set_curr_func set_token].
  rewrite Hp2, Hf2, Hpr2, Hp1, Hf1, Hpr1. done.
Qed.

End declaration_facts.

(** A sequence of complete declarations is read to its end: the scan
    returns, with the table and the output the sequence stands for. *)
Lemma scanned_run fs p toks f o f' o' :
  scanned p toks f o f' o' →
  ∀ c, tok_itr c = Some toks → heads_ok toks →
       path c = p → funcs c = f → printed c = o →
  ∃ n c', steps fs n GetNextToken c = Halt c' ∧
          path c' = p ∧ funcs c' = f' ∧ printed c' = o' ∧ tok_itr c' = Some [].
Proof.
  induction 1 as [junk f o Hjunk
                 |junk head name body close rest f o f' o'
                    Hjunk Hhead Hname Hbal Hclose _ IH];
    intros c Hit Hok Hp Hf Ho.
  - destruct (GetNextToken_steps fs junk c [])
      as (c1 & Hst1 & Hit1 & Hp1 & Hf1 & _ & _ & _ & Hpr1 & _);
      [by rewrite app_nil_r|done|].
    exists (length junk + 2), c1.
    rewrite (steps_then _ _ _ _ _ _ _ Hst1), steps_S. unfold do at 1.
    unfold get_next_token. rewrite Hit1. simpl.
    split_and!; congruence.
  - apply heads_ok_app in Hok as [_ [Hh Hok]%Forall_cons].
    apply heads_ok_app in Hok as [Hbody [_ Hrest]%Forall_cons].
    destruct (Hh Hhead) as [_ Hbrace].
    destruct (declaration_steps fs c junk head name body close rest)
      as (c1 & Hst1 & Hit1 & Hp1 & Hf1 & Hpr1 & _);
      [done..|by apply heads_ok_tokens_ok|done|done|].
    destruct (IH c1) as (n & c' & Hst & Hres); [done|done|congruence..|].
    exists (length junk + (2 + (length body + 2)) + n), c'.
    by rewrite (steps_then _ _ _ _ _ _ _ Hst1).
Qed.

(** Tokens that end inside a body: the scan raises [StopIteration] there,
    holding the last token of the file. *)
Lemma open_ended_run fs toks :
  open_ended toks →
  ∀ c, tok_itr c = Some toks → heads_ok toks →
  ∃ n c' tok mo, steps fs n GetNextToken c = Raise StopIteration c' ∧
    path c' = path c ∧ token c' = Some tok ∧
    last toks = Some mo ∧ token_of mo tok.
Proof.
  induction 1 as [junk head body Hjunk Hhead Hopen
                 |junk head body close rest Hjunk Hhead Hbal Hclose _ IH];
    intros c Hit Hok.
  - apply heads_ok_app in Hok as [_ [Hh Hbody]%Forall_cons].
    destruct (Hh Hhead) as [[name Hname] Hbrace].
    destruct (GetNextToken_steps fs junk c _ Hit Hjunk)
      as (c1 & Hst1 & Hit1 & Hp1 & _).
    destruct (get_next_token_cons c1 head _ Hit1)
      as (tok & c2 & Hg & [Hk Hv] & Hit2 & Hp2 & _).
    set (c3 := set_curr_func name ∅ 1 (set_token tok c2)).
    assert (Hst3 : steps fs 2 GetNextToken c1 = Next ReadFunc c3).
    { rewrite steps_S. unfold do at 1. rewrite Hg. cbn beta iota zeta.
      rewrite decide_True by (unfold has_kind in Hhead; congruence).
      rewrite steps_S. unfold do at 1. cbn [token set_token].
      by rewrite Hv, Hname, Hbrace. }
    destruct (ReadFunc_steps fs body c3 [] ∅ 1)
      as (c4 & Hst4 & Hit4 & Hp4 & _ & _ & _ & _ & _ & Hlast);
      [by rewrite app_nil_r|done|done|by apply heads_ok_tokens_ok|done|].
    assert (∃ tok' mo, token c4 = Some tok' ∧
              last (junk ++ head :: body) = Some mo ∧ token_of mo tok')
      as (tok' & mo & Htok' & Hmo & Hof).
    { rewrite last_app, last_cons. unfold last_token in Hlast.
      destruct (last body) as [mo|].
      - destruct Hlast as (tok' & ? & ?). by exists tok', mo.
      - exists tok, head. by rewrite Hlast. }
    exists (length junk + (2 + (length body + 1))), c4, tok', mo.
    rewrite (steps_then _ _ _ _ _ _ _ Hst1), (steps_then _ 2 _ _ _ _ _ Hst3).
    rewrite (steps_then _ _ _ _ _ _ _ Hst4), steps_S. unfold do at 1.
    unfold get_next_token. rewrite Hit4.
    split_and!; [done| |done..]. rewrite Hp4. subst c3. simpl. congruence.
  - apply heads_ok_app in Hok as [_ [Hh Hok]%Forall_cons].
    apply heads_ok_app in Hok as [Hbody [_ Hrest]%Forall_cons].
    destruct (Hh Hhead) as [[name Hname] Hbrace].
    destruct (declaration_steps fs c junk head name body close rest)
      as (c1 & Hst1 & Hit1 & Hp1 & _);
      [done..|by apply heads_ok_tokens_ok|done|done|].
    destruct (IH c1) as (n & c' & tok & mo & Hst & Hp & Htok & Hmo & Hof);
      [done..|].
    exists (length junk + (2 + (length body + 2)) + n), c', tok, mo.
    rewrite (steps_then _ _ _ _ _ _ _ Hst1).
    split_and!; [done|congruence|done| |done].
    rewrite last_app, last_cons, last_app, last_cons, Hmo. done.
Qed.

(** A scan that ends within [n] calls of [do] is the scan [FileContext.run]
    makes. *)
Lemma FileContext_run_steps fs p n :
  match steps fs n Start (new_FileContext p) with
  | Next _ _ => True
  | Halt c => FileContext_run fs p = Some (handle (Returned c))
  | Raise e c => FileContext_run fs p = Some (handle (Raised e c))
  end.
Proof.
  pose proof (steps_Context_run fs n Start (new_FileContext p)) as Hn.
  destruct (FileContext_run_total fs p) as [r Hr]. unfold FileContext_run in *.
  destruct (Context_run fs (run_budget fs p) _ _) as [r'|] eqn:Hr'; [|done].
  destruct (steps fs n Start _) as [| |]; [done|..];
    by rewrite (Context_run_det fs _ _ _ _ _ _ Hr' Hn).
Qed.

Lemma scan_from_tokens fs p data n :
  fs p = Some data →
  steps fs (2 + n) Start (new_FileContext p)
  = steps fs n GetNextToken (set_tok_itr (finditer data) (new_FileContext p)).
Proof.
  intros Hfs. change (2 + n) with (S (S n)).
  rewrite steps_S. cbn [do]. rewrite steps_S. cbn [do path new_FileContext].
  by rewrite Hfs.
Qed.

Lemma scanned_FileContext_run fs p data f o :
  fs p = Some data → scanned p (finditer data) ∅ [] f o →
  ∃ c, FileContext_run fs p = Some (Returned c, []) ∧
       funcs c = f ∧ printed c = o ∧ tok_itr c = Some [].
Proof.
  intros Hfs Hs.
  destruct (scanned_run fs p _ _ _ _ _ Hs
              (set_tok_itr (finditer data) (new_FileContext p)))
    as (n & c & Hst & _ & Hf & Ho & Hit); [done| |done..|].
  { by apply (heads_ok_finditer data []). }
  exists c. pose proof (FileContext_run_steps fs p (2 + n)) as Hrun.
  by rewrite (scan_from_tokens fs p data n Hfs), Hst in Hrun.
Qed.

Lemma open_ended_FileContext_run fs p data :
  fs p = Some data → open_ended (finditer data) →
  ∃ c tok mo,
    FileContext_run fs p = Some (Raised StopIteration c, [error_message p tok]) ∧
    token c = Some tok ∧ last (finditer data) = Some mo ∧ token_of mo tok.
Proof.
  intros Hfs Ho.
  destruct (open_ended_run fs _ Ho
              (set_tok_itr (finditer data) (new_FileContext p)))
    as (n & c & tok & mo & Hst & Hp & Htok & Hmo & Hof); [done| |].
  { by apply (heads_ok_finditer data []). }
  exists c, tok, mo. pose proof (FileContext_run_steps fs p (2 + n)) as Hrun.
  rewrite (scan_from_tokens fs p data n Hfs), Hst in Hrun.
  simpl in Hrun. by rewrite Htok, Hp in Hrun.
Qed.

(** X6.  The scan of a readable file returns exactly when its tokens are a
    sequence of complete declarations, each one a head at top level, the
    brace-balanced tokens after it and the closing brace; the table it leaves
    maps the name of each head to the identifiers of its body (a later
    declaration of a name replacing an earlier one), and the output holds the
    notices for the heads inside bodies. *)
Theorem scan_declarations fs p data f o :
  fs p = Some data →
  (∃ c, FileContext_run fs p = Some (Returned c, []) ∧
        funcs c = f ∧ printed c = o)
  ↔ scanned p (finditer data) ∅ [] f o.
Proof.
  intros Hfs. split.
  - intros (c & Hrun & <- & <-).
    destruct (scanned_or_open_ended p (finditer data) ∅ [])
      as [(f' & o' & Hs)|Ho]; [by apply (heads_ok_finditer data [])|..].
    + destruct (scanned_FileContext_run fs p data f' o' Hfs Hs)
        as (c' & Hrun' & <- & <- & _).
      rewrite Hrun in Hrun'. by injection Hrun' as <-.
    + destruct (open_ended_FileContext_run fs p data Hfs Ho)
        as (c' & tok & mo & Hrun' & _).
      by rewrite Hrun in Hrun'.
  - intros Hs.
    destruct (scanned_FileContext_run fs p data f o Hfs Hs) as (c & ? & ? & ? & _).
    by exists c.
Qed.

(** X7.  The ways a scan can end.  A file that cannot be read: the handler
    of [FileContext.run] has no token to report and ends on
    [AttributeError], with nothing written.  A readable file: the scan
    returns with all tokens read, or, exactly when the tokens end inside a
    body, raises [StopIteration] with the one message about the last token of
    the file.  No other exception leaves the scan. *)
Theorem scan_outcomes fs p :
  match fs p with
  | None =>
      FileContext_run fs p = Some (Raised AttributeError (new_FileContext p), [])
  | Some data =>
      (¬ open_ended (finditer data) ∧
       ∃ c, FileContext_run fs p = Some (Returned c, []) ∧ tok_itr c = Some [])
      ∨
      (open_ended (finditer data) ∧
       ∃ c tok mo,
         FileContext_run fs p
         = Some (Raised StopIteration c, [error_message p tok]) ∧
         token c = Some tok ∧
         last (finditer data) = Some mo ∧ token_of mo tok)
  end.
Proof.
  destruct (fs p) as [data|] eqn:Hfs.
  - destruct (scanned_or_open_ended p (finditer data) ∅ [])
      as [(f' & o' & Hs)|Ho]; [by apply (heads_ok_finditer data [])|..].
    + left.
      destruct (scanned_FileContext_run fs p data f' o' Hfs Hs)
        as (c & Hrun & _ & _ & Hit).
      split; [|by exists c]. intros Ho.
      destruct (open_ended_FileContext_run fs p data Hfs Ho)
        as (c' & tok & mo & Hrun' & _).
      by rewrite Hrun in Hrun'.
    + right. split; [done|]. by apply open_ended_FileContext_run.
  - unfold FileContext_run, run_budget. rewrite Hfs. simpl. by rewrite Hfs.
Qed.

Lemma scan_declarations_witness :
  scanned "a.ts" (finditer nested_once) ∅ []
    {["outer" := {["helper"]}; "helper" := ∅]} [nested_notice "inner" "a.ts"].
Proof.
  apply (scan_declarations (one_file "a.ts" nested_once) "a.ts" nested_once);
    [reflexivity|].
  eexists. split; [vm_compute; reflexivity|]. split; vm_compute; reflexivity.
Defined.

(** ** Line and column of the tokens *)

Lemma newlines_snoc pre mo :
  newlines (pre ++ [mo])
  = newlines pre + (if decide (has_kind "NEWLINE" mo) then 1 else 0).
Proof.
  unfold newlines. rewrite filter_app, length_app. f_equal.
  rewrite filter_cons, filter_nil. by case_decide.
Qed.

Lemma line_start_after_snoc pre mo :
  line_start_after (pre ++ [mo])
  = if decide (has_kind "NEWLINE" mo) then mo_end mo else line_start_after pre.
Proof. unfold line_start_after. by rewrite foldl_snoc. Qed.

Lemma get_next_token_reading data c tok c1 :
  reading data c → get_next_token c = inr (tok, c1) →
  reading data (set_token tok c1) ∧
  path c1 = path c ∧ funcs c1 = funcs c ∧ printed c1 = printed c.
Proof.
  intros (pre & toks & Hd & Hit & Hln & Hls & _).
  unfold get_next_token. rewrite Hit. destruct toks as [|mo rest]; [done|].
  cbn [kind].
  assert (Hd' : finditer data = (pre ++ [mo]) ++ rest)
    by by rewrite <- (assoc_L (++)).
  case_decide as Hk; intros [= <- <-]; (split; [|done]);
    exists (pre ++ [mo]), rest; cbn [tok_itr line_num line_start token
      set_token set_newline set_tok_itr];
    rewrite newlines_snoc, line_start_after_snoc;
    [rewrite !decide_True by done|rewrite !decide_False by done];
    (split_and!; [done|done|lia|done|]);
    exists pre, mo; (split; [done|]);
    unfold token_at; by rewrite Hln, Hls.
Qed.


Lemma reading_ext data c c' :
  reading data c → tok_itr c' = tok_itr c → line_num c' = line_num c →
  line_start c' = line_start c → token c' = token c → reading data c'.
Proof. unfold reading. by intros H -> -> -> ->. Qed.

(** Every call of [do] keeps the position of the scan. *)
Lemma pos_inv_do fs p data st c :
  fs p = Some data → path c = p → pos_inv data st c →
  path (ctx_of (do fs st c)) = p ∧
  match do fs st c with
  | Next st' c' => pos_inv data st' c'
  | Halt c' | Raise _ c' => fresh c' ∨ reading data c'
  end.
Proof.
  intros Hfs Hp Hinv. destruct st; cbn [do pos_inv] in *.
  - done.
  - rewrite Hp, Hfs. split; [done|]. destruct Hinv as (_ & Htok & Hln & Hls).
    exists [], (finditer data). cbn. rewrite Htok. done.
  - destruct (get_next_token c) as [e|[tok c1]] eqn:Hg.
    + destruct e; cbn; auto.
    + destruct (get_next_token_reading data c tok c1 Hinv Hg) as (Hr & Hp1 & _).
      case_decide; cbn; (split; [congruence|done]).
  - destruct (token c); [|cbn; auto].
    destruct (match_funcname _); cbn; [|auto].
    split; [done|]. by eapply reading_ext.
  - destruct (get_next_token c) as [e|[tok c1]] eqn:Hg; [cbn; auto|].
    destruct (get_next_token_reading data c tok c1 Hinv Hg) as (Hr & Hp1 & _).
    cbn zeta.
    repeat first [case_decide | case_match]; cbn;
      (split; [congruence|]); try right; by eapply reading_ext.
  - repeat case_match; cbn; (split; [done|]); auto.
  - cbn. auto.
  - cbn. auto.
Qed.

Lemma pos_inv_steps fs p data n : ∀ st c,
  fs p = Some data → path c = p → pos_inv data st c →
  fresh (ctx_of (steps fs n st c)) ∨ reading data (ctx_of (steps fs n st c)).
Proof.
  induction n as [|n IH]; intros st c Hfs Hp Hinv.
  - cbn. destruct st; cbn in Hinv; auto.
  - rewrite steps_S.
    destruct (pos_inv_do fs p data st c Hfs Hp Hinv) as [Hp' Hinv'].
    destruct (do fs st c) as [st1 c1| |]; [by apply IH|done..].
Qed.

Lemma line_start_after_bound pre :
  line_start_after pre = 0 ∨ ∃ mo, mo ∈ pre ∧ line_start_after pre = mo_end mo.
Proof.
  induction pre as [|mo pre IH] using rev_ind; [by left|].
  rewrite line_start_after_snoc. case_decide.
  - right. exists mo. split; [|done]. apply elem_of_app. right. left.
  - destruct IH as [?|(mo' & ? & ?)]; [by left|].
    right. exists mo'. split; [|done]. apply elem_of_app. by left.
Qed.

Lemma sorted_before (R : Match → Match → Prop) pre mo toks x :
  StronglySorted R (pre ++ mo :: toks) → x ∈ pre → R x mo.
Proof.
  induction pre as [|y pre IH]; [by intros _ ?%elem_of_nil|].
  intros [Hs Hall]%StronglySorted_inv [->|Hin]%elem_of_cons.
  - rewrite Forall_forall in Hall. apply Hall, elem_of_app. right. left.
  - by apply IH.
Qed.

(** X5.  The token a scan holds at any time was built from a match of the
    file: its line is one more than the number of [NEWLINE] tokens read
    before it, its column is the distance of its start from the end of
    the last of them (from the start of the text when there is none), and
    the column is never negative. *)
Theorem token_positions fs p data n tok :
  fs p = Some data → token (ctx_after fs p n) = Some tok →
  ∃ pre mo toks, finditer data = pre ++ mo :: toks ∧
    kind tok = mo_lastgroup mo ∧ value tok = mo_group mo ∧
    line tok = 1 + newlines pre ∧
    column tok = (Z.of_nat (mo_start mo) - Z.of_nat (line_start_after pre))%Z ∧
    (0 ≤ column tok)%Z.
Proof.
  intros Hfs Htok. unfold ctx_after in Htok.
  destruct (pos_inv_steps fs p data n Start (new_FileContext p))
    as [(_ & Hnone & _)|(pre & toks & Hd & _ & _ & _ & Hcur)]; [done..| |].
  { change (token (ctx_of (steps fs n Start (new_FileContext p))) = None) in Hnone.
    unfold ctx_of in Hnone. congruence. }
  change (match token (ctx_of (steps fs n Start (new_FileContext p))) with
          | None => pre = []
          | Some tok => ∃ pre' mo, pre = pre' ++ [mo] ∧ tok = token_at pre' mo
          end) in Hcur.
  unfold ctx_of in Hcur. rewrite Htok in Hcur.
  destruct Hcur as (pre' & mo & -> & ->).
  rewrite <- (assoc_L (++)) in Hd. exists pre', mo, toks.
  split_and!; try done. cbn.
  pose proof (finditer_from_sorted (list_ascii_of_string data) 0 0) as Hs.
  fold (finditer data) in Hs. rewrite Hd in Hs.
  destruct (line_start_after_bound pre') as [->|(x & Hx & ->)]; [lia|].
  pose proof (sorted_before _ _ _ _ _ Hs Hx). simpl in *. lia.
Qed.

Lemma token_positions_witness :
  ∃ pre mo toks, finditer unbalanced = pre ++ mo :: toks ∧
    kind (mkToken (Some "IDENTIFIER") "g" 2 2) = mo_lastgroup mo ∧
    value (mkToken (Some "IDENTIFIER") "g" 2 2) = mo_group mo ∧
    line (mkToken (Some "IDENTIFIER") "g" 2 2) = 1 + newlines pre ∧
    column (mkToken (Some "IDENTIFIER") "g" 2 2)
    = (Z.of_nat (mo_start mo) - Z.of_nat (line_start_after pre))%Z ∧
    (0 ≤ column (mkToken (Some "IDENTIFIER") "g" 2 2))%Z.
Proof.
  apply (token_positions (one_file "a.ts" unbalanced) "a.ts" unbalanced 6);
    [reflexivity|vm_compute; reflexivity].
Defined.

(** C5.  When the tokens of a file run out while the scan is inside a
    function body (the machine is in [ReadFunc] and no token still to come
    takes the brace depth to 0), the scan fails with the exception of the
    exhausted iterator: nothing is committed to the file's table after that
    point, exactly one line goes to standard error, [Error found after
    <path>:<line>:<column>: '<text>'] with the line, the column and the text
    of the last token of the file (the line is 1 plus the [NEWLINE] tokens
    before it, the column its distance from the end of the last of them),
    and the loop over the files ends there, whatever files were still to be
    scanned. *)
Theorem unbalanced_braces_abort fs p data n c body d :
  fs p = Some data →
  steps fs n Start (new_FileContext p) = Next ReadFunc c →
  tok_itr c = Some body → paren_level c = Some d →
  stays_open d body = true →
  ∃ c' pre mo tok msg,
    finditer data = pre ++ [mo] ∧ last (finditer data) = Some mo ∧
    tok = mkToken (mo_lastgroup mo) (mo_group mo) (1 + newlines pre)
            (Z.of_nat (mo_start mo) - Z.of_nat (line_start_after pre)) ∧
    msg = "Error found after " +:+ p +:+ ":" +:+ pretty (1 + newlines pre)
          +:+ ":"
          +:+ pretty (Z.of_nat (mo_start mo) - Z.of_nat (line_start_after pre))%Z
          +:+ ": '" +:+ mo_group mo +:+ "'" ∧
    FileContext_run fs p = Some (Raised StopIteration c', [msg]) ∧
    token c' = Some tok ∧
    funcs c' = funcs c ∧
    ∀ ps t, scan_all fs (p :: ps) t
            = Some (Aborted StopIteration (t_stdout t ++ printed c') [msg]).
Proof.
  intros Hfs Hsteps Hit Hd Hopen.
  pose proof (scan_inv_steps fs p data Hfs n _ _ _ _ (scan_inv_start p data) Hsteps)
    as (Hp & pre0 & toks & Hdata & Hit' & Hlast & _ & [ids Hids] & _ & Hpre).
  rewrite Hit in Hit'. injection Hit' as <-.
  destruct (ReadFunc_steps fs body c [] ids d) as
    (c1 & Hst & Hit1 & Hp1 & Hf1 & _ & _ & _ & _ & Hlast1);
    [by rewrite app_nil_r|done|done|by eapply tokens_ok_finditer|done|].
  assert (Hall : steps fs (n + length body) Start (new_FileContext p)
                 = Next ReadFunc c1) by by rewrite steps_add, Hsteps.
  assert (Hrun : Context_run fs (n + (length body + 1)) Start (new_FileContext p)
                 = Some (Raised StopIteration c1)).
  { rewrite (steps_run fs n _ _ _ _ c Hsteps).
    rewrite (steps_run fs (length body) 1 _ _ _ c1 Hst).
    simpl. unfold get_next_token. by rewrite Hit1. }
  destruct (pos_inv_steps fs p data (n + length body) Start (new_FileContext p))
    as [Hfresh|Hread]; [done|done|done| |]; rewrite Hall in *; cbn [ctx_of] in *.
  { destruct Hfresh as [Hnone _]. congruence. }
  destruct Hread as (pre & toks' & Hd' & Hit1' & _ & _ & Hcur).
  rewrite Hit1 in Hit1'. injection Hit1' as <-. rewrite app_nil_r in Hd'.
  destruct (token c1) as [tok|] eqn:Htok.
  2:{ rewrite Hcur, Hdata in Hd'. by destruct pre0. }
  destruct Hcur as (pre' & mo & -> & ->).
  assert (Hfile : FileContext_run fs p
                  = Some (Raised StopIteration c1,
                          [error_message p (token_at pre' mo)])).
  { destruct (FileContext_run_total fs p) as [r Hr]. rewrite Hr.
    unfold FileContext_run in Hr.
    destruct (Context_run fs (run_budget fs p) Start _) as [r'|] eqn:Hr'; [|done].
    rewrite (Context_run_det fs _ _ _ _ _ _ Hr' Hrun) in Hr.
    simpl in Hr. rewrite Htok, Hp1, Hp in Hr. by injection Hr as <-. }
  exists c1, pre', mo, (token_at pre' mo), (error_message p (token_at pre' mo)).
  split_and!; [done|by rewrite Hd', last_snoc|done|done|done|done|done|].
  intros ps t. simpl. by rewrite Hfile.
Qed.

Lemma unbalanced_braces_abort_witness :
  ∃ c',
    FileContext_run (one_file "a.ts" unbalanced) "a.ts"
    = Some (Raised StopIteration c',
            ["Error found after a.ts:2:6: '" +:+ nl +:+ "'"]) ∧
    token c' = Some (mkToken (Some "NEWLINE") nl 2 6) ∧
    funcs c' = ∅ ∧
    ∀ ps t, scan_all (one_file "a.ts" unbalanced) ("a.ts" :: ps) t
            = Some (Aborted StopIteration (t_stdout t ++ printed c')
                      ["Error found after a.ts:2:6: '" +:+ nl +:+ "'"]).
Proof.
  destruct (unbalanced_braces_abort (one_file "a.ts" unbalanced) "a.ts" unbalanced 4
              (ctx_after (one_file "a.ts" unbalanced) "a.ts" 4)
              [ mkMatch 13 14 nl (Some "NEWLINE");
                mkMatch 16 17 "g" (Some "IDENTIFIER");
                mkMatch 20 21 nl (Some "NEWLINE") ] 1)
    as (c' & pre & mo & tok & msg & Hd & _ & -> & -> & Hrun & Htok & Hf & Hall);
    [vm_compute; reflexivity..|].
  change (finditer unbalanced)
    with ([ mkMatch 0 13 "function f(){" (Some "FUNCSTART");
            mkMatch 13 14 nl (Some "NEWLINE");
            mkMatch 16 17 "g" (Some "IDENTIFIER") ]
          ++ [mkMatch 20 21 nl (Some "NEWLINE")]) in Hd.
  apply app_inj_tail in Hd as [<- <-].
  exists c'. split_and!; done.
Defined.

(** X8.  The loop of [Context.run] ends on every file: for a text of [n]
    characters it makes at most [2 * n + 4] calls of [do] (four for a file
    that cannot be read), and the outcome is the same for every larger
    number of calls allowed. *)
Theorem scan_terminates fs p :
  ∃ r, ∀ fuel, run_budget fs p ≤ fuel →
         Context_run fs fuel Start (new_FileContext p) = Some r.
Proof.
  destruct (FileContext_run_total fs p) as [r Hr]. unfold FileContext_run in Hr.
  destruct (Context_run fs (run_budget fs p) _ _) as [r'|] eqn:Hr'; [|done].
  exists r'. intros fuel Hfuel. by eapply Context_run_mono.
Qed.

(** ** The two tables after the aggregation loop *)

Lemma FileContext_run_Returned fs p c err :
  FileContext_run fs p = Some (Returned c, err) → err = [].
Proof.
  unfold FileContext_run. destruct (Context_run _ _ _ _) as [[c'|e c']|]; simpl;
    [by intros [= _ <-]| |done].
  by destruct (token c').
Qed.

Lemma scan_all_tables fs paths : ∀ t0 t,
  scan_all fs paths t0 = Some (Completed t) →
  ∃ cs, Forall2 (λ p c, FileContext_run fs p = Some (Returned c, [])) paths cs ∧
    t_stdout t = t_stdout t0 ++ mjoin (printed <$> cs) ∧
    (dom (t_func_paths t0) = dom (t_funcs t0) →
     dom (t_func_paths t) = dom (t_funcs t)) ∧
    ∀ name ids, t_funcs t !! name = Some ids →
      (t_funcs t0 !! name = Some ids ∧
       t_func_paths t !! name = t_func_paths t0 !! name) ∨
      ∃ i p c, paths !! i = Some p ∧ cs !! i = Some c ∧
               t_func_paths t !! name = Some p ∧ funcs c !! name = Some ids.
Proof.
  induction paths as [|p ps IH]; intros t0 t; simpl.
  - intros [= <-]. exists []. split_and!; [constructor|by rewrite app_nil_r|done|].
    intros name ids ?. by left.
  - destruct (FileContext_run fs p) as [[[c|e c] err]|] eqn:Hp; [|done..].
    pose proof (FileContext_run_Returned _ _ _ _ Hp) as ->.
    intros (cs & Hcs & Hout & Hdom & Hfrom)%IH. exists (c :: cs).
    split_and!.
    + by constructor.
    + rewrite Hout. simpl. by rewrite (assoc_L (++)).
    + intros Hd0. apply Hdom. simpl.
      rewrite !dom_union_L, dom_gset_to_gmap, Hd0. done.
    + intros name ids Hname.
      destruct (Hfrom name ids Hname) as [[Hm Hpath]|(i & q & c' & ? & ? & ? & ?)].
      * simpl in Hm, Hpath. apply lookup_union_Some_raw in Hm as [Hc|[Hc H0]].
        -- right. exists 0, p, c. split_and!; [done..| |done].
           rewrite Hpath. apply lookup_union_Some_l, lookup_gset_to_gmap_Some.
           split; [|done]. by apply elem_of_dom.
        -- left. split; [done|]. rewrite Hpath. apply lookup_union_r.
           apply lookup_gset_to_gmap_None. by apply not_elem_of_dom.
      * right. by exists (S i), q, c'.
Qed.

(** X9.  When the aggregation loop completes, every file was scanned to its
    end, the output is the output of the scans in the order of the paths,
    the two tables have the same names, and each name is recorded with the
    identifier set one of the files gave it and with the path of that very
    file. *)
Theorem aggregated_tables fs paths t :
  scan_all fs paths no_tables = Some (Completed t) →
  ∃ cs, Forall2 (λ p c, FileContext_run fs p = Some (Returned c, [])) paths cs ∧
    t_stdout t = mjoin (printed <$> cs) ∧
    dom (t_func_paths t) = dom (t_funcs t) ∧
    ∀ name ids, t_funcs t !! name = Some ids →
      ∃ i p c, paths !! i = Some p ∧ cs !! i = Some c ∧
               t_func_paths t !! name = Some p ∧ funcs c !! name = Some ids.
Proof.
  intros (cs & Hcs & Hout & Hdom & Hfrom)%scan_all_tables. exists cs.
  split_and!; [done|done|by apply Hdom|].
  intros name ids Hname. by destruct (Hfrom name ids Hname) as [[? _]|?].
Qed.

Lemma aggregated_tables_witness :
  ∃ cs, Forall2 (λ p c, FileContext_run scenario_D p = Some (Returned c, []))
          ["one.ts"; "two.ts"] cs ∧
    t_stdout (mkTables {["dup" := {["second"]}]} {["dup" := "two.ts"]} [])
    = mjoin (printed <$> cs) ∧
    dom (t_func_paths (mkTables {["dup" := {["second"]}]} {["dup" := "two.ts"]} []))
    = dom (t_funcs (mkTables {["dup" := {["second"]}]} {["dup" := "two.ts"]} [])) ∧
    ∀ name ids,
      t_funcs (mkTables {["dup" := {["second"]}]} {["dup" := "two.ts"]} []) !! name
      = Some ids →
      ∃ i p c, ["one.ts"; "two.ts"] !! i = Some p ∧ cs !! i = Some c ∧
        t_func_paths (mkTables {["dup" := {["second"]}]} {["dup" := "two.ts"]} [])
          !! name = Some p ∧
        funcs c !! name = Some ids.
Proof.
  apply (aggregated_tables scenario_D ["one.ts"; "two.ts"]).
  vm_compute. reflexivity.
Defined.

(** ** The filter loop, once more *)

Lemma filter_deps_fixed (funcs : gmap string (gset string)) :
  filter_deps funcs = funcs ↔ closed funcs.
Proof.
  split.
  - intros <-. apply filter_deps_closed.
  - intros Hc. apply map_eq. intros k. rewrite filter_deps_lookup.
    destruct (funcs !! k) as [deps|] eqn:Hk; [|done]. simpl. f_equal.
    apply set_eq. intros d. rewrite elem_of_filter.
    specialize (Hc k deps Hk). set_solver.
Qed.

(** X10.  The filter loop changes nothing in a table that has no dangling
    dependency, and only in such a table; so running it a second time
    changes nothing. *)
Theorem filter_deps_idempotent (funcs : gmap string (gset string)) :
  (filter_deps funcs = funcs ↔ closed funcs) ∧
  filter_deps (filter_deps funcs) = filter_deps funcs.
Proof.
  split; [apply filter_deps_fixed|].
  apply filter_deps_fixed, filter_deps_closed.
Qed.

(** ** Whatever the recursion limit *)

Lemma max_rest_sound (f : string → memo → exn + nat * memo)
    (lvl : string → nat) (I : memo → Prop) ks :
  (∀ k m v m', k ∈ ks → I m → f k m = inr (v, m') → v = lvl k ∧ I m') →
  ∀ acc m v m', I m → max_rest f ks acc m = inr (v, m') →
    v = acc `max` max_list (lvl <$> ks) ∧ I m'.
Proof.
  induction ks as [|k ks IH]; intros Hf acc m v m' Hm; simpl.
  - intros [= <- <-]. by rewrite Nat.max_0_r.
  - destruct (f k m) as [e|[v1 m1]] eqn:Hk; [done|].
    destruct (Hf k m v1 m1) as [-> Hm1]; [left|done..|].
    intros [-> Hm']%IH; [|intros ?????; apply Hf; by right|done].
    split; [|done]. symmetry. apply Nat.max_assoc.
Qed.

Lemma max_map_sound (f : string → memo → exn + nat * memo)
    (lvl : string → nat) (I : memo → Prop) ks :
  (∀ k m v m', k ∈ ks → I m → f k m = inr (v, m') → v = lvl k ∧ I m') →
  ∀ m v m', I m → max_map f ks m = inr (v, m') →
    v = max_list (lvl <$> ks) ∧ I m'.
Proof.
  destruct ks as [|k ks]; [done|]. intros Hf m v m' Hm. simpl.
  destruct (f k m) as [e|[v1 m1]] eqn:Hk; [done|].
  destruct (Hf k m v1 m1) as [-> Hm1]; [left|done..|].
  apply (max_rest_sound f lvl I ks); [|done].
  intros ?????. apply Hf. by right.
Qed.

Lemma cache_ok_insert (g : gmap string (gset string)) (lvl : string → nat)
    c l f v :
  v = lvl f → cache_ok g lvl (mkMemo c l) →
  cache_ok g lvl (mkMemo (<[(dom g, f) := v]> c) l).
Proof.
  intros -> Hc k v'. simpl. destruct (decide (k = f)) as [->|Hne].
  - rewrite lookup_insert_eq. congruence.
  - rewrite lookup_insert_ne by congruence. apply Hc.
Qed.

Section get_level_sound.
Variable g : gmap string (gset string).
Hypothesis Hclosed : closed g.
Hypothesis Hacyc : acyclic g.

(** Whatever the recursion limit: a level [get_level] returns on a graph
    without cycles is the level of the specification. *)
Lemma get_level_sound : ∀ depth f m v m',
  cache_ok g (height (size g) g) m →
  get_level depth g f m = inr (v, m') →
  v = height (size g) g f ∧ cache_ok g (height (size g) g) m'.
Proof.
  induction depth as [|depth IH]; intros f m v m' Hm; [done|].
  simpl. unfold memoize_level.
  destruct (cache m !! (dom g, f)) as [[|v0]|] eqn:Hc.
  2:{ intros [= <- <-]. split; [|done]. by apply Hm. }
  all: unfold get_level_func;
    destruct (g !! f) as [deps|] eqn:Hf; [|done];
    rewrite (height_unfold g Hclosed f deps Hacyc Hf);
    case_decide as Hsize;
    [intros [= <- <-]; split; [done|]; apply cache_ok_insert; [|done];
     rewrite (height_unfold g Hclosed f deps) by done; by rewrite decide_True|];
    destruct (max_map _ _ _) as [e|[v1 m1]] eqn:Hmax; [done|];
    intros [= <- <-];
    apply (max_map_sound _ (height (size g) g) (cache_ok g (height (size g) g)))
      in Hmax as [-> Hm1]; [|intros ?????; by eapply IH|done];
    split; [done|]; destruct m1; apply cache_ok_insert; [|done];
    rewrite (height_unfold g Hclosed f deps) by done; by rewrite decide_False.
Qed.

End get_level_sound.

Lemma levels_loop_sound depth (g : gmap string (gset string))
    (lvl : string → nat) (I : memo → Prop) names :
  (∀ f m v m', f ∈ names → I m → get_level depth g f m = inr (v, m') →
     v = lvl f ∧ I m') →
  ∀ levels m lv m', I m →
    levels_loop depth g names levels m = inr (lv, m') →
    lv = foldl (λ acc f, add_level (lvl f) f acc) levels names ∧ I m'.
Proof.
  induction names as [|n names IH]; intros Hf levels m lv m' Hm; simpl.
  - by intros [= <- <-].
  - destruct (get_level depth g n m) as [e|[v1 m1]] eqn:Hn; [done|].
    destruct (Hf n m v1 m1) as [-> Hm1]; [left|done..|].
    apply IH; [|done]. intros ?????. apply Hf. by right.
Qed.

(** The level loop on a table without dangling dependencies: it fails on
    [RecursionError] only, and when it returns the graph has no cycle and
    the level map holds every function under its level. *)
Lemma compute_levels_sound depth (g : gmap string (gset string)) :
  closed g →
  match compute_levels depth g with
  | inl e => e = RecursionError
  | inr (levels, m) =>
      acyclic g ∧
      levels = foldl (λ acc f, add_level (height (size g) g f) f acc) ∅
                 (map_to_list g).*1
  end.
Proof.
  intros Hclosed. unfold compute_levels.
  pose proof (levels_loop_overflow g Hclosed depth (map_to_list g).*1 ∅ new_memo)
    as Hloop.
  destruct (levels_loop depth g _ ∅ new_memo) as [e|[lv m]] eqn:Hlv.
  - apply Hloop; [intros f; apply elem_of_keys|].
    intros k v. simpl. by rewrite lookup_empty.
  - destruct Hloop as [Hno _]; [intros f; apply elem_of_keys| |].
    { intros k v. simpl. by rewrite lookup_empty. }
    assert (Hacyc : acyclic g).
    { intros c Hc. apply (Hno c).
      - apply elem_of_keys.
        inversion Hc as [? ? He|? ? ? He _]; subst;
          apply (edge_dom g Hclosed) in He as [? _]; done.
      - exists c. split; [apply rtc_refl|done]. }
    split; [done|].
    eapply (levels_loop_sound depth g (height (size g) g)
              (cache_ok g (height (size g) g))) in Hlv as [-> _]; [done| |].
    + intros f m0 v m' _. by apply get_level_sound.
    + intros k v. simpl. by rewrite lookup_empty.
Qed.

(** X12.  The level loop after the filter loop, whatever the recursion
    limit: the only exception is [RecursionError] (no [KeyError] for a
    missing function, no [ValueError] for an empty [max]); and when the loop
    returns, the filtered graph has no cycle and a function is in the set of
    level [l] exactly when the longest chain of dependencies below it has
    [l] edges. *)
Theorem compute_levels_outcomes depth (funcs : gmap string (gset string)) :
  match compute_levels depth (filter_deps funcs) with
  | inl e => e = RecursionError
  | inr (levels, _) =>
      acyclic (filter_deps funcs) ∧
      ∀ f l, f ∈ default ∅ (levels !! l)
             ↔ f ∈ dom funcs ∧
               height (size (filter_deps funcs)) (filter_deps funcs) f = l
  end.
Proof.
  pose proof (compute_levels_sound depth (filter_deps funcs)
                (filter_deps_closed funcs)) as Hs.
  destruct (compute_levels depth (filter_deps funcs)) as [e|[levels m]]; [done|].
  destruct Hs as [Hacyc ->]. split; [done|]. intros f l.
  rewrite elem_of_foldl_add_level, lookup_empty, elem_of_keys, filter_deps_dom.
  simpl. set_solver.
Qed.

Lemma max_list_attained (ns : list nat) : ns ≠ [] → max_list ns ∈ ns.
Proof.
  induction ns as [|n ns IH]; [done|]. intros _. simpl.
  destruct ns as [|n' ns'].
  - simpl. rewrite Nat.max_0_r. left.
  - destruct (Nat.max_spec n (max_list (n' :: ns'))) as [[_ ->]|[_ ->]].
    + right. by apply IH.
    + left.
Qed.

Lemma foldl_add_level_nonempty (lvl : string → nat) names :
  ∀ levels : gmap nat (gset string),
    (∀ l X, levels !! l = Some X → X ≠ ∅) →
    ∀ l X, foldl (λ acc f, add_level (lvl f) f acc) levels names !! l = Some X →
           X ≠ ∅.
Proof.
  induction names as [|n names IH]; intros levels Hne; [done|].
  simpl. apply IH. intros l X. unfold add_level.
  destruct (decide (l = lvl n)) as [->|].
  - rewrite lookup_insert_eq. intros [= <-]. set_solver.
  - rewrite lookup_insert_ne by done. apply Hne.
Qed.

Section height_facts.
Variable g : gmap string (gset string).
Hypothesis Hclosed : closed g.
Hypothesis Hacyc : acyclic g.

(** A function is above each of its dependencies, and just above one of
    them. *)
Lemma height_dependencies f deps :
  g !! f = Some deps →
  (∀ d, d ∈ deps → height (size g) g d < height (size g) g f) ∧
  (∀ l, height (size g) g f = S l → ∃ d, d ∈ deps ∧ height (size g) g d = l).
Proof.
  intros Hf. rewrite (height_unfold g Hclosed f deps Hacyc Hf).
  case_decide as Hsize.
  - apply size_empty_inv, leibniz_equiv in Hsize as ->. split; [set_solver|done].
  - split.
    + intros d Hd. apply Nat.lt_succ_r, max_list_elem_of_le.
      apply list_elem_of_fmap. exists d. by rewrite elem_of_elements.
    + intros l [= <-].
      destruct (nonempty_elements deps Hsize) as (d0 & ds & Hel).
      pose proof (max_list_attained (height (size g) g <$> elements deps)) as Hin.
      rewrite Hel in Hin at 1. specialize (Hin ltac:(done)).
      apply list_elem_of_fmap in Hin as (d & Hd & Hin%elem_of_elements).
      by exists d.
Qed.

End height_facts.

(** The shape of the level map of a table without dangling dependencies. *)
Lemma compute_levels_shape depth (g : gmap string (gset string)) levels m :
  closed g → compute_levels depth g = inr (levels, m) →
  acyclic g ∧
  (∀ f l, f ∈ default ∅ (levels !! l) ↔ f ∈ dom g ∧ height (size g) g f = l) ∧
  (∀ l X, levels !! l = Some X → X ≠ ∅) ∧
  (∀ l, is_Some (levels !! S l) → is_Some (levels !! l)).
Proof.
  intros Hclosed Hlv.
  pose proof (compute_levels_sound depth g Hclosed) as Hs.
  rewrite Hlv in Hs. destruct Hs as [Hacyc ->].
  set (H := height (size g) g).
  assert (Hin : ∀ f l,
    f ∈ default ∅ (foldl (λ acc f, add_level (H f) f acc) ∅ (map_to_list g).*1 !! l)
    ↔ f ∈ dom g ∧ H f = l).
  { intros f l. rewrite elem_of_foldl_add_level, lookup_empty, elem_of_keys.
    simpl. set_solver. }
  assert (Hne : ∀ l X,
    foldl (λ acc f, add_level (H f) f acc) ∅ (map_to_list g).*1 !! l = Some X →
    X ≠ ∅).
  { apply foldl_add_level_nonempty. intros l X. by rewrite lookup_empty. }
  split_and!; [done..|].
  intros l [X HX]. pose proof (Hne _ _ HX) as [f Hf]%set_choose_L.
  assert (f ∈ dom g ∧ H f = S l) as [[deps Hdeps]%elem_of_dom Hh].
  { apply Hin. by rewrite HX. }
  destruct (height_dependencies g Hclosed Hacyc f deps Hdeps) as [_ Hd].
  destruct (Hd l Hh) as (d & Hdin & Hdl).
  assert (d ∈ default ∅ (foldl (λ acc f, add_level (H f) f acc) ∅
                           (map_to_list g).*1 !! l)) as Hdl'.
  { apply Hin. split; [|done]. by apply (Hclosed f deps Hdeps). }
  destruct (foldl _ _ _ !! l); [done|]. by apply not_elem_of_empty in Hdl'.
Qed.

(** X13.  The level map the level loop returns, when it returns one: no
    level has an empty set, the levels in use have no gap (so they are [0]
    up to the greatest), every function is in the set of exactly one level,
    and each of its dependencies is in the set of a lower level. *)
Theorem levels_shape depth (funcs : gmap string (gset string)) :
  match compute_levels depth (filter_deps funcs) with
  | inl _ => True
  | inr (levels, _) =>
      (∀ l X, levels !! l = Some X → X ≠ ∅) ∧
      (∀ l, is_Some (levels !! S l) → is_Some (levels !! l)) ∧
      (∀ f, f ∈ dom funcs →
         ∃ l, f ∈ default ∅ (levels !! l) ∧
              ∀ l', f ∈ default ∅ (levels !! l') → l' = l) ∧
      (∀ f l deps d, f ∈ default ∅ (levels !! l) →
         filter_deps funcs !! f = Some deps → d ∈ deps →
         ∃ l', l' < l ∧ d ∈ default ∅ (levels !! l'))
  end.
Proof.
  pose proof (filter_deps_closed funcs) as Hclosed.
  destruct (compute_levels depth (filter_deps funcs)) as [e|[levels m]] eqn:Hlv;
    [done|].
  destruct (compute_levels_shape _ _ _ _ Hclosed Hlv) as (Hacyc & Hin & Hne & Hgap).
  split_and!; [done|done|..].
  - intros f Hf. exists (height (size (filter_deps funcs)) (filter_deps funcs) f).
    split.
    + apply Hin. split; [|done]. by rewrite filter_deps_dom.
    + by intros l' [_ Hl']%Hin.
  - intros f l deps d [_ <-]%Hin Hdeps Hd.
    destruct (height_dependencies _ Hclosed Hacyc f deps Hdeps) as [Hlt _].
    eexists. split; [by apply Hlt|]. apply Hin. split; [|done].
    by apply (Hclosed f deps Hdeps).
Qed.

(** ** The cache of [memoize_level] *)

(** A call that returns leaves its result in the cache, under the key set
    of the table and the key. *)
Lemma get_level_cached depth (g : gmap string (gset string)) k m v m' :
  get_level depth g k m = inr (v, m') → cache m' !! (dom g, k) = Some v.
Proof.
  destruct depth as [|depth]; [done|]. simpl. unfold memoize_level.
  destruct (cache m !! (dom g, k)) as [[|v0]|] eqn:Hc.
  2:{ by intros [= <- <-]. }
  all: destruct (get_level_func _ _ _ _) as [e|[r m1]]; [done|];
    intros [= <- <-]; simpl; by rewrite lookup_insert_eq.
Qed.

(** X11.  The cache key is made of the names of the table and the function
    name, not of the dependencies: a level of 1 or more that [get_level]
    returned for one table is returned for every table with the same names,
    without calling the decorated function and without touching the
    cache. *)
Theorem cache_key_ignores_values depth depth' (g1 g2 : gmap string (gset string))
    k m :
  dom g1 = dom g2 →
  match get_level depth g1 k m with
  | inr (S v, m1) => get_level (S depth') g2 k m1 = inr (S v, m1)
  | _ => True
  end.
Proof.
  intros Hdom.
  destruct (get_level depth g1 k m) as [e|[[|v] m1]] eqn:Hg; [done..|].
  apply get_level_cached in Hg. rewrite Hdom in Hg.
  by apply memoize_level_hit.
Qed.

Lemma cache_key_ignores_values_witness :
  match get_level 5 chain_table "a" new_memo with
  | inr (S v, m1) => get_level 6 flat_table "a" m1 = inr (S v, m1)
  | _ => True
  end ∧
  match get_level 5 chain_table "a" new_memo with
  | inr (l, _) => l = 1
  | _ => False
  end ∧
  match get_level 6 flat_table "a" new_memo with
  | inr (l, _) => l = 0
  | _ => False
  end.
Proof.
  split.
  - apply (cache_key_ignores_values 5 5 chain_table flat_table "a" new_memo).
    vm_compute. reflexivity.
  - split; vm_compute; reflexivity.
Defined.

(** ** The report *)

Section report_facts.
Variable level_order : nat → gset string → list string.
Variable deps_order : string → gset string → list string.
Hypothesis Hlevel_order : ∀ l X, level_order l X ≡ₚ elements X.

Lemma report_func_ok t fname out :
  fname ∈ dom (t_func_paths t) → fname ∈ dom (t_funcs t) →
  report_func deps_order t fname out = (out ++ func_lines deps_order t fname, None).
Proof.
  intros [path Hp]%elem_of_dom [deps Hd]%elem_of_dom.
  unfold report_func, func_lines. rewrite Hp, Hd. simpl.
  case_decide; [|done]. by rewrite <- (assoc_L (++)).
Qed.

Lemma report_funcs_ok t names : ∀ out,
  (∀ f, f ∈ names → f ∈ dom (t_func_paths t) ∧ f ∈ dom (t_funcs t)) →
  report_funcs deps_order t names out
  = (out ++ mjoin (func_lines deps_order t <$> names), None).
Proof.
  induction names as [|f names IH]; intros out Hin; simpl.
  - by rewrite app_nil_r.
  - destruct (Hin f) as [? ?]; [left|].
    rewrite report_func_ok by done. rewrite IH.
    + by rewrite <- (assoc_L (++)).
    + intros f' ?. apply Hin. by right.
Qed.

Lemma report_levels_ok t levels ls : ∀ out,
  (∀ l, l ∈ ls → is_Some (levels !! l)) →
  (∀ l X f, levels !! l = Some X → f ∈ X →
     f ∈ dom (t_func_paths t) ∧ f ∈ dom (t_funcs t)) →
  report_levels level_order deps_order t levels ls out
  = (out ++ mjoin (level_lines level_order deps_order t levels <$> ls), None).
Proof.
  induction ls as [|l ls IH]; intros out Hls Hin.
  - simpl. by rewrite app_nil_r.
  - destruct (Hls l) as [X HX]; [left|]. cbn [report_levels]. rewrite HX.
    rewrite report_funcs_ok.
    + rewrite IH; [|intros l' ?; apply Hls; by right|done].
      rewrite fmap_cons. cbn [mjoin list_join].
      unfold level_lines at 2. rewrite HX. cbn [default].
      by rewrite <- !(assoc_L (++)).
    + intros f Hf. apply (Hin l X); [done|].
      rewrite Hlevel_order in Hf. by apply elem_of_elements.
Qed.

Lemma sorted_keys_spec (levels : gmap nat (gset string)) :
  Sorted (≤) (sorted_keys levels) ∧ NoDup (sorted_keys levels) ∧
  ∀ l, l ∈ sorted_keys levels ↔ is_Some (levels !! l).
Proof.
  unfold sorted_keys. split_and!.
  - apply (Sorted_merge_sort (≤)).
  - rewrite merge_sort_Permutation. apply NoDup_elements.
  - intros l. rewrite merge_sort_Permutation, elem_of_elements. apply elem_of_dom.
Qed.

End report_facts.

(** ** The whole program *)


Lemma scan_all_total fs paths : ∀ t, is_Some (scan_all fs paths t).
Proof.
  induction paths as [|p ps IH]; intros t; simpl; [by eexists|].
  destruct (FileContext_run_total fs p) as [[[c|e c] err] ->]; [apply IH|by eexists].
Qed.


Lemma Sorted_le_seq n : ∀ a, Sorted (≤) (seq a n).
Proof.
  induction n as [|n IH]; intros a; simpl; [constructor|].
  constructor; [apply IH|]. destruct n; simpl; constructor. lia.
Qed.

(** The keys of a map of levels without gaps, in ascending order. *)
Lemma sorted_keys_seq (levels : gmap nat (gset string)) :
  (∀ l, is_Some (levels !! S l) → is_Some (levels !! l)) →
  sorted_keys levels = seq 0 (size levels).
Proof.
  intros Hgap.
  destruct (sorted_keys_spec levels) as (Hsorted & Hnodup & Hin).
  assert (Hlen : length (sorted_keys levels) = size levels).
  { unfold sorted_keys. rewrite merge_sort_Permutation.
    rewrite <- size_dom. done. }
  assert (Hdown : ∀ l l', l' ≤ l → is_Some (levels !! l) → is_Some (levels !! l')).
  { intros l l' Hle. induction Hle as [|l Hle IH]; [done|].
    intros H. by apply IH, Hgap. }
  apply (Sorted_unique (≤)); [done|apply Sorted_le_seq|].
  apply submseteq_length_Permutation.
  - apply NoDup_submseteq; [done|]. intros l Hl%Hin.
    apply elem_of_seq. split; [lia|]. simpl. rewrite <- Hlen.
    assert (seq 0 (S l) ⊆+ sorted_keys levels) as Hsub%submseteq_length.
    { apply NoDup_submseteq; [apply NoDup_seq|].
      intros l' [_ Hl']%elem_of_seq. apply Hin, (Hdown l); [lia|done]. }
    rewrite length_seq in Hsub. lia.
  - by rewrite length_seq, Hlen.
Qed.

Section main_facts.
Variable level_order : nat → gset string → list string.
Variable deps_order : string → gset string → list string.
Hypothesis Hlevel_order : ∀ l X, level_order l X ≡ₚ elements X.

(** The program, phase by phase. *)
Lemma main_cases depth fs paths :
  match scan_all fs paths no_tables with
  | None => False
  | Some (Aborted e out err) =>
      main level_order deps_order depth fs paths = Some (Aborted e out err)
  | Some (Completed t0) =>
      match compute_levels depth (filter_deps (t_funcs t0)) with
      | inl e =>
          e = RecursionError ∧
          main level_order deps_order depth fs paths
          = Some (Aborted RecursionError (t_stdout t0) [])
      | inr (levels, _) =>
          main level_order deps_order depth fs paths
          = Some (Completed
                    (t_stdout t0 ++
                     mjoin (level_lines level_order deps_order
                              (mkTables (filter_deps (t_funcs t0))
                                        (t_func_paths t0) (t_stdout t0))
                              levels <$> seq 0 (size levels))))
      end
  end.
Proof.
  unfold main, analyse.
  destruct (scan_all_total fs paths no_tables) as [[t0|e out err] Hscan];
    rewrite Hscan; [|done].
  pose proof (filter_deps_closed (t_funcs t0)) as Hclosed.
  pose proof (compute_levels_sound depth _ Hclosed) as Hs.
  destruct (compute_levels depth (filter_deps (t_funcs t0)))
    as [e|[levels m]] eqn:Hlv; [by subst e|].
  destruct (compute_levels_shape _ _ _ _ Hclosed Hlv) as (_ & Hin & _ & Hgap).
  unfold report. rewrite (sorted_keys_seq levels Hgap).
  rewrite (report_levels_ok level_order deps_order Hlevel_order); [done| |].
  - intros l Hl. rewrite <- (sorted_keys_seq levels Hgap) in Hl.
    by apply sorted_keys_spec.
  - intros l X f HX Hf. cbn [t_func_paths t_funcs].
    assert (f ∈ dom (filter_deps (t_funcs t0))) as Hdom.
    { apply (Hin f l). by rewrite HX. }
    split; [|done]. rewrite filter_deps_dom in Hdom.
    apply scan_all_tables in Hscan as (_ & _ & _ & Hdoms & _).
    by rewrite Hdoms.
Qed.

End main_facts.


(** X15.  The report of a program that completes: after the notices of the
    scans come the blocks of the levels [0], [1], ... up to the greatest, in
    this order and without a gap; the block of a level is its number, the
    lines of its functions and an empty line. *)
Theorem main_report level_order deps_order depth fs paths out :
  (∀ l X, level_order l X ≡ₚ elements X) →
  main level_order deps_order depth fs paths = Some (Completed out) →
  ∃ t levels,
    analyse depth fs paths = Some (Completed (t, levels)) ∧
    out = t_stdout t ++
          mjoin (level_lines level_order deps_order t levels
                   <$> seq 0 (size levels)) ∧
    ∀ l f, f ∈ default ∅ (levels !! l) →
           l < size levels ∧
           is_Some (t_func_paths t !! f) ∧ is_Some (t_funcs t !! f).
Proof.
  intros Horder Hout.
  pose proof (main_cases level_order deps_order Horder depth fs paths) as Hmain.
  unfold analyse.
  destruct (scan_all fs paths no_tables) as [[t0|e o err]|] eqn:Hscan;
    [| |done]; [|congruence].
  pose proof (filter_deps_closed (t_funcs t0)) as Hclosed.
  destruct (compute_levels depth (filter_deps (t_funcs t0)))
    as [e|[levels m]] eqn:Hlv; [destruct Hmain; congruence|].
  rewrite Hmain in Hout. injection Hout as <-.
  eexists _, levels. split_and!; [done..|].
  destruct (compute_levels_shape _ _ _ _ Hclosed Hlv) as (_ & Hin & _ & Hgap).
  intros l f Hf. cbn [t_func_paths t_funcs].
  assert (is_Some (levels !! l)) as Hl.
  { destruct (levels !! l); [done|]. by apply not_elem_of_empty in Hf. }
  apply sorted_keys_spec in Hl. rewrite (sorted_keys_seq levels Hgap) in Hl.
  apply elem_of_seq in Hl. split; [lia|].
  apply Hin in Hf as [Hdom _]. rewrite <- !elem_of_dom. split; [|done].
  rewrite filter_deps_dom in Hdom.
  apply scan_all_tables in Hscan as (_ & _ & _ & Hdoms & _). by rewrite Hdoms.
Qed.

Lemma scan_all_headless fs paths :
  (∀ p, p ∈ paths → ∃ data, fs p = Some data ∧ headless (finditer data)) →
  scan_all fs paths no_tables = Some (Completed no_tables).
Proof.
  induction paths as [|p ps IH]; intros Hall; [done|]. simpl.
  destruct (Hall p) as (data & Hfs & Hno); [left|].
  destruct (scanned_FileContext_run fs p data ∅ [] Hfs) as (c & -> & Hf & Ho & _).
  { by constructor. }
  replace (merge p c no_tables) with no_tables.
  - apply IH. intros q ?. apply Hall. by right.
  - unfold merge, no_tables. simpl. rewrite Hf, Ho, dom_empty_L.
    rewrite gset_to_gmap_empty. by rewrite !(left_id_L ∅ (∪)).
Qed.

(** X16.  A tree without a declaration (no file at all, or files whose
    tokens hold no declaration head): the program ends normally and prints
    nothing, whatever the recursion limit. *)
Theorem no_declarations_no_output level_order deps_order depth fs paths :
  (∀ p, p ∈ paths → ∃ data, fs p = Some data ∧ headless (finditer data)) →
  analyse depth fs paths = Some (Completed (no_tables, ∅)) ∧
  main level_order deps_order depth fs paths = Some (Completed []).
Proof.
  intros Hall. unfold main, analyse. rewrite (scan_all_headless fs paths Hall).
  done.
Qed.

Lemma no_declarations_no_output_witness :
  analyse 0 (one_file "a.ts" no_declaration) ["a.ts"]
  = Some (Completed (no_tables, ∅)) ∧
  main some_order some_order 0 (one_file "a.ts" no_declaration) ["a.ts"]
  = Some (Completed []).
Proof.
  apply (no_declarations_no_output some_order some_order 0
           (one_file "a.ts" no_declaration) ["a.ts"]).
  intros p ->%list_elem_of_singleton. exists no_declaration.
  split; [reflexivity|]. vm_compute. repeat constructor; discriminate.
Defined.


Lemma main_report_witness :
  ∃ t levels,
    analyse 1000 scenario_A_files ["bar.ts"; "foo.ts"]
    = Some (Completed (t, levels)) ∧
    ["0"; "bar ( bar.ts )"; ""; "1"; "foo ( foo.ts )"; " - bar"; ""]
    = t_stdout t ++
      mjoin (level_lines some_order some_order t levels <$> seq 0 (size levels)) ∧
    ∀ l f, f ∈ default ∅ (levels !! l) →
           l < size levels ∧
           is_Some (t_func_paths t !! f) ∧ is_Some (t_funcs t !! f).
Proof.
  apply (main_report some_order some_order 1000 scenario_A_files
           ["bar.ts"; "foo.ts"]).
  - intros l X. reflexivity.
  - vm_compute. reflexivity.
Defined.

(** ** The brace depth *)

Lemma depth_inv_do fs p data st c st' c' :
  fs p = Some data → scan_inv p data st c → depth_inv st c →
  do fs st c = Next st' c' → depth_inv st' c'.
Proof.
  intros Hfs Hinv Hd Hdo.
  pose proof (scan_inv_do fs p data Hfs st c st' c' Hinv Hdo) as Hinv'.
  destruct st; cbn [depth_inv] in Hd.
  - by injection Hdo as <- <-.
  - simpl in Hdo. destruct (fs (path c)); [|done]. by injection Hdo as <- <-.
  - simpl in Hdo. unfold get_next_token in Hdo.
    destruct (tok_itr c) as [[|mo rest]|]; [by injection Hdo as <- <-| |done].
    simpl in Hdo. repeat case_decide; injection Hdo as <- <-; exact Hd.
  - simpl in Hdo. repeat case_match; try done; injection Hdo as <- <-;
      by destruct Hinv' as (_ & pre & toks & _ & _ & _ & _ & _ & ? & _).
  - destruct Hinv as (_ & pre & toks & Hdata & Hit & _ & _ & [ids Hids] & _).
    destruct Hd as (d & Hl & Hge).
    destruct toks as [|mo rest].
    { simpl in Hdo. unfold get_next_token in Hdo. by rewrite Hit in Hdo. }
    pose proof (tokens_ok_finditer _ _ _ Hdata) as [Hmo _]%Forall_cons.
    destruct (ReadFunc_step fs c mo rest ids d Hit Hids Hl Hmo)
      as (c1 & Hdo1 & _ & _ & _ & _ & _ & Hl1 & _).
    rewrite Hdo1 in Hdo. injection Hdo as <- <-.
    case_decide as Hc; cbn [depth_inv]; rewrite Hl1.
    + destruct Hc as [Hk Hz]. unfold delta.
      rewrite decide_False, decide_True by (unfold has_kind in *; congruence).
      f_equal. lia.
    + eexists. split; [done|]. by apply delta_open.
  - simpl in Hdo. repeat case_match; try done; injection Hdo as <- <-; by right.
  - done.
  - done.
Qed.

Lemma depth_inv_steps fs p data n : ∀ st c st' c',
  fs p = Some data → scan_inv p data st c → depth_inv st c →
  steps fs n st c = Next st' c' → depth_inv st' c'.
Proof.
  induction n as [|n IH]; intros st c st' c' Hfs Hinv Hd.
  - by intros [= <- <-].
  - rewrite steps_S. destruct (do fs st c) as [st1 c1| |] eqn:Hdo; [|done..].
    apply IH; [done| |].
    + by apply (scan_inv_do fs p data Hfs st c).
    + by apply (depth_inv_do fs p data st c).
Qed.

(** X17.  The brace depth during a scan: in a state that reads a body it
    is at least 1, in every other state it is unset (no declaration was met
    yet) or 0; and the scan never enters the error state. *)
Theorem brace_depth fs p data n st c :
  fs p = Some data → steps fs n Start (new_FileContext p) = Next st c →
  (∀ e, st ≠ ErrorState e) ∧
  (st = ReadFunc → ∃ d, paren_level c = Some d ∧ (1 ≤ d)%Z) ∧
  (st ≠ ReadFunc → paren_level c = None ∨ paren_level c = Some 0%Z).
Proof.
  intros Hfs Hsteps.
  pose proof (depth_inv_steps fs p data n Start (new_FileContext p) st c Hfs
                (scan_inv_start p data) (or_introl eq_refl) Hsteps) as Hd.
  destruct st; cbn [depth_inv] in Hd; split_and!; try done; auto.
Qed.

Lemma brace_depth_witness :
  (∀ e, ReadFunc ≠ ErrorState e) ∧
  (ReadFunc = ReadFunc →
   ∃ d, paren_level (ctx_after (one_file "a.ts" nested_once) "a.ts" 5) = Some d ∧
        (1 ≤ d)%Z) ∧
  (ReadFunc ≠ ReadFunc →
   paren_level (ctx_after (one_file "a.ts" nested_once) "a.ts" 5) = None ∨
   paren_level (ctx_after (one_file "a.ts" nested_once) "a.ts" 5) = Some 0%Z).
Proof.
  apply (brace_depth (one_file "a.ts" nested_once) "a.ts" nested_once 5).
  - reflexivity.
  - vm_compute. reflexivity.
Defined.

(** ** Nothing is passed over that could be a token *)

Lemma match_here_join_alternatives spec n r s :
  (n, r) ∈ spec → is_Some (match_here r s) →
  is_Some (match_here (join_alternatives spec) s).
Proof.
  induction spec as [|[n' r'] spec IH]; [by intros ?%elem_of_nil|].
  intros Hin Hr.
  assert (Hhead : (n, r) = (n', r') →
    is_Some (exec (Grp (Some n') r') s [] accept)).
  { intros [= <- <-]. rewrite exec_Grp_accept. by apply fmap_is_Some. }
  destruct spec as [|q spec].
  - apply list_elem_of_singleton in Hin. by apply Hhead.
  - change (join_alternatives ((n', r') :: q :: spec))
      with (Alt (Grp (Some n') r') (join_alternatives (q :: spec))).
    unfold match_here.
    change (exec (Alt ?a ?b) s [] accept)
      with (match exec a s [] accept with
            | Some x => Some x
            | None => exec b s [] accept
            end).
    apply elem_of_cons in Hin as [Heq|Hin].
    + destruct (Hhead Heq) as [a ->]. by eexists.
    + destruct (exec (Grp (Some n') r') s [] accept); [by eexists|].
      by apply IH.
Qed.

Lemma match_at_starts_token c s :
  starts_token c = true → is_Some (match_at (c :: s)).
Proof.
  intros Hc.
  assert (is_Some (match_here TOKEN_REGEX (c :: s))) as [[rest g] Hm].
  { unfold starts_token in Hc.
    apply orb_true_iff in Hc as [[[Hc|Hc]%orb_true_iff|Hc]%orb_true_iff|Hc].
    - apply (match_here_join_alternatives _ "IDENTIFIER" IDENTIFIER_STR).
      { unfold token_spec. set_solver. }
      unfold match_here.
      change (exec IDENTIFIER_STR (c :: s) [] accept)
        with (if id_start c
              then star_loop (exec (Chr id_char)) accept (length s) s []
              else None).
      rewrite Hc.
      destruct (star_chr_accept id_char (length s) s []) as (? & ? & _ & _ & _ & ->).
      by eexists.
    - apply Ascii.eqb_eq in Hc as ->.
      apply (match_here_join_alternatives _ "OPEN_PAREN" (lit "{")).
      { unfold token_spec. set_solver. }
      by eexists.
    - apply Ascii.eqb_eq in Hc as ->.
      apply (match_here_join_alternatives _ "CLOSE_PAREN" (lit "}")).
      { unfold token_spec. set_solver. }
      by eexists.
    - apply Ascii.eqb_eq in Hc as ->.
      apply (match_here_join_alternatives _ "NEWLINE" (Chr (Ascii.eqb newline))).
      { unfold token_spec. set_solver. }
      by eexists. }
  unfold match_at. rewrite Hm. by eexists.
Qed.

Lemma finditer_from_covers s : ∀ pos skip i,
  skip ≤ i → i < length s →
  (∃ mo, mo ∈ finditer_from pos skip s ∧ mo_start mo ≤ pos + i < mo_end mo) ∨
  match_at (drop i s) = None.
Proof.
  induction s as [|c s IH]; intros pos skip i Hskip Hi; [simpl in Hi; lia|].
  cbn [finditer_from]. destruct skip as [|n].
  - destruct (match_at (c :: s)) as [[v lg]|] eqn:Hm.
    + destruct (decide (i < length v)) as [Hlt|Hge].
      * left. eexists. split; [left|]. simpl. lia.
      * apply match_at_prefix in Hm as (_ & _ & _ & _ & _ & Hne & _).
        destruct i as [|i]; [destruct v; [done|simpl in Hge; lia]|].
        destruct (IH (S pos) (length v - 1) i) as [(mo & Hin & Hmo)|Hnone];
          [lia|simpl in Hi; lia| |by right].
        left. exists mo. split; [by right|lia].
    + destruct i as [|i]; [by right|].
      destruct (IH (S pos) 0 i) as [(mo & Hin & Hmo)|Hnone];
        [lia|simpl in Hi; lia| |by right].
      left. exists mo. split; [done|lia].
  - destruct i as [|i]; [lia|].
    destruct (IH (S pos) n i) as [(mo & Hin & Hmo)|Hnone];
      [lia|simpl in Hi; lia| |by right].
    left. exists mo. split; [done|lia].
Qed.

(** X18.  The lexer passes over a character only where no token starts:
    every position of the text lies inside a match or is one where the token
    pattern does not match.  So every letter, underscore, brace and newline
    of the text lies inside a match. *)
Theorem finditer_covers data :
  (∀ i, i < String.length data →
     (∃ mo, mo ∈ finditer data ∧ mo_start mo ≤ i < mo_end mo) ∨
     match_at (drop i (list_ascii_of_string data)) = None) ∧
  (∀ i c, list_ascii_of_string data !! i = Some c → starts_token c = true →
     ∃ mo, mo ∈ finditer data ∧ mo_start mo ≤ i < mo_end mo).
Proof.
  assert (Hcov : ∀ i, i < String.length data →
     (∃ mo, mo ∈ finditer data ∧ mo_start mo ≤ i < mo_end mo) ∨
     match_at (drop i (list_ascii_of_string data)) = None).
  { intros i Hi. rewrite <- length_list_ascii_of_string in Hi.
    apply (finditer_from_covers _ 0 0 i); [lia|done]. }
  split; [done|]. intros i c Hc Hstart.
  destruct (Hcov i) as [?|Hnone]; [|done|].
  { rewrite <- length_list_ascii_of_string. by eapply lookup_lt_Some. }
  apply drop_S in Hc. rewrite Hc in Hnone.
  destruct (match_at_starts_token c (drop (S i) (list_ascii_of_string data)) Hstart)
    as [? Hsome].
  congruence.
Qed.

(** ** The level calculator without the filter loop *)

Lemma max_rest_cases (f : string → memo → exn + nat * memo)
    (E : exn → Prop) (P : string → Prop) (I : memo → Prop) ks :
  (∀ k m, k ∈ ks → I m →
     match f k m with
     | inl e => E e
     | inr (_, m') => P k ∧ I m'
     end) →
  ∀ acc m, I m →
    match max_rest f ks acc m with
    | inl e => E e
    | inr (_, m') => (∀ k, k ∈ ks → P k) ∧ I m'
    end.
Proof.
  induction ks as [|k ks IH]; intros Hf acc m Hm; simpl.
  - split; [by intros k ?%elem_of_nil|done].
  - specialize (Hf k m (list_elem_of_here _ _) Hm) as Hk.
    destruct (f k m) as [e|[v m1]]; [done|]. destruct Hk as [Hk Hm1].
    specialize (IH (λ k' m' Hk', Hf k' m' (list_elem_of_further _ _ _ Hk'))
                   (acc `max` v) m1 Hm1).
    destruct (max_rest f ks (acc `max` v) m1) as [e|[w m2]]; [done|].
    destruct IH as [Hks Hm2]. split; [|done].
    intros k' [->|Hin]%elem_of_cons; auto.
Qed.

Lemma keys_below_intro (g : gmap string (gset string)) f deps :
  g !! f = Some deps → (∀ d, d ∈ deps → keys_below g d) → keys_below g f.
Proof.
  intros Hf Hdeps x Hx. apply rtc_inv in Hx as [<-|(d & [deps' [Hf' Hd]] & Hx)].
  - by apply elem_of_dom.
  - rewrite Hf in Hf'. injection Hf' as <-. by apply (Hdeps d).
Qed.

(** On any table: [get_level] fails on [KeyError] or [RecursionError] only,
    and it returns only for a function below which every name is a key. *)
Lemma get_level_raw (g : gmap string (gset string)) : ∀ depth f m,
  cache_keys g m →
  match get_level depth g f m with
  | inl e => e = KeyError ∨ e = RecursionError
  | inr (_, m') => keys_below g f ∧ cache_keys g m'
  end.
Proof.
  induction depth as [|depth IH]; intros f m Hm; [by right|].
  assert (Hins : ∀ v c l, keys_below g f →
    cache_keys g (mkMemo c l) →
    cache_keys g (mkMemo (<[(dom g, f) := v]> c) l)).
  { intros v c l Hf Hc k v'. simpl. destruct (decide (k = f)) as [->|Hne].
    - done.
    - rewrite lookup_insert_ne by congruence. apply Hc. }
  simpl. unfold memoize_level.
  destruct (cache m !! (dom g, f)) as [[|v0]|] eqn:Hc.
  2:{ split; [|done]. by apply (Hm f (S v0)). }
  all: unfold get_level_func;
    destruct (g !! f) as [deps|] eqn:Hf; [|by left];
    case_decide as Hsize;
    [split; [|apply Hins; [|done]];
     (apply (keys_below_intro g f deps Hf);
      apply size_empty_inv, leibniz_equiv in Hsize; subst;
      by intros d ?%not_elem_of_empty)|];
    destruct (elements deps) as [|d0 ds] eqn:Hel;
    [apply elements_empty_inv, leibniz_equiv in Hel; subst;
     by rewrite size_empty in Hsize|];
    simpl;
    pose proof (IH d0 (mkMemo (cache m) (f :: calls m)) Hm) as H0;
    destruct (get_level depth g d0 _) as [e|[v m1]]; [done|];
    destruct H0 as [Hd0 Hm1];
    pose proof (max_rest_cases (get_level depth g)
                  (λ e, e = KeyError ∨ e = RecursionError)
                  (keys_below g) (cache_keys g) ds
                  (λ d m0 _ Hm0, IH d m0 Hm0) v m1 Hm1) as Hrest;
    destruct (max_rest _ ds v m1) as [e|[w m2]]; [done|];
    destruct Hrest as [Hds Hm2];
    assert (keys_below g f) as Hkf
      by (apply (keys_below_intro g f deps Hf); intros d Hd;
          apply elem_of_elements in Hd; rewrite Hel in Hd;
          apply elem_of_cons in Hd as [->|Hd]; [done|by apply Hds]);
    (split; [done|]); destruct m2; by apply Hins.
Qed.

(** X19.  [get_level] on a table that was not filtered: a name that is no
    key raises [KeyError]; and for a function from which a name that is no
    key can be reached, no level is returned: the call ends on [KeyError] or
    on [RecursionError]. *)
Theorem get_level_needs_filter (g : gmap string (gset string)) depth f d :
  rtc (edge g) f d → d ∉ dom g →
  get_level (S depth) g d new_memo = inl KeyError ∧
  (get_level depth g f new_memo = inl KeyError ∨
   get_level depth g f new_memo = inl RecursionError).
Proof.
  intros Hreach Hd. split.
  - simpl. unfold memoize_level, get_level_func. simpl.
    rewrite lookup_empty. apply not_elem_of_dom in Hd. by rewrite Hd.
  - pose proof (get_level_raw g depth f new_memo) as Hraw.
    destruct (get_level depth g f new_memo) as [e|[v m]].
    + destruct Hraw as [->| ->]; [|by left|by right].
      intros k v. simpl. by rewrite lookup_empty.
    + destruct Hraw as [Hkeys _].
      * intros k v'. simpl. by rewrite lookup_empty.
      * by destruct (Hd (Hkeys d Hreach)).
Qed.

Lemma get_level_needs_filter_witness :
  get_level 6 scenario_A "print" new_memo = inl KeyError ∧
  (get_level 5 scenario_A "foo" new_memo = inl KeyError ∨
   get_level 5 scenario_A "foo" new_memo = inl RecursionError).
Proof.
  apply (get_level_needs_filter scenario_A 5 "foo" "print").
  - apply rtc_once. exists {["bar"; "print"]}. split; [reflexivity|set_solver].
  - vm_compute. discriminate.
Defined.

(** ** The order of the files *)

Lemma scan_all_complete fs paths : ∀ t0,
  (∀ p, p ∈ paths → ∃ c, FileContext_run fs p = Some (Returned c, [])) →
  ∃ t, scan_all fs paths t0 = Some (Completed t).
Proof.
  induction paths as [|p ps IH]; intros t0 Hall; simpl; [by eexists|].
  destruct (Hall p) as [c ->]; [left|]. apply IH. intros q ?. apply Hall. by right.
Qed.

Lemma scan_all_dom fs paths name : ∀ t0 t,
  scan_all fs paths t0 = Some (Completed t) →
  name ∈ dom (t_funcs t0) ∨ (∃ p, p ∈ paths ∧ name ∈ declared fs p) →
  name ∈ dom (t_funcs t).
Proof.
  induction paths as [|p ps IH]; intros t0 t; simpl.
  - intros [= <-] [?|(p & ?%elem_of_nil & _)]; done.
  - destruct (FileContext_run fs p) as [[[c|e c] err]|] eqn:Hp; [|done..].
    intros Hrest Hin. apply (IH _ _ Hrest). simpl. rewrite dom_union_L.
    destruct Hin as [?|(q & [->|Hq]%elem_of_cons & Hname)].
    + left. set_solver.
    + left. unfold declared in Hname. rewrite Hp in Hname. set_solver.
    + right. by exists q.
Qed.

(** With no name declared by two files, a table entry is the record of the
    one file that declares the name. *)
Lemma scan_all_unique fs paths t name ids p :
  (∀ p q, p ∈ paths → q ∈ paths → p ≠ q → declared fs p ## declared fs q) →
  scan_all fs paths no_tables = Some (Completed t) →
  (t_funcs t !! name = Some ids ∧ t_func_paths t !! name = Some p)
  ↔ ∃ c, p ∈ paths ∧ FileContext_run fs p = Some (Returned c, []) ∧
         funcs c !! name = Some ids.
Proof.
  intros Huniq Hscan.
  pose proof (scan_all_tables fs paths _ _ Hscan) as (cs & Hcs & _ & _ & Hfrom).
  assert (Hsrc : ∀ ids', t_funcs t !! name = Some ids' →
    ∃ p' c', p' ∈ paths ∧ FileContext_run fs p' = Some (Returned c', []) ∧
             t_func_paths t !! name = Some p' ∧ funcs c' !! name = Some ids').
  { intros ids' Hname.
    destruct (Hfrom name ids' Hname) as [[Hno _]|(i & p' & c' & Hi & Hc & ? & ?)].
    { unfold no_tables in Hno. cbn [t_funcs] in Hno.
      by rewrite lookup_empty in Hno. }
    exists p', c'. split_and!; [by eapply list_elem_of_lookup_2| |done..].
    by eapply (Forall2_lookup_lr _ _ _ _ _ _ Hcs). }
  split.
  - intros [Hname Hpath]. destruct (Hsrc ids Hname) as (p' & c' & ? & ? & Hp' & ?).
    rewrite Hpath in Hp'. injection Hp' as <-. by exists c'.
  - intros (c & Hp & Hrun & Hc).
    assert (name ∈ dom (t_funcs t)) as [ids' Hname]%elem_of_dom.
    { apply (scan_all_dom fs paths name _ _ Hscan). right. exists p.
      split; [done|]. unfold declared. rewrite Hrun. by apply elem_of_dom. }
    destruct (Hsrc ids' Hname) as (p' & c' & Hp' & Hrun' & Hpath & Hc').
    destruct (decide (p = p')) as [<-|Hne].
    + rewrite Hrun in Hrun'. injection Hrun' as <-. split; congruence.
    + destruct (Huniq p p' Hp Hp' Hne name); unfold declared.
      * rewrite Hrun. by apply elem_of_dom.
      * rewrite Hrun'. by apply elem_of_dom.
Qed.

(** X20.  When no name is declared by two different files, the order in
    which the files are scanned does not matter for the two tables: the
    aggregation loop over any rearrangement of the paths completes with the
    same [funcs] and [func_paths]. *)
Theorem aggregation_order fs paths paths' t :
  paths ≡ₚ paths' →
  (∀ p q, p ∈ paths → q ∈ paths → p ≠ q → declared fs p ## declared fs q) →
  scan_all fs paths no_tables = Some (Completed t) →
  ∃ t', scan_all fs paths' no_tables = Some (Completed t') ∧
        t_funcs t' = t_funcs t ∧ t_func_paths t' = t_func_paths t.
Proof.
  intros Hperm Huniq Hscan.
  pose proof (scan_all_tables fs paths _ _ Hscan) as (cs & Hcs & _ & Hdom & _).
  destruct (scan_all_complete fs paths' no_tables) as [t' Hscan'].
  { intros p Hp. rewrite <- Hperm in Hp.
    apply list_elem_of_lookup_1 in Hp as [i Hi].
    destruct (Forall2_lookup_l _ _ _ _ _ Hcs Hi) as (c & _ & ?). by exists c. }
  pose proof (scan_all_tables fs paths' _ _ Hscan') as (_ & _ & _ & Hdom' & _).
  assert (Huniq' : ∀ p q, p ∈ paths' → q ∈ paths' → p ≠ q →
                          declared fs p ## declared fs q).
  { intros p q. rewrite <- !Hperm. apply Huniq. }
  assert (Hsame : ∀ name ids p,
    (t_funcs t' !! name = Some ids ∧ t_func_paths t' !! name = Some p)
    ↔ (t_funcs t !! name = Some ids ∧ t_func_paths t !! name = Some p)).
  { intros name ids p.
    rewrite (scan_all_unique fs paths t name ids p Huniq Hscan).
    rewrite (scan_all_unique fs paths' t' name ids p Huniq' Hscan').
    by setoid_rewrite Hperm. }
  assert (Hboth : ∀ (u : tables) name,
    dom (t_func_paths u) = dom (t_funcs u) →
    (∀ ids, t_funcs u !! name = Some ids → ∃ p, t_func_paths u !! name = Some p) ∧
    (∀ p, t_func_paths u !! name = Some p → ∃ ids, t_funcs u !! name = Some ids)).
  { intros u name Hd. split.
    - intros ids Hn. apply elem_of_dom. rewrite Hd. by apply elem_of_dom.
    - intros p Hn. apply elem_of_dom. rewrite <- Hd. by apply elem_of_dom. }
  exists t'. split; [done|].
  split; apply map_eq; intros name; apply option_eq.
  - intros ids. split; intros Hn.
    + destruct (Hboth t' name (Hdom' eq_refl)) as [H1 _].
      destruct (H1 ids Hn) as [p Hp]. by apply (Hsame name ids p).
    + destruct (Hboth t name (Hdom eq_refl)) as [H1 _].
      destruct (H1 ids Hn) as [p Hp]. by apply (Hsame name ids p).
  - intros p. split; intros Hn.
    + destruct (Hboth t' name (Hdom' eq_refl)) as [_ H2].
      destruct (H2 p Hn) as [ids Hi]. by apply (Hsame name ids p).
    + destruct (Hboth t name (Hdom eq_refl)) as [_ H2].
      destruct (H2 p Hn) as [ids Hi]. by apply (Hsame name ids p).
Qed.

Lemma aggregation_order_witness :
  ∃ t', scan_all scenario_A_files ["foo.ts"; "bar.ts"] no_tables
        = Some (Completed t') ∧
        t_funcs t'
        = t_funcs (mkTables {["foo" := {["bar"; "print"]}; "bar" := ∅]}
                            {["foo" := "foo.ts"; "bar" := "bar.ts"]} []) ∧
        t_func_paths t'
        = t_func_paths (mkTables {["foo" := {["bar"; "print"]}; "bar" := ∅]}
                                 {["foo" := "foo.ts"; "bar" := "bar.ts"]} []).
Proof.
  apply (aggregation_order scenario_A_files ["bar.ts"; "foo.ts"]).
  - apply perm_swap.
  - intros p q Hp Hq Hne.
    apply list_elem_of_In in Hp, Hq. simpl in Hp, Hq.
    destruct Hp as [<-|[<-|[]]], Hq as [<-|[<-|[]]];
      first [congruence|apply (bool_decide_unpack _); vm_compute; reflexivity].
  - vm_compute. reflexivity.
Defined.

(** ** A declaration head is lexed as a head *)

Lemma match_here_IGNORE c s :
  c ≠ "/"%char → match_here IGNORE_re (c :: s) = None.
Proof.
  intros Hc. unfold match_here, IGNORE_re.
  cbn [cat foldr lit Lit list_ascii_of_string exec].
  by destruct (Ascii.eqb_spec "/"%char c) as [<-|_].
Qed.

Lemma head_keywords_first kw :
  kw ∈ head_keywords →
  ∃ c v, list_ascii_of_string kw = c :: v ∧ c ≠ "/"%char.
Proof.
  unfold head_keywords. intros Hkw.
  repeat (apply elem_of_cons in Hkw as [->|Hkw]; [by eexists _, _|]).
  by apply elem_of_nil in Hkw.
Qed.

(** Where the pattern of a declaration head matches, the token pattern
    matches the same text as a [FUNCSTART]. *)
Lemma match_at_head s rest g :
  match_here FUNCSTART_re s = Some (rest, g) →
  ∃ v, s = v ++ rest ∧ v ≠ [] ∧ match_at s = Some (v, Some "FUNCSTART").
Proof.
  intros Hm. pose proof Hm as Hs.
  apply exec_sound in Hs as (v & ? & ? & -> & Hs & [= -> ->]).
  apply matches_FUNCSTART_shape in Hs
    as (kw & name & params & ret & Hv & Hkw & _).
  destruct (head_keywords_first kw Hkw) as (c & w & Hc & Hne).
  rewrite Hc in Hv. exists v. split; [done|]. split; [by subst v|].
  unfold match_at, TOKEN_REGEX, token_spec.
  change (join_alternatives (("IGNORE", IGNORE_re) :: ("FUNCSTART", FUNCSTART_re) :: ?l))
    with (Alt (Grp (Some "IGNORE") IGNORE_re)
              (Alt (Grp (Some "FUNCSTART") FUNCSTART_re) (join_alternatives l))).
  unfold match_here at 1.
  change (exec (Alt ?a (Alt ?b ?r)) ?s [] accept)
    with (match exec a s [] accept with
          | Some x => Some x
          | None =>
              match exec b s [] accept with
              | Some x => Some x
              | None => exec r s [] accept
              end
          end).
  rewrite !exec_Grp_accept, Hm.
  replace (match_here IGNORE_re (v ++ rest)) with (@None (list ascii * groups)).
  - cbn [fmap option_fmap option_map fst snd lastgroup]. by rewrite take_matched.
  - subst v. symmetry. by apply match_here_IGNORE.
Qed.

(** The match that starts at a position, unless an earlier match covers
    it. *)
Lemma finditer_from_at s : ∀ pos skip i,
  skip ≤ i → i < length s →
  (∃ mo, mo ∈ finditer_from pos skip s ∧ mo_start mo < pos + i < mo_end mo) ∨
  match match_at (drop i s) with
  | None => True
  | Some (v, lg) =>
      mkMatch (pos + i) (pos + i + length v) (string_of_list_ascii v) lg
      ∈ finditer_from pos skip s
  end.
Proof.
  induction s as [|c s IH]; intros pos skip i Hskip Hi; [simpl in Hi; lia|].
  cbn [finditer_from]. destruct skip as [|n].
  - destruct i as [|i].
    + right. rewrite drop_0, Nat.add_0_r.
      destruct (match_at (c :: s)) as [[v lg]|]; [left|done].
    + simpl in Hi. cbn [drop].
      destruct (match_at (c :: s)) as [[v lg]|] eqn:Hm.
      * destruct (decide (S i < length v)) as [Hlt|Hge].
        { left. eexists. split; [left|]. simpl. lia. }
        destruct (IH (S pos) (length v - 1) i) as [(mo & Hin & Hmo)|Hat];
          [lia|lia| |].
        -- left. exists mo. split; [by right|lia].
        -- right. destruct (match_at (drop i s)) as [[v' lg']|]; [|done].
           right. by replace (pos + S i) with (S pos + i) by lia.
      * destruct (IH (S pos) 0 i) as [(mo & Hin & Hmo)|Hat]; [lia|lia| |].
        -- left. exists mo. split; [done|lia].
        -- right. destruct (match_at (drop i s)) as [[v' lg']|]; [|done].
           by replace (pos + S i) with (S pos + i) by lia.
  - destruct i as [|i]; [lia|]. simpl in Hi. cbn [drop].
    destruct (IH (S pos) n i) as [(mo & Hin & Hmo)|Hat]; [lia|lia| |].
    + left. exists mo. split; [done|lia].
    + right. destruct (match_at (drop i s)) as [[v' lg']|]; [|done].
      by replace (pos + S i) with (S pos + i) by lia.
Qed.

(** X21.  A declaration head is lexed as a head: at a position of the text
    where the [FUNCSTART] pattern matches, [finditer] yields a [FUNCSTART]
    token with the text of that match (not the identifier [function] or
    [public]), unless the position lies inside a token that started
    earlier. *)
Theorem declaration_head_priority data i rest g :
  match_here FUNCSTART_re (drop i (list_ascii_of_string data)) = Some (rest, g) →
  (∃ mo, mo ∈ finditer data ∧ has_kind "FUNCSTART" mo ∧ mo_start mo = i ∧
         list_ascii_of_string (mo_group mo) ++ rest
         = drop i (list_ascii_of_string data)) ∨
  (∃ mo, mo ∈ finditer data ∧ mo_start mo < i < mo_end mo).
Proof.
  intros (v & Hv & Hne & Hat)%match_at_head.
  assert (i < length (list_ascii_of_string data)) as Hi.
  { destruct (decide (i < length (list_ascii_of_string data))); [done|].
    rewrite drop_ge in Hv by lia. by destruct v. }
  destruct (finditer_from_at (list_ascii_of_string data) 0 0 i) as [?|Hin];
    [lia|done|by right|].
  rewrite Hat in Hin. left. eexists. split; [exact Hin|]. simpl.
  by rewrite list_ascii_of_string_of_list_ascii.
Qed.

Lemma declaration_head_priority_witness :
  (∃ mo, mo ∈ finditer nested_once ∧ has_kind "FUNCSTART" mo ∧ mo_start mo = 59 ∧
         list_ascii_of_string (mo_group mo) ++ ["}"%char]
         = drop 59 (list_ascii_of_string nested_once)) ∨
  (∃ mo, mo ∈ finditer nested_once ∧ mo_start mo < 59 < mo_end mo).
Proof.
  apply (declaration_head_priority nested_once 59 ["}"%char]
           [(None, list_ascii_of_string "{");
            (Some "funcname", list_ascii_of_string "helper");
            (None, list_ascii_of_string "function");
            (None, list_ascii_of_string "function")]).
  vm_compute. reflexivity.
Defined.
